(** * datalogging: the virtual-path logger of [datalogging/logger.py]

    A shallow embedding of [LogNode] and [Logger].  Python objects live in
    a table of nodes indexed by locations, so that two [Logger] handles
    on the same node really share it; every operation takes the table
    and returns the table it leaves behind. *)

From Stdlib Require Import Ascii.
From stdpp Require Import gmap strings list fin_maps.

Set Warnings "-register-all".
Set Default Proof Using "Type".

(** ** Python values

    The values a caller can log.  Only what [isinstance(val, Iterable)]
    and [list.extend] look at is kept: whether the value can be iterated
    and which elements the iteration yields. *)

Inductive value :=
  | VNone
  | VBool (b : bool)
  | VInt (z : Z)
  | VStr (s : string)
  | VList (l : list value)
  | VDict (items : list (string * value)).

(** Iterating a [str] yields its characters as one-character strings. *)
Fixpoint chars (s : string) : list value :=
  match s with
  | EmptyString => []
  | String c r => VStr (String c EmptyString) :: chars r
  end.

(** [isinstance(val, Iterable)] *)
Definition is_iterable (v : value) : bool :=
  match v with
  | VStr _ | VList _ | VDict _ => true
  | VNone | VBool _ | VInt _ => false
  end.

(** The elements [list.extend(lst, val)] splices in; iterating a dict
    yields its keys. *)
Definition iter (v : value) : list value :=
  match v with
  | VStr s => chars s
  | VList l => l
  | VDict items => (λ kv, VStr kv.1) <$> items
  | VNone | VBool _ | VInt _ => []
  end.

(** ** Python exceptions and results *)

Inductive exn := KeyError | TypeError | AttributeError | RecursionError.

Inductive result (A : Type) :=
  | Ok (a : A)
  | Raise (e : exn).
Arguments Ok {A} a.
Arguments Raise {A} e.

#[global] Instance result_ret : MRet result := λ A a, Ok a.
#[global] Instance result_bind : MBind result := λ A B k r,
  match r with
  | Ok a => k a
  | Raise e => Raise e
  end.

(** ** [str.split] and [str.rsplit] with a one-character separator *)

Module Str.

Definition sep : Ascii.ascii := "/"%char.

(** [s.split(sep)] when [maxsplit] is [None] and [s.split(sep, n)] when
    it is [Some n]: never the empty list, at most [n] cuts, from the
    left. *)
Fixpoint split (maxsplit : option nat) (s : string) : list string :=
  match s with
  | EmptyString => [EmptyString]
  | String c r =>
      if Ascii.eqb c sep then
        match maxsplit with
        | Some 0 => [s]
        | Some (S n) => EmptyString :: split (Some n) r
        | None => EmptyString :: split None r
        end
      else
        match split maxsplit r with
        | hd :: tl => String c hd :: tl
        | [] => [String c EmptyString]
        end
  end.

(** [s.rsplit(sep, n)]: the same cuts counted from the right, which is
    [split] on the mirrored string, mirrored back. *)
Definition rsplit (maxsplit : option nat) (s : string) : list string :=
  reverse (String.rev <$> split maxsplit (String.rev s)).

(** [sep in s] *)
Fixpoint has_sep (s : string) : bool :=
  match s with
  | EmptyString => false
  | String c r => Ascii.eqb c sep || has_sep r
  end.

(** [a + '/' + b] *)
Definition join2 (a b : string) : string := a +:+ String sep b.

End Str.

(** ** Path splitting (logger.py, lines 4-27) *)

(** [paths = vpath.split('/', 1);
     return tuple(paths) if len(paths) == 2 else (paths[0], '')] *)
Definition _split_vpath (vpath : string) : string * string :=
  let paths := Str.split (Some 1) vpath in
  match paths with
  | [a; b] => (a, b)
  | _ => (hd EmptyString paths, EmptyString)
  end.

(** [paths = vpath.rsplit('/', 1);
     return tuple(paths) if len(paths) == 2 else ('', paths[0])] *)
Definition _rsplit_vpath (vpath : string) : string * string :=
  let paths := Str.rsplit (Some 1) vpath in
  match paths with
  | [a; b] => (a, b)
  | _ => (EmptyString, hd EmptyString paths)
  end.

(** ** The table of nodes

    A location stands for the identity of a [LogNode] object.  The table
    maps the allocated locations to the contents of their objects; the
    [children] mapping of a node holds locations, as the Python dict
    holds references. *)

Definition loc := positive.

Module LogNode.

(** [self.data], [self.children] *)
Record t := mk {
  data : gmap string (list value);
  children : gmap string loc
}.

(** [LogNode()]: both mappings empty. *)
Definition empty : t := mk ∅ ∅.

End LogNode.

Abbreviation heap := (gmap loc LogNode.t).

(** The object at a location.  A location outside the table reads as a
    node that was never written to. *)
Definition node_at (h : heap) (l : loc) : LogNode.t :=
  default LogNode.empty (h !! l).

(** [node.data = d] and [node.children = cs] *)
Definition set_data (h : heap) (l : loc) (d : gmap string (list value)) : heap :=
  <[l := LogNode.mk d (LogNode.children (node_at h l))]> h.

Definition set_children (h : heap) (l : loc) (cs : gmap string loc) : heap :=
  <[l := LogNode.mk (LogNode.data (node_at h l)) cs]> h.

(** The location of a newly built object: different from every allocated
    one and from the object [l] that is about to refer to it. *)
Definition new_loc (h : heap) (l : loc) : loc := fresh ({[l]} ∪ dom h).

(** [node.children.setdefault(key, LogNode())].  The default is only
    stored (and only kept alive) when [key] is missing. *)
Definition setdefault_child (h : heap) (l : loc) (key : string) : loc * heap :=
  match LogNode.children (node_at h l) !! key with
  | Some c => (c, h)
  | None =>
      let c := new_loc h l in
      let h1 := <[c := LogNode.empty]> h in
      (c, set_children h1 l (<[key := c]> (LogNode.children (node_at h1 l))))
  end.

(** The nested mapping [parse] returns: a key is bound to a list of
    values or to the mapping of a child. *)
Inductive nested :=
  | NList (l : list value)
  | NDict (m : gmap string nested).

(** Truth value of a dict: it is not empty. *)
Definition truthy {A} (m : gmap string A) : bool := negb (Nat.eqb (size m) 0).

(** The methods of [LogNode].  Their loops run over the children in the
    order the finite map lists them rather than in insertion order; the
    keys of a dict are distinct, so the order does not show in what
    [parse] returns (see [parses_lookup_child]) nor in what [clear]
    leaves (see [clear_ranked]). *)
Module LogNodeOps.

(** [LogNode.clear] (lines 35-38).  [fuel] bounds the depth of the
    recursion, as the recursion limit of the interpreter does. *)
Fixpoint clear (fuel : nat) (h : heap) (self : loc) : result heap :=
  match fuel with
  | 0 => Raise RecursionError
  | S fuel =>
      h' ← map_fold (λ _ child acc, h1 ← acc; clear fuel h1 child)
                    (Ok h) (LogNode.children (node_at h self));
      Ok (set_data h' self ∅)
  end.

(** [LogNode.parse] (lines 40-46) *)
Fixpoint parse (fuel : nat) (h : heap) (self : loc) : result (gmap string nested) :=
  match fuel with
  | 0 => Raise RecursionError
  | S fuel =>
      map_fold (λ key child acc,
                  result ← acc;
                  parsed ← parse fuel h child;
                  Ok (if truthy parsed then <[key := NDict parsed]> result
                      else result))
               (Ok (NList <$> LogNode.data (node_at h self)))
               (LogNode.children (node_at h self))
  end.

End LogNodeOps.

(** ** The logger (lines 49-139) *)

Module Logger.

(** [self._root] *)
Record t := mk { _root : loc }.

(** [Logger()]: [self._root = root or LogNode()] with no root given. *)
Definition new (h : heap) : t * heap :=
  let l := fresh (dom h) in (mk l, <[l := LogNode.empty]> h).

(** The loop of [__contains__]: follow [dir_keys] through [children],
    stopping at the first missing key. *)
Fixpoint descend (h : heap) (current_node : loc) (dir_keys : list string)
  : option loc :=
  match dir_keys with
  | [] => Some current_node
  | key :: rest =>
      match LogNode.children (node_at h current_node) !! key with
      | None => None
      | Some c => descend h c rest
      end
  end.

(** [__contains__] (lines 58-68) *)
Definition __contains__ (h : heap) (self : t) (vpath : string) : bool :=
  if decide (vpath = EmptyString) then true
  else
    let keys := Str.split None vpath in
    let dir_keys := removelast keys in
    let last_key := List.last keys EmptyString in
    match descend h (_root self) dir_keys with
    | None => false
    | Some current_node =>
        bool_decide (is_Some (LogNode.children (node_at h current_node) !! last_key))
        || bool_decide (is_Some (LogNode.data (node_at h current_node) !! last_key))
    end.

(** The loop of [_traverse]:
    [current_node = current_node.children.setdefault(key, LogNode())]. *)
Fixpoint walk (h : heap) (current_node : loc) (keys : list string)
  : loc * heap :=
  match keys with
  | [] => (current_node, h)
  | key :: rest =>
      let '(c, h1) := setdefault_child h current_node key in
      walk h1 c rest
  end.

(** [_traverse] (lines 70-82) *)
Definition _traverse (h : heap) (self : t) (vpath : string) (create : bool)
  : result loc * heap :=
  if decide (vpath = EmptyString) then (Ok (_root self), h)
  else if negb create && negb (__contains__ h self vpath)
  then (Raise KeyError, h)
  else
    let '(n, h1) := walk h (_root self) (Str.split None vpath) in
    (Ok n, h1).

(** [_do_data_op] (lines 84-88).  [op] receives the list bound to the
    data key and answers with the list as it leaves it and with its
    return value. *)
Definition _do_data_op {A} (h : heap) (self : t) (vpath : string)
    (op : list value → list value * A) (create : bool) : result A * heap :=
  let '(dir_path, data_key) := _rsplit_vpath vpath in
  match _traverse h self dir_path create with
  | (Raise e, h1) => (Raise e, h1)
  | (Ok n, h1) =>
      let node_data := LogNode.data (node_at h1 n) in
      let found :=
        if create then Some (default [] (node_data !! data_key))
        else node_data !! data_key in
      match found with
      | None => (Raise KeyError, h1)
      | Some lst =>
          let '(lst', r) := op lst in
          (Ok r, set_data h1 n (<[data_key := lst']> node_data))
      end
  end.

(** [make_child] (lines 90-96) *)
Definition make_child (h : heap) (self : t) (vpath : string)
  : result t * heap :=
  match _traverse h self vpath true with
  | (Ok n, h1) => (Ok (mk n), h1)
  | (Raise e, h1) => (Raise e, h1)
  end.

(** [__getitem__] (lines 98-100): [lambda lst: lst] *)
Definition __getitem__ (h : heap) (self : t) (vpath : string)
  : result (list value) * heap :=
  _do_data_op h self vpath (λ lst, (lst, lst)) false.

(** [isinstance(x, list)] *)
Definition is_list (v : value) : bool :=
  match v with VList _ => true | _ => false end.

(** [get] (lines 102-108) *)
Definition get (h : heap) (self : t) (vpath : string) (default : value)
  : result value * heap :=
  if __contains__ h self vpath then
    match __getitem__ h self vpath with
    | (Ok lst, h1) =>
        let node_or_list := VList lst in
        if is_list node_or_list then (Ok node_or_list, h1)
        else (Ok default, h1)
    | (Raise e, h1) => (Raise e, h1)
    end
  else (Ok default, h).

(** [list.append(lst, val)] and [list.extend(lst, val)] *)
Definition list_append (val : value) (lst : list value) : list value * unit :=
  (lst ++ [val], tt).

Definition list_extend (val : value) (lst : list value) : list value * unit :=
  (lst ++ iter val, tt).

(** [_log_vpaths_vals] (lines 110-112), over the items of the dict in
    iteration order. *)
Fixpoint _log_vpaths_vals (h : heap) (self : t) (items : list (string * value))
  : result unit * heap :=
  match items with
  | [] => (Ok tt, h)
  | (vpath, val) :: rest =>
      match _do_data_op h self vpath
              (if is_iterable val then list_extend val else list_append val)
              true with
      | (Ok _, h1) => _log_vpaths_vals h1 self rest
      | (Raise e, h1) => (Raise e, h1)
      end
  end.

(** [log] (lines 114-131), applied to its positional arguments. *)
Definition log (h : heap) (self : t) (args : list value) : result unit * heap :=
  match args with
  | [a0] =>
      match a0 with
      | VDict items => _log_vpaths_vals h self items
      | _ => (Raise AttributeError, h)
      end
  | [a0; a1] =>
      match a0 with
      | VStr vpath => _log_vpaths_vals h self [(vpath, a1)]
      | VList _ | VDict _ => (Raise TypeError, h)
      | _ => (Raise AttributeError, h)
      end
  | _ => (Raise TypeError, h)
  end.

(** [clear] (lines 133-135) and [as_dict] (lines 137-139) *)
Definition clear (fuel : nat) (h : heap) (self : t) : result heap :=
  LogNodeOps.clear fuel h (_root self).

Definition as_dict (fuel : nat) (h : heap) (self : t)
  : result (gmap string nested) :=
  LogNodeOps.parse fuel h (_root self).

End Logger.

(** ** Relations between tables, used to state the properties *)

(** [h'] extends [h]: every node has kept its data and its children,
    and may have gained children under keys it lacked. *)
Definition extends (h h' : heap) : Prop :=
  ∀ l, LogNode.data (node_at h' l) = LogNode.data (node_at h l)
       ∧ LogNode.children (node_at h l) ⊆ LogNode.children (node_at h' l).

(** The keys a virtual path walks through: none for the empty path. *)
Definition path_keys (vpath : string) : list string :=
  if decide (vpath = EmptyString) then [] else Str.split None vpath.

(** The list bound to [vpath] the way [_do_data_op] addresses it, and
    the empty list when there is none. *)
Definition stored (h : heap) (self : Logger.t) (vpath : string) : list value :=
  let '(dir_path, data_key) := _rsplit_vpath vpath in
  match Logger.descend h (Logger._root self) (path_keys dir_path) with
  | Some n => default [] (LogNode.data (node_at h n) !! data_key)
  | None => []
  end.

(** What logging [val] adds to a list. *)
Definition logged (val : value) : list value :=
  if is_iterable val then iter val else [val].

(** The table one (path, value) pair of [_log_vpaths_vals] leaves
    behind: the directory is walked with creation and the value is
    appended or spliced in at the data key. *)
Definition log_one (h : heap) (self : Logger.t) (vpath : string) (val : value)
  : heap :=
  let '(dir_path, data_key) := _rsplit_vpath vpath in
  let '(n, h1) := Logger.walk h (Logger._root self) (path_keys dir_path) in
  let node_data := LogNode.data (node_at h1 n) in
  set_data h1 n
    (<[data_key := default [] (node_data !! data_key) ++ logged val]> node_data).

(** A path that does not consist of a separator followed by a bare key.
    For such a path [__contains__] walks through the keys of the
    directory [_rsplit_vpath] cuts off. *)
Definition regular (vpath : string) : Prop :=
  (_rsplit_vpath vpath).1 = EmptyString → Str.has_sep vpath = false.

(** A newly built logger on an empty table: [Logger()]. *)
Definition fresh_logger : Logger.t := (Logger.new ∅).1.
Definition fresh_table : heap := (Logger.new ∅).2.

(** The table after [log("v", 5)] on a newly built logger, and the table
    after [make_child("child")] on a newly built logger. *)
Definition table_with_data : heap :=
  (Logger.log fresh_table fresh_logger [VStr "v"; VInt 5]).2.

Definition table_with_child : heap :=
  (Logger.make_child fresh_table fresh_logger "child").2.

(** The handle [make_child("child")] returns on a newly built logger. *)
Definition fresh_child_logger : Logger.t := Logger.mk 2%positive.

(** ** Notions used to state the properties of [parse] and [clear] *)

(** [x] is [l] or one of its descendants. *)
Definition reach (h : heap) (l x : loc) : Prop :=
  ∃ keys, Logger.descend h l keys = Some x.

(** One turn of the loop of [parse], over the function [g] that parses a
    child. *)
Definition parse_step (g : loc → result (gmap string nested))
    (key : string) (child : loc) (acc : result (gmap string nested))
  : result (gmap string nested) :=
  result ← acc;
  parsed ← g child;
  Ok (if truthy parsed then <[key := NDict parsed]> result else result).

(** What the loop of [parse] leaves under [key]: the export of the child
    bound to [key] if it is not empty, and what [base] held otherwise. *)
Definition export_lookup (g : loc → result (gmap string nested))
    (base : gmap string nested) (cs : gmap string loc) (key : string)
  : option nested :=
  match cs !! key with
  | Some c =>
      match g c with
      | Ok mc => if truthy mc then Some (NDict mc) else base !! key
      | Raise _ => base !! key
      end
  | None => base !! key
  end.

(** [parse] returns [m] on [l] once the recursion is allowed to go deep
    enough, and [clear] returns [h']. *)
Definition parses (h : heap) (l : loc) (m : gmap string nested) : Prop :=
  ∃ depth, ∀ fuel, depth ≤ fuel → LogNodeOps.parse fuel h l = Ok m.

Definition clears (h : heap) (l : loc) (h' : heap) : Prop :=
  ∃ depth, ∀ fuel, depth ≤ fuel → LogNodeOps.clear fuel h l = Ok h'.

(** The table is a forest: every child is allocated, and [addr] labels
    each child with the label of its parent followed by its key, so no
    node has two parents and no node is its own descendant.  Every table
    the operations of [Logger] build is one (see [built_tree_shaped]). *)
Definition tree_shaped (h : heap) (addr : loc → list string) : Prop :=
  map_Forall (λ l node,
    map_Forall (λ key c, c ∈ dom h ∧ addr c = addr l ++ [key])
               (LogNode.children node)) h.

(** The tables the operations of the logger can build, starting from
    the empty table, on any handles. *)
Inductive built : heap → Prop :=
  | built_empty : built ∅
  | built_new h : built h → built (Logger.new h).2
  | built_traverse h self vpath create :
      built h → built (Logger._traverse h self vpath create).2
  | built_make_child h self vpath :
      built h → built (Logger.make_child h self vpath).2
  | built_getitem h self vpath :
      built h → built (Logger.__getitem__ h self vpath).2
  | built_get h self vpath default :
      built h → built (Logger.get h self vpath default).2
  | built_log h self args : built h → built (Logger.log h self args).2
  | built_clear fuel h self h' :
      built h → Logger.clear fuel h self = Ok h' → built h'.

#[global] Instance tree_shaped_dec (h : heap) (addr : loc → list string) :
  Decision (tree_shaped h addr).
Proof. unfold tree_shaped. apply _. Defined.

(** The table after [log("v", 5)] and [log("v/b", 2)] on a newly built
    logger: the root binds ["v"] to a list and to a child.  Its nodes
    are labelled by the path that leads to them. *)
Definition table_with_collision : heap :=
  (Logger.log table_with_data fresh_logger [VStr "v/b"; VInt 2]).2.

Definition addr_of_collision (l : loc) : list string :=
  if decide (l = Logger._root fresh_logger) then [] else ["v"].

(** One turn of the loop of [clear], over the function [g] that clears
    a child. *)
Definition clear_step (g : heap → loc → result heap)
    (key : string) (child : loc) (acc : result heap) : result heap :=
  h1 ← acc; g h1 child.

(** What [clear] on [l] is to make of [h]: the hierarchy is kept, the
    data of [l] and of its descendants is empty, and every other node
    is as it was. *)
Definition cleared (h : heap) (l : loc) (h' : heap) : Prop :=
  (∀ x, LogNode.children (node_at h' x) = LogNode.children (node_at h x))
  ∧ (∀ x, reach h l x → LogNode.data (node_at h' x) = ∅)
  ∧ (∀ x, reach h l x
          ∨ LogNode.data (node_at h' x) = LogNode.data (node_at h x)).

(** The table after [log({"a/v": 1, "b/v": [2, 3]})] on a newly built
    logger, and the labels of its three nodes. *)
Definition table_with_branches : heap :=
  (Logger.log fresh_table fresh_logger
     [VDict [("a/v", VInt 1); ("b/v", VList [VInt 2; VInt 3])]]).2.

Definition addr_of_branches (l : loc) : list string :=
  if decide (l = 1%positive) then []
  else if decide (l = 2%positive) then ["a"] else ["b"].

(** ** The nested mapping the logged paths imply *)

(** [log_one] from a node rather than from a logger: walk [keys] with
    creation, then add [vals] to the list under [key]. *)
Definition log_at (h : heap) (l : loc) (keys : list string) (key : string)
    (vals : list value) : heap :=
  let '(n, h1) := Logger.walk h l keys in
  let node_data := LogNode.data (node_at h1 n) in
  set_data h1 n (<[key := default [] (node_data !! key) ++ vals]> node_data).

(** The tables a sequence of [log(path, value)] calls goes through. *)
Definition run_logs (h : heap) (self : Logger.t) (logs : list (string * value))
  : heap :=
  foldl (λ h1 kv, (Logger.log h1 self [VStr kv.1; kv.2]).2) h logs.

(** Following the words of the specification, not the code: the nested
    structure implied by a logged path.  The segments before the last
    are nested mappings, the last segment is bound to the list of the
    values logged there, in logging order. *)
Fixpoint spec_nest_insert (keys : list string) (key : string)
    (vals : list value) (m : gmap string nested) : gmap string nested :=
  match keys with
  | [] =>
      <[key := NList (match m !! key with
                      | Some (NList l) => l ++ vals
                      | _ => vals
                      end)]> m
  | k :: rest =>
      <[k := NDict (spec_nest_insert rest key vals
                      (match m !! k with
                       | Some (NDict m') => m'
                       | _ => ∅
                       end))]> m
  end.

Definition spec_implied_step (m : gmap string nested) (kv : string * value)
  : gmap string nested :=
  let segments := Str.split None kv.1 in
  spec_nest_insert (removelast segments) (List.last segments EmptyString)
                   (logged kv.2) m.

Definition spec_implied (logs : list (string * value)) : gmap string nested :=
  foldl spec_implied_step ∅ logs.

(** The position [keys] of a nested mapping holds a mapping. *)
Fixpoint dict_at (m : gmap string nested) (keys : list string) : Prop :=
  match keys with
  | [] => True
  | k :: rest =>
      match m !! k with
      | Some (NDict m') => dict_at m' rest
      | _ => False
      end
  end.

(** No logged path runs through another logged path: the segments of
    one are never a proper prefix of the segments of another. *)
Definition collision_free (logs : list (string * value)) : Prop :=
  Forall (λ p, Forall (λ q,
    Str.split None p `prefix_of` Str.split None q →
    Str.split None p = Str.split None q) logs.*1) logs.*1.

Definition all_regular (logs : list (string * value)) : Prop :=
  Forall (λ kv, regular kv.1) logs.

(** The list a nested mapping holds at the end of a path: [keys] lead
    through nested mappings and [key] is bound to a list. *)
Fixpoint list_at (m : gmap string nested) (keys : list string) (key : string)
  : option (list value) :=
  match keys with
  | [] => match m !! key with Some (NList l) => Some l | _ => None end
  | k :: rest =>
      match m !! k with
      | Some (NDict m') => list_at m' rest key
      | _ => None
      end
  end.

(** Everything logged under the path whose segments are [segments], in
    logging order. *)
Definition values_at (segments : list string) (logs : list (string * value))
  : list value :=
  concat ((λ kv, if decide (Str.split None kv.1 = segments)
                 then logged kv.2 else []) <$> logs).

(** The nested mapping [m] gives back, at every logged path, the values
    logged there. *)
Definition reproduces (logs : list (string * value)) (m : gmap string nested)
  : Prop :=
  ∀ p, p ∈ logs.*1 →
       list_at m (removelast (Str.split None p))
                 (List.last (Str.split None p) EmptyString)
       = Some (values_at (Str.split None p) logs).

(** The logs of the scenario of the specification, and two logs of which
    the first path is a directory of the second. *)
Definition logs_of_scenario : list (string * value) :=
  [("a/v", VInt 1); ("b/v", VList [VInt 2; VInt 3])].

Definition logs_with_collision : list (string * value) :=
  [("v", VInt 5); ("v/b", VInt 2)].

(** ** Notions used by the further properties *)

(** The place a path addresses, the way [_do_data_op] cuts it: the keys
    of the directory, then the data key. *)
Definition address (vpath : string) : list string :=
  path_keys (_rsplit_vpath vpath).1 ++ [(_rsplit_vpath vpath).2].

(** [x] lies on a cycle of the table, or above one: some walk from [x]
    reaches a node [l] that is below one of its own children. *)
Definition above_cycle (h : heap) (x : loc) : Prop :=
  ∃ l key c, reach h x l
             ∧ LogNode.children (node_at h l) !! key = Some c
             ∧ reach h c l.

(** The nodes below [o] are allocated and none of them is below [r]. *)
Definition separate (h : heap) (o r : loc) : Prop :=
  ∀ x, reach h o x → x ∈ dom h ∧ ¬ reach h r x.

(** A node that is its own child under ["x"], as
    [n = LogNode(); n.children['x'] = n] builds it. *)
Definition table_with_cycle : heap :=
  {[ 1%positive := LogNode.mk ∅ {[ "x" := 1%positive ]} ]}.

(** * Properties *)

(** ** Path splitting *)

Example split_vpath_doc :
  _split_vpath EmptyString = (EmptyString, EmptyString) ∧
  _split_vpath "foo" = ("foo", EmptyString) ∧
  _split_vpath "foo/bar/baz" = ("foo", "bar/baz") ∧
  _split_vpath "asdf/qwer" = ("asdf", "qwer").
Proof. repeat split; reflexivity. Qed.

Example rsplit_vpath_doc :
  _rsplit_vpath EmptyString = (EmptyString, EmptyString) ∧
  _rsplit_vpath "foo" = (EmptyString, "foo") ∧
  _rsplit_vpath "foo/bar/baz" = ("foo/bar", "baz") ∧
  _rsplit_vpath "asdf/qwer" = ("asdf", "qwer").
Proof. repeat split; reflexivity. Qed.

Section strings.

Lemma append_cons (c : Ascii.ascii) (a b : string) :
  String c a +:+ b = String c (a +:+ b).
Proof. reflexivity. Qed.

Lemma append_assoc (a b c : string) : (a +:+ b) +:+ c = a +:+ (b +:+ c).
Proof.
  induction a as [|x a IH]; [done|].
  by rewrite !append_cons, IH.
Qed.

Lemma append_empty_r (a : string) : a +:+ EmptyString = a.
Proof. induction a as [|x a IH]; [done | by rewrite append_cons, IH]. Qed.

Lemma rev_app_append (s t : string) :
  String.rev_app s t = String.rev s +:+ t.
Proof.
  unfold String.rev. revert t.
  induction s as [|c s IH]; intros t; simpl; [done|].
  rewrite (IH (String c t)), (IH (String c EmptyString)).
  by rewrite append_assoc.
Qed.

Lemma rev_cons (c : Ascii.ascii) (s : string) :
  String.rev (String c s) = String.rev s +:+ String c EmptyString.
Proof. unfold String.rev at 1. simpl. apply rev_app_append. Qed.

Lemma rev_append (s t : string) :
  String.rev (s +:+ t) = String.rev t +:+ String.rev s.
Proof.
  induction s as [|c s IH].
  - by rewrite append_empty_r.
  - by rewrite append_cons, !rev_cons, IH, append_assoc.
Qed.

Lemma rev_involutive (s : string) : String.rev (String.rev s) = s.
Proof.
  induction s as [|c s IH]; [done|].
  by rewrite rev_cons, rev_append, IH.
Qed.

Lemma has_sep_append (s t : string) :
  Str.has_sep (s +:+ t) = Str.has_sep s || Str.has_sep t.
Proof.
  induction s as [|c s IH]; [done|].
  rewrite append_cons. simpl. by rewrite IH, orb_assoc.
Qed.

Lemma has_sep_rev (s : string) : Str.has_sep (String.rev s) = Str.has_sep s.
Proof.
  induction s as [|c s IH]; [done|].
  rewrite rev_cons, has_sep_append, IH. simpl.
  by rewrite orb_false_r, orb_comm.
Qed.

(** Without a separator there is nothing to cut, whatever [maxsplit]. *)
Lemma split_no_sep (m : option nat) (s : string) :
  Str.has_sep s = false → Str.split m s = [s].
Proof.
  induction s as [|c s IH]; simpl; [done|].
  intros [Hc Hs]%orb_false_iff. rewrite Hc, (IH Hs). done.
Qed.

Lemma split_zero (s : string) : Str.split (Some 0) s = [s].
Proof.
  induction s as [|c s IH]; simpl; [done|].
  destruct (Ascii.eqb c Str.sep); [done | by rewrite IH].
Qed.

(** With a separator, one cut from the left gives two pieces that join
    back to the string, and the first piece holds no separator. *)
Lemma split_one_sep (s : string) :
  Str.has_sep s = true →
  ∃ a b, Str.split (Some 1) s = [a; b] ∧ Str.join2 a b = s
         ∧ Str.has_sep a = false.
Proof.
  induction s as [|c s IH]; simpl; [done|].
  destruct (Ascii.eqb c Str.sep) eqn:Hc; simpl.
  - intros _. apply Ascii.eqb_eq in Hc as ->.
    exists EmptyString, s. by rewrite split_zero.
  - intros (a & b & -> & <- & Ha)%IH. exists (String c a), b.
    simpl. by rewrite Hc, Ha.
Qed.

Lemma rsplit_no_sep (s : string) :
  Str.has_sep s = false → Str.rsplit (Some 1) s = [s].
Proof.
  intros Hs. unfold Str.rsplit.
  rewrite split_no_sep by (by rewrite has_sep_rev). simpl.
  by rewrite rev_involutive.
Qed.

Lemma rsplit_one_sep (s : string) :
  Str.has_sep s = true →
  ∃ a b, Str.rsplit (Some 1) s = [a; b] ∧ Str.join2 a b = s
         ∧ Str.has_sep b = false.
Proof.
  intros Hs. unfold Str.rsplit.
  destruct (split_one_sep (String.rev s)) as (a & b & -> & Hab & Ha).
  { by rewrite has_sep_rev. }
  exists (String.rev b), (String.rev a). split; [done|]. split.
  - rewrite <-(rev_involutive s), <-Hab. unfold Str.join2.
    change (String Str.sep b) with (String Str.sep EmptyString +:+ b).
    rewrite !rev_append. by rewrite append_assoc.
  - by rewrite has_sep_rev.
Qed.

End strings.

(** C8.  A path without a separator is split into itself and the empty
    string ([_split_vpath]) or the empty string and itself
    ([_rsplit_vpath]); a path with a separator is split in two pieces
    that, joined by one ['/'], give the path back.  Both functions
    return a pair in every case. *)
Theorem split_vpath_lossless (p : string) :
  (Str.has_sep p = false →
     _split_vpath p = (p, EmptyString) ∧ _rsplit_vpath p = (EmptyString, p))
  ∧ (Str.has_sep p = true →
     Str.join2 (_split_vpath p).1 (_split_vpath p).2 = p
     ∧ Str.join2 (_rsplit_vpath p).1 (_rsplit_vpath p).2 = p).
Proof.
  split; intros Hp.
  - unfold _split_vpath, _rsplit_vpath.
    by rewrite split_no_sep, rsplit_no_sep.
  - unfold _split_vpath, _rsplit_vpath.
    destruct (split_one_sep p Hp) as (a & b & -> & Hab & _).
    destruct (rsplit_one_sep p Hp) as (a' & b' & -> & Hab' & _).
    done.
Qed.

Lemma split_vpath_lossless_witness :
  (_split_vpath "foo" = ("foo", EmptyString)
   ∧ _rsplit_vpath "foo" = (EmptyString, "foo"))
  ∧ (Str.join2 (_split_vpath "foo/bar/baz").1 (_split_vpath "foo/bar/baz").2
       = "foo/bar/baz"
     ∧ Str.join2 (_rsplit_vpath "foo/bar/baz").1 (_rsplit_vpath "foo/bar/baz").2
       = "foo/bar/baz").
Proof.
  split.
  - apply (split_vpath_lossless "foo"). reflexivity.
  - apply (split_vpath_lossless "foo/bar/baz"). reflexivity.
Defined.

(** ** The table of nodes *)

Section table.

Implicit Types (h : heap) (l c n : loc) (key : string) (keys : list string).

Lemma node_at_insert h l l' (x : LogNode.t) :
  node_at (<[l := x]> h) l' = if decide (l = l') then x else node_at h l'.
Proof.
  unfold node_at. rewrite lookup_insert. by case_decide.
Qed.

Lemma node_at_insert_eq h l (x : LogNode.t) : node_at (<[l := x]> h) l = x.
Proof. rewrite node_at_insert. by case_decide. Qed.

Lemma node_at_insert_ne h l l' (x : LogNode.t) :
  l ≠ l' → node_at (<[l := x]> h) l' = node_at h l'.
Proof. intros. rewrite node_at_insert. by case_decide. Qed.

Lemma node_at_fresh h l : l ∉ dom h → node_at h l = LogNode.empty.
Proof. intros ?%not_elem_of_dom. unfold node_at. by simplify_option_eq. Qed.

Lemma new_loc_ne h l : new_loc h l ≠ l.
Proof.
  unfold new_loc. intros Heq.
  pose proof (is_fresh ({[l]} ∪ dom h)) as Hf. rewrite Heq in Hf. set_solver.
Qed.

Lemma new_loc_fresh h l : new_loc h l ∉ dom h.
Proof.
  unfold new_loc. pose proof (is_fresh ({[l]} ∪ dom h)). set_solver.
Qed.

Lemma extends_refl h : extends h h.
Proof. by intros l. Qed.

Lemma extends_trans h1 h2 h3 : extends h1 h2 → extends h2 h3 → extends h1 h3.
Proof.
  intros H12 H23 l. destruct (H12 l) as [E1 ?], (H23 l) as [E2 ?].
  split; [by rewrite E2 | by etrans].
Qed.

Lemma extends_child h h' l key c :
  extends h h' →
  LogNode.children (node_at h l) !! key = Some c →
  LogNode.children (node_at h' l) !! key = Some c.
Proof. intros Hext Hc. destruct (Hext l) as [_ Hsub]. by eapply lookup_weaken. Qed.

(** [setdefault] answers with the child now bound to the key; it leaves
    the table alone when the key was bound, and only extends it
    otherwise. *)
Lemma setdefault_child_bound h l key c :
  LogNode.children (node_at h l) !! key = Some c →
  setdefault_child h l key = (c, h).
Proof. unfold setdefault_child. by intros ->. Qed.

Lemma setdefault_child_spec h l key c h' :
  setdefault_child h l key = (c, h') →
  LogNode.children (node_at h' l) !! key = Some c ∧ extends h h'.
Proof.
  unfold setdefault_child.
  destruct (LogNode.children (node_at h l) !! key) as [c0|] eqn:Hc.
  - intros [= <- <-]. split; [done | apply extends_refl].
  - intros [= <- <-]. unfold set_children.
    pose proof (new_loc_ne h l) as Hne. pose proof (new_loc_fresh h l) as Hfr.
    rewrite (node_at_insert_ne h (new_loc h l) l) by done. split.
    + rewrite node_at_insert_eq. simpl. by rewrite lookup_insert_eq.
    + intros x. rewrite !node_at_insert. repeat case_decide; subst; simpl.
      * split; [done | by apply insert_subseteq].
      * by rewrite (node_at_fresh h (new_loc h l)).
      * done.
Qed.

Lemma descend_app h l keys1 keys2 :
  Logger.descend h l (keys1 ++ keys2)
  = Logger.descend h l keys1 ≫= λ m, Logger.descend h m keys2.
Proof.
  revert l. induction keys1 as [|key keys1 IH]; intros l; simpl; [done|].
  by destruct (LogNode.children (node_at h l) !! key).
Qed.

Lemma descend_extends h h' l keys n :
  extends h h' →
  Logger.descend h l keys = Some n → Logger.descend h' l keys = Some n.
Proof.
  intros Hext. revert l. induction keys as [|key keys IH]; intros l; simpl; [done|].
  destruct (LogNode.children (node_at h l) !! key) as [c|] eqn:Hc; [|done].
  rewrite (extends_child _ _ _ _ _ Hext Hc). apply IH.
Qed.

(** The loop of [_traverse] ends on the node the keys now lead to, and
    only extends the table. *)
Lemma walk_spec h l keys n h' :
  Logger.walk h l keys = (n, h') →
  Logger.descend h' l keys = Some n ∧ extends h h'.
Proof.
  revert h l. induction keys as [|key keys IH]; intros h l; simpl.
  - intros [= <- <-]. split; [done | apply extends_refl].
  - destruct (setdefault_child h l key) as [c h1] eqn:Hsd.
    intros Hw. destruct (setdefault_child_spec _ _ _ _ _ Hsd) as [Hc H1].
    destruct (IH _ _ Hw) as [Hd H2]. split.
    + by rewrite (extends_child _ _ _ _ _ H2 Hc).
    + by eapply extends_trans.
Qed.

(** Where the keys already lead to a node, the loop returns it and
    changes nothing. *)
Lemma walk_descend h l keys n :
  Logger.descend h l keys = Some n → Logger.walk h l keys = (n, h).
Proof.
  revert l. induction keys as [|key keys IH]; intros l; simpl.
  - by intros [= ->].
  - destruct (LogNode.children (node_at h l) !! key) as [c|] eqn:Hc; [|done].
    intros Hd. rewrite (setdefault_child_bound _ _ _ _ Hc). by apply IH.
Qed.

End table.

(** ** Paths and the keys they walk through *)

Section paths.

Lemma split_all_cons (s : string) : ∃ k ks, Str.split None s = k :: ks.
Proof.
  destruct s as [|c s]; simpl; [by eauto|].
  destruct (Ascii.eqb c Str.sep); [by eauto|].
  destruct (Str.split None s); eauto.
Qed.

Lemma split_all_join (a b : string) :
  Str.split None (Str.join2 a b) = Str.split None a ++ Str.split None b.
Proof.
  unfold Str.join2. induction a as [|c a IH].
  - done.
  - rewrite append_cons. simpl. destruct (Ascii.eqb c Str.sep).
    + by rewrite IH.
    + rewrite IH. by destruct (split_all_cons a) as (k & ks & ->).
Qed.

Lemma split_one_join (a b : string) :
  Str.has_sep a = false → Str.split (Some 1) (Str.join2 a b) = [a; b].
Proof.
  unfold Str.join2. induction a as [|c a IH]; simpl.
  - intros _. by rewrite split_zero.
  - intros [Hc Ha]%orb_false_iff. rewrite ?append_cons. simpl.
    by rewrite Hc, (IH Ha).
Qed.

Lemma rev_join2 (a b : string) :
  String.rev (Str.join2 a b) = Str.join2 (String.rev b) (String.rev a).
Proof.
  unfold Str.join2.
  change (String Str.sep b) with (String Str.sep EmptyString +:+ b).
  by rewrite !rev_append, append_assoc.
Qed.

(** Joining a directory and a key that holds no separator is undone by
    [_rsplit_vpath]. *)
Lemma rsplit_vpath_join (dir key : string) :
  Str.has_sep key = false → _rsplit_vpath (Str.join2 dir key) = (dir, key).
Proof.
  intros Hk. unfold _rsplit_vpath, Str.rsplit.
  rewrite rev_join2, split_one_join by (by rewrite has_sep_rev). simpl.
  by rewrite !rev_involutive.
Qed.

Lemma rsplit_vpath_no_sep (p : string) :
  Str.has_sep p = false → _rsplit_vpath p = (EmptyString, p).
Proof. intros Hp. unfold _rsplit_vpath. by rewrite rsplit_no_sep. Qed.

(** Every path is either a bare key, or a directory and a bare key
    joined by a separator. *)
Lemma rsplit_vpath_cases (p : string) :
  (Str.has_sep p = false ∧ _rsplit_vpath p = (EmptyString, p))
  ∨ (∃ dir key, p = Str.join2 dir key ∧ Str.has_sep key = false
                ∧ _rsplit_vpath p = (dir, key)).
Proof.
  destruct (Str.has_sep p) eqn:Hp.
  - right. destruct (rsplit_one_sep p Hp) as (a & b & Hr & Hab & Hb).
    exists a, b. split; [done|]. split; [done|].
    unfold _rsplit_vpath. by rewrite Hr.
  - left. split; [done | by apply rsplit_vpath_no_sep].
Qed.

Lemma join2_nonempty (a b : string) : Str.join2 a b ≠ EmptyString.
Proof. by destruct a. Qed.

Lemma path_keys_join (dir key : string) :
  Str.has_sep key = false →
  path_keys (Str.join2 dir key) = Str.split None dir ++ [key].
Proof.
  intros Hk. unfold path_keys.
  rewrite decide_False by apply join2_nonempty.
  by rewrite split_all_join, (split_no_sep None key).
Qed.

End paths.

(** ** Traversal, reading and logging *)

Section logger.

Implicit Types (h : heap) (self : Logger.t) (l c n : loc).
Implicit Types (p dir key : string) (keys : list string).

Lemma node_eta (x : LogNode.t) :
  LogNode.mk (LogNode.data x) (LogNode.children x) = x.
Proof. by destruct x. Qed.

Lemma children_set_data h n d l :
  LogNode.children (node_at (set_data h n d) l) = LogNode.children (node_at h l).
Proof.
  unfold set_data. rewrite node_at_insert. by case_decide; subst.
Qed.

Lemma data_set_data_eq h n d : LogNode.data (node_at (set_data h n d) n) = d.
Proof. unfold set_data. by rewrite node_at_insert_eq. Qed.

Lemma data_set_data_ne h n d l :
  n ≠ l → LogNode.data (node_at (set_data h n d) l) = LogNode.data (node_at h l).
Proof. intros. unfold set_data. by rewrite node_at_insert_ne. Qed.

Lemma set_data_id h n key (lst : list value) :
  LogNode.data (node_at h n) !! key = Some lst →
  set_data h n (<[key := lst]> (LogNode.data (node_at h n))) = h.
Proof.
  intros Hk. rewrite insert_id by done. unfold set_data.
  rewrite node_eta. apply insert_id.
  unfold node_at in *. by destruct (h !! n).
Qed.

Lemma descend_same_children h h' l keys :
  (∀ x, LogNode.children (node_at h' x) = LogNode.children (node_at h x)) →
  Logger.descend h' l keys = Logger.descend h l keys.
Proof.
  intros Hc. revert l. induction keys as [|key keys IH]; intros l; simpl; [done|].
  rewrite Hc. by destruct (LogNode.children (node_at h l) !! key).
Qed.

Lemma descend_set_data h n d l keys :
  Logger.descend (set_data h n d) l keys = Logger.descend h l keys.
Proof. apply descend_same_children. intros x. apply children_set_data. Qed.

Lemma path_keys_empty : path_keys EmptyString = [].
Proof. done. Qed.

Lemma path_keys_nonempty p : p ≠ EmptyString → path_keys p = Str.split None p.
Proof. intros. unfold path_keys. by rewrite decide_False. Qed.

Lemma descend_singleton h l key :
  Logger.descend h l [key] = LogNode.children (node_at h l) !! key.
Proof. simpl. by destruct (LogNode.children (node_at h l) !! key). Qed.

(** A path whose keys all lead through [children] is contained. *)
Lemma contains_descend h self p n :
  Logger.descend h (Logger._root self) (path_keys p) = Some n →
  Logger.__contains__ h self p = true.
Proof.
  unfold Logger.__contains__, path_keys. case_decide; [done|].
  destruct (split_all_cons p) as (k & ks & Hks). rewrite Hks.
  rewrite (app_removelast_last EmptyString (l := k :: ks)) at 1 by done.
  rewrite descend_app. intros Hd.
  destruct (Logger.descend h _ (removelast (k :: ks))) as [m|]; [|done].
  change (Logger.descend h m [List.last (k :: ks) EmptyString] = Some n) in Hd.
  rewrite descend_singleton in Hd.
  rewrite bool_decide_true; [done | by eexists].
Qed.

(** With creation, [_traverse] is its loop over the keys of the path. *)
Lemma traverse_create h self p :
  Logger._traverse h self p true
  = (Ok (Logger.walk h (Logger._root self) (path_keys p)).1,
     (Logger.walk h (Logger._root self) (path_keys p)).2).
Proof.
  unfold Logger._traverse, path_keys. case_decide; [done|]. simpl.
  by destruct (Logger.walk _ _ _).
Qed.

(** On a path that leads to a node, [_traverse] returns that node and
    leaves the table as it is, with or without creation. *)
Lemma traverse_existing h self p create n :
  Logger.descend h (Logger._root self) (path_keys p) = Some n →
  Logger._traverse h self p create = (Ok n, h).
Proof.
  intros Hd. unfold Logger._traverse.
  rewrite (contains_descend _ _ _ _ Hd), andb_false_r.
  revert Hd. unfold path_keys. case_decide.
  - by intros [= ->].
  - intros Hd. by rewrite (walk_descend _ _ _ _ Hd).
Qed.

Lemma do_data_op_log h self p (val : value) :
  Logger._do_data_op h self p
    (if is_iterable val then Logger.list_extend val else Logger.list_append val)
    true
  = (Ok tt, log_one h self p val).
Proof.
  unfold Logger._do_data_op, log_one.
  destruct (_rsplit_vpath p) as [dir key]. rewrite traverse_create.
  destruct (Logger.walk _ _ _) as [n h1]. simpl.
  unfold logged. by destruct (is_iterable val).
Qed.

Lemma log_vpaths_vals_spec h self (items : list (string * value)) :
  Logger._log_vpaths_vals h self items
  = (Ok tt, foldl (λ h1 kv, log_one h1 self kv.1 kv.2) h items).
Proof.
  revert h. induction items as [|[vpath val] items IH]; intros h; simpl; [done|].
  by rewrite do_data_op_log, IH.
Qed.

Lemma log_path_value h self p (val : value) :
  Logger.log h self [VStr p; val] = (Ok tt, log_one h self p val).
Proof. unfold Logger.log. by rewrite log_vpaths_vals_spec. Qed.

(** Reading a list that is there: [__getitem__] returns it and changes
    nothing, and so does [get] on a regular path. *)
Lemma getitem_found h self p dir key n (lst : list value) :
  _rsplit_vpath p = (dir, key) →
  Logger.descend h (Logger._root self) (path_keys dir) = Some n →
  LogNode.data (node_at h n) !! key = Some lst →
  Logger.__getitem__ h self p = (Ok lst, h).
Proof.
  intros Hp Hd Hk. unfold Logger.__getitem__, Logger._do_data_op.
  rewrite Hp, (traverse_existing _ _ _ _ _ Hd). simpl. rewrite Hk.
  by rewrite set_data_id.
Qed.

Lemma contains_found h self p dir key n (lst : list value) :
  regular p →
  _rsplit_vpath p = (dir, key) →
  Logger.descend h (Logger._root self) (path_keys dir) = Some n →
  LogNode.data (node_at h n) !! key = Some lst →
  Logger.__contains__ h self p = true.
Proof.
  intros Hreg Hp Hd Hk. unfold regular in Hreg. rewrite Hp in Hreg.
  unfold Logger.__contains__. case_decide; [done|].
  assert (Str.split None p = path_keys dir ++ [key]) as ->.
  { destruct (rsplit_vpath_cases p) as [[Hs E]|(d & k & -> & Hk' & E)].
    - rewrite E in Hp. injection Hp as <- <-.
      by rewrite split_no_sep.
    - rewrite E in Hp. injection Hp as <- <-.
      rewrite split_all_join, (split_no_sep None k) by done.
      unfold path_keys. case_decide as Hd'; [|done]. subst d.
      by specialize (Hreg eq_refl). }
  rewrite removelast_last, last_last, Hd.
  rewrite (bool_decide_true (is_Some (LogNode.data _ !! _))) by (by eexists).
  apply orb_true_r.
Qed.

Lemma get_found h self p dir key n (lst : list value) (d : value) :
  regular p →
  _rsplit_vpath p = (dir, key) →
  Logger.descend h (Logger._root self) (path_keys dir) = Some n →
  LogNode.data (node_at h n) !! key = Some lst →
  Logger.get h self p d = (Ok (VList lst), h).
Proof.
  intros Hreg Hp Hd Hk. unfold Logger.get.
  rewrite (contains_found _ _ _ _ _ _ _ Hreg Hp Hd Hk).
  by rewrite (getitem_found _ _ _ _ _ _ _ Hp Hd Hk).
Qed.

End logger.

(** ** What one logged value does to the stored list *)

Section log_one.

Implicit Types (h : heap) (self : Logger.t) (l c n : loc).
Implicit Types (p dir key : string) (keys : list string).

Lemma setdefault_child_new h l key :
  LogNode.children (node_at h l) !! key = None →
  node_at (setdefault_child h l key).2 (setdefault_child h l key).1
  = LogNode.empty.
Proof.
  intros Hc. unfold setdefault_child. rewrite Hc. simpl. unfold set_children.
  rewrite node_at_insert_ne by (by intros E; apply (new_loc_ne h l)).
  by rewrite node_at_insert_eq.
Qed.

(** Below a node that was never written to, the loop of [_traverse]
    ends on a node without data. *)
Lemma walk_from_blank h l keys n h' :
  node_at h l = LogNode.empty →
  Logger.walk h l keys = (n, h') →
  LogNode.data (node_at h' n) = ∅.
Proof.
  revert h l. induction keys as [|key keys IH]; intros h l Hl; simpl.
  - intros [= <- <-]. by rewrite Hl.
  - assert (LogNode.children (node_at h l) !! key = None) as Hc
      by (by rewrite Hl).
    pose proof (setdefault_child_new _ _ _ Hc) as Hnew.
    destruct (setdefault_child h l key) as [c h1]. by apply IH.
Qed.

(** Where the keys did not lead to a node, the node the loop ends on is
    new and holds no data. *)
Lemma walk_new h l keys n h' :
  Logger.descend h l keys = None →
  Logger.walk h l keys = (n, h') →
  LogNode.data (node_at h' n) = ∅.
Proof.
  revert h l. induction keys as [|key keys IH]; intros h l; simpl; [done|].
  destruct (LogNode.children (node_at h l) !! key) as [c|] eqn:Hc.
  - rewrite (setdefault_child_bound _ _ _ _ Hc). apply IH.
  - intros _. pose proof (setdefault_child_new _ _ _ Hc) as Hnew.
    destruct (setdefault_child h l key) as [c h1].
    by apply walk_from_blank.
Qed.

(** After [log_one], the directory of the path leads to a node whose
    data key is bound to the former list followed by what was logged. *)
Lemma log_one_lookup h self p dir key (val : value) :
  _rsplit_vpath p = (dir, key) →
  ∃ n, Logger.descend (log_one h self p val) (Logger._root self) (path_keys dir)
       = Some n
     ∧ LogNode.data (node_at (log_one h self p val) n) !! key
       = Some (stored h self p ++ logged val).
Proof.
  intros Hp. unfold log_one, stored. rewrite Hp.
  destruct (Logger.walk h (Logger._root self) (path_keys dir)) as [n h1] eqn:Hw.
  exists n. destruct (walk_spec _ _ _ _ _ Hw) as [Hd Hext].
  rewrite descend_set_data, data_set_data_eq, lookup_insert_eq.
  split; [done|]. do 2 f_equal.
  destruct (Logger.descend h (Logger._root self) (path_keys dir)) as [n0|] eqn:Hd0.
  - rewrite (walk_descend _ _ _ _ Hd0) in Hw. by injection Hw as <- <-.
  - by rewrite (walk_new _ _ _ _ _ Hd0 Hw).
Qed.

Lemma stored_log_one h self p (val : value) :
  stored (log_one h self p val) self p = stored h self p ++ logged val.
Proof.
  destruct (_rsplit_vpath p) as [dir key] eqn:Hp.
  destruct (log_one_lookup h self p dir key val Hp) as (n & Hd & Hk).
  unfold stored at 1. by rewrite Hp, Hd, Hk.
Qed.

Lemma getitem_log_one h self p (val : value) :
  Logger.__getitem__ (log_one h self p val) self p
  = (Ok (stored h self p ++ logged val), log_one h self p val).
Proof.
  destruct (_rsplit_vpath p) as [dir key] eqn:Hp.
  destruct (log_one_lookup h self p dir key val Hp) as (n & Hd & Hk).
  by eapply getitem_found.
Qed.

Lemma get_log_one h self p (val d : value) :
  regular p →
  Logger.get (log_one h self p val) self p d
  = (Ok (VList (stored h self p ++ logged val)), log_one h self p val).
Proof.
  intros Hreg. destruct (_rsplit_vpath p) as [dir key] eqn:Hp.
  destruct (log_one_lookup h self p dir key val Hp) as (n & Hd & Hk).
  by eapply get_found.
Qed.

(** A handle on the node a path leads to addresses the same lists as
    the parent does through that path: both write to the same place. *)
Lemma log_one_alias h self p c key (val : value) :
  Logger.descend h (Logger._root self) (path_keys p) = Some c →
  Str.has_sep key = false →
  log_one h self (Str.join2 p key) val = log_one h (Logger.mk c) key val.
Proof.
  intros Hd Hk. unfold log_one.
  rewrite rsplit_vpath_join, rsplit_vpath_no_sep by done.
  by rewrite (walk_descend _ _ _ _ Hd).
Qed.

Lemma stored_alias h self p c key :
  Logger.descend h (Logger._root self) (path_keys p) = Some c →
  Str.has_sep key = false →
  stored h self (Str.join2 p key) = stored h (Logger.mk c) key.
Proof.
  intros Hd Hk. unfold stored.
  rewrite rsplit_vpath_join, rsplit_vpath_no_sep by done.
  by rewrite Hd.
Qed.

Lemma regular_no_sep p : Str.has_sep p = false → regular p.
Proof. by intros Hp _. Qed.

Lemma regular_join dir key :
  dir ≠ EmptyString → Str.has_sep key = false → regular (Str.join2 dir key).
Proof. intros Hd Hk. unfold regular. by rewrite rsplit_vpath_join. Qed.

End log_one.

(** ** Traversal with creation *)

(** C7.  Traversing a path with creation returns a node; traversing the
    same path with creation again returns that very node and leaves the
    table exactly as the first traversal left it.  The first traversal
    only extends the table: no existing child or data entry is
    overwritten. *)
Theorem traverse_create_idempotent (h : heap) (self : Logger.t) (p : string) :
  ∃ n h1,
    Logger._traverse h self p true = (Ok n, h1)
    ∧ Logger._traverse h1 self p true = (Ok n, h1)
    ∧ extends h h1.
Proof.
  rewrite traverse_create.
  destruct (Logger.walk h (Logger._root self) (path_keys p)) as [n h1] eqn:Hw.
  destruct (walk_spec _ _ _ _ _ Hw) as [Hd Hext].
  exists n, h1. split; [done|]. split; [|done].
  by apply traverse_existing.
Qed.

(** ** Appending and extending *)

(** C3, as the code has it.  Logging a value under a path leaves, at that
    path, the former list followed by the value itself when the value is
    not iterable, and by its elements when it is; a string is iterable,
    so it is spliced in character by character.  [__getitem__] reads
    that list back, and so does [get] on a regular path. *)
Theorem log_appends_or_extends
    (h : heap) (self : Logger.t) (p : string) (val d : value) :
  ∃ h1,
    Logger.log h self [VStr p; val] = (Ok tt, h1)
    ∧ Logger.__getitem__ h1 self p
      = (Ok (stored h self p ++ if is_iterable val then iter val else [val]),
         h1)
    ∧ (regular p →
       Logger.get h1 self p d
       = (Ok (VList (stored h self p
                     ++ if is_iterable val then iter val else [val])), h1)).
Proof.
  exists (log_one h self p val).
  split; [apply log_path_value|].
  split; [apply getitem_log_one | by apply get_log_one].
Qed.

(** The scenario of the specification, on a newly built logger:
    [log("v", 5)], then [get("v") == [5]]; [log("v", [6, 7])], then
    [get("v") == [5, 6, 7]]. *)
Lemma log_appends_or_extends_witness :
  regular "v"
  ∧ ∃ h1 h2,
      Logger.log fresh_table fresh_logger [VStr "v"; VInt 5] = (Ok tt, h1)
      ∧ Logger.get h1 fresh_logger "v" VNone = (Ok (VList [VInt 5]), h1)
      ∧ Logger.log h1 fresh_logger [VStr "v"; VList [VInt 6; VInt 7]]
        = (Ok tt, h2)
      ∧ Logger.get h2 fresh_logger "v" VNone
        = (Ok (VList [VInt 5; VInt 6; VInt 7]), h2).
Proof.
  assert (regular "v") as Hreg by (by apply regular_no_sep).
  split; [done|].
  destruct (log_appends_or_extends fresh_table fresh_logger
              "v" (VInt 5) VNone) as (h1 & Hl1 & _ & Hg1).
  destruct (log_appends_or_extends h1 fresh_logger
              "v" (VList [VInt 6; VInt 7]) VNone) as (h2 & Hl2 & _ & Hg2).
  exists h1, h2. split; [exact Hl1|]. split; [|split; [exact Hl2|]].
  - rewrite (Hg1 Hreg). vm_compute in Hl1. injection Hl1 as <-. reflexivity.
  - rewrite (Hg2 Hreg). vm_compute in Hl1. injection Hl1 as <-. reflexivity.
Defined.

(** The claim as the specification words it fails on a string: logged
    under a path, ["ab"] is not stored as one element. *)
Lemma log_string_is_spliced :
  let h1 := (Logger.log fresh_table fresh_logger [VStr "w"; VStr "ab"]).2 in
  Logger.get h1 fresh_logger "w" VNone = (Ok (VList [VStr "a"; VStr "b"]), h1)
  ∧ Logger.get h1 fresh_logger "w" VNone ≠ (Ok (VList [VStr "ab"]), h1).
Proof. vm_compute. split; [reflexivity | discriminate]. Qed.

(** ** Child loggers *)

Section aliasing.

Implicit Types (h : heap) (self : Logger.t) (c : loc) (p key : string).

Lemma make_child_spec h self p :
  ∃ c h1, Logger.make_child h self p = (Ok (Logger.mk c), h1)
          ∧ Logger.walk h (Logger._root self) (path_keys p) = (c, h1).
Proof.
  unfold Logger.make_child. rewrite traverse_create.
  destruct (Logger.walk _ _ _) as [c h1]. by exists c, h1.
Qed.

Lemma descend_log_one h self p (val : value) l keys n :
  Logger.descend h l keys = Some n →
  Logger.descend (log_one h self p val) l keys = Some n.
Proof.
  intros Hd. unfold log_one. destruct (_rsplit_vpath p) as [dir key].
  destruct (Logger.walk _ _ _) as [m h1] eqn:Hw.
  destruct (walk_spec _ _ _ _ _ Hw) as [_ Hext].
  rewrite descend_set_data. by eapply descend_extends.
Qed.

(** What is logged through the child under a bare key is read through
    the parent under the joined path. *)
Lemma child_write_parent_read h self p c key (val d : value) :
  p ≠ EmptyString → Str.has_sep key = false →
  Logger.descend h (Logger._root self) (path_keys p) = Some c →
  ∃ h1, Logger.log h (Logger.mk c) [VStr key; val] = (Ok tt, h1)
        ∧ Logger.get h1 self (Str.join2 p key) d
          = (Ok (VList (stored h (Logger.mk c) key ++ logged val)), h1).
Proof.
  intros Hp Hk Hd. exists (log_one h (Logger.mk c) key val).
  split; [apply log_path_value|].
  rewrite <-(log_one_alias h self p) by done.
  rewrite <-(stored_alias h self p) by done.
  apply get_log_one. by apply regular_join.
Qed.

(** What is logged through the parent under the joined path is read
    through the child under the bare key. *)
Lemma parent_write_child_read h self p c key (val d : value) :
  Str.has_sep key = false →
  Logger.descend h (Logger._root self) (path_keys p) = Some c →
  ∃ h1, Logger.log h self [VStr (Str.join2 p key); val] = (Ok tt, h1)
        ∧ Logger.get h1 (Logger.mk c) key d
          = (Ok (VList (stored h (Logger.mk c) key ++ logged val)), h1).
Proof.
  intros Hk Hd. exists (log_one h self (Str.join2 p key) val).
  split; [apply log_path_value|].
  rewrite (log_one_alias h self p c) by done.
  apply get_log_one. by apply regular_no_sep.
Qed.

End aliasing.

(** C4.  On a logger whose root node was never written to, the child
    made at ["a/b"] shares the node with the parent: [1] logged through
    the child under ["x"] is read through the parent under ["a/b/x"],
    and [2] logged through the parent under ["a/b/y"] is read through
    the child under ["y"]. *)
Theorem child_logger_aliases (h : heap) (self : Logger.t) (d : value) :
  node_at h (Logger._root self) = LogNode.empty →
  ∃ child h1 h2 h3,
    Logger.make_child h self "a/b" = (Ok child, h1)
    ∧ Logger.log h1 child [VStr "x"; VInt 1] = (Ok tt, h2)
    ∧ Logger.get h2 self "a/b/x" d = (Ok (VList [VInt 1]), h2)
    ∧ Logger.log h2 self [VStr "a/b/y"; VInt 2] = (Ok tt, h3)
    ∧ Logger.get h3 child "y" d = (Ok (VList [VInt 2]), h3).
Proof.
  intros Hroot.
  destruct (make_child_spec h self "a/b") as (c & h1 & Hmk & Hw).
  destruct (walk_spec _ _ _ _ _ Hw) as [Hd1 _].
  pose proof (walk_from_blank _ _ _ _ _ Hroot Hw) as Hblank.
  destruct (child_write_parent_read h1 self "a/b" c "x" (VInt 1) d)
    as (h2 & Hl2 & Hg2); [done..|].
  change (Str.join2 "a/b" "x") with "a/b/x" in Hg2.
  assert (Logger.descend h2 (Logger._root self) (path_keys "a/b") = Some c)
    as Hd2.
  { rewrite log_path_value in Hl2. injection Hl2 as <-.
    by apply descend_log_one. }
  destruct (parent_write_child_read h2 self "a/b" c "y" (VInt 2) d)
    as (h3 & Hl3 & Hg3); [done..|].
  change (Str.join2 "a/b" "y") with "a/b/y" in Hl3.
  exists (Logger.mk c), h1, h2, h3.
  split; [done|]. split; [done|]. split; [|split; [done|]].
  - rewrite Hg2. unfold stored. simpl. by rewrite Hblank.
  - rewrite Hg3. rewrite log_path_value in Hl2. injection Hl2 as <-.
    unfold stored, log_one. simpl.
    by rewrite data_set_data_eq, Hblank.
Qed.

Lemma child_logger_aliases_witness :
  node_at fresh_table (Logger._root fresh_logger) = LogNode.empty
  ∧ ∃ child h1 h2 h3,
      Logger.make_child fresh_table fresh_logger "a/b" = (Ok child, h1)
      ∧ Logger.log h1 child [VStr "x"; VInt 1] = (Ok tt, h2)
      ∧ Logger.get h2 fresh_logger "a/b/x" VNone = (Ok (VList [VInt 1]), h2)
      ∧ Logger.log h2 fresh_logger [VStr "a/b/y"; VInt 2] = (Ok tt, h3)
      ∧ Logger.get h3 child "y" VNone = (Ok (VList [VInt 2]), h3).
Proof.
  split; [reflexivity|].
  apply (child_logger_aliases fresh_table fresh_logger VNone). reflexivity.
Defined.

(** ** The arguments of [log] *)

(** C9.  [log] succeeds on one argument that is a mapping from paths to
    values and on two arguments that are a path and a value; on no
    argument and on three or more it raises [TypeError] and leaves the
    table as it was. *)
Theorem log_arity (h : heap) (self : Logger.t) :
  (∀ items, ∃ h1, Logger.log h self [VDict items] = (Ok tt, h1))
  ∧ (∀ p val, ∃ h1, Logger.log h self [VStr p; val] = (Ok tt, h1))
  ∧ Logger.log h self [] = (Raise TypeError, h)
  ∧ (∀ a0 a1 a2 rest,
       Logger.log h self (a0 :: a1 :: a2 :: rest) = (Raise TypeError, h)).
Proof.
  split; [|split; [|split]].
  - intros items. eexists. apply log_vpaths_vals_spec.
  - intros p val. eexists. apply log_path_value.
  - done.
  - done.
Qed.

(** ** Reading *)

Section reading.

Implicit Types (h : heap) (self : Logger.t) (p dir key : string).

Lemma contains_dir h self dir key :
  Str.has_sep key = false →
  Logger.__contains__ h self (Str.join2 dir key) = true →
  ∃ m, Logger.descend h (Logger._root self) (Str.split None dir) = Some m.
Proof.
  intros Hk. unfold Logger.__contains__.
  rewrite decide_False by apply join2_nonempty.
  rewrite split_all_join, (split_no_sep None key) by done.
  rewrite removelast_last.
  destruct (Logger.descend _ _ _) as [m|]; [by eauto | done].
Qed.

Lemma segments_snoc_keys p :
  Str.split None p
  = removelast (Str.split None p) ++ [List.last (Str.split None p) EmptyString].
Proof.
  apply app_removelast_last.
  by destruct (split_all_cons p) as (? & ? & ->).
Qed.

(** Without creation, a failing traversal changes nothing, and neither
    does a traversal whose keys all lead through [children]. *)
Lemma traverse_raise_unchanged h self p create e h1 :
  Logger._traverse h self p create = (Raise e, h1) → h1 = h ∧ e = KeyError.
Proof.
  unfold Logger._traverse. case_decide; [done|].
  destruct (negb create && negb (Logger.__contains__ h self p)).
  - by intros [= <- <-].
  - by destruct (Logger.walk _ _ _).
Qed.

(** Without creation, [_traverse] leaves the table as it is except in
    one case: the last key of the path is bound in [data] and not in
    [children] of the node the keys before it lead to. *)
Lemma traverse_no_create_cases h self p (r : result loc) h1 :
  Logger._traverse h self p false = (r, h1) →
  h1 = h
  ∨ ∃ m, Logger.descend h (Logger._root self)
           (removelast (Str.split None p)) = Some m
         ∧ LogNode.children (node_at h m)
             !! List.last (Str.split None p) EmptyString = None
         ∧ is_Some (LogNode.data (node_at h m)
                      !! List.last (Str.split None p) EmptyString).
Proof.
  unfold Logger._traverse. case_decide as Hp; [by intros [= _ <-]; left|].
  simpl. unfold Logger.__contains__. rewrite decide_False by done.
  destruct (Logger.descend h _ (removelast _)) as [m|] eqn:Hm; simpl;
    [|by intros [= _ <-]; left].
  destruct (LogNode.children (node_at h m) !! _) as [n|] eqn:Hn; simpl.
  - assert (Logger.descend h (Logger._root self) (Str.split None p) = Some n)
      as Hd.
    { rewrite (segments_snoc_keys p), descend_app, Hm. simpl.
      by rewrite Hn. }
    rewrite (walk_descend _ _ _ _ Hd). intros [= _ <-]. by left.
  - case_bool_decide as Hdata; simpl; [|by intros [= _ <-]; left].
    intros _. right. by exists m.
Qed.

(** On a path that is not contained [get] returns the default. *)
Lemma get_absent_default h self p (d : value) :
  Logger.__contains__ h self p = false → Logger.get h self p d = (Ok d, h).
Proof. unfold Logger.get. by intros ->. Qed.

(** [get] never changes the table: the directory it traverses was
    checked by [__contains__] key by key. *)
Lemma get_unchanged h self p (d : value) : (Logger.get h self p d).2 = h.
Proof.
  unfold Logger.get.
  destruct (Logger.__contains__ h self p) eqn:Hc; [|done].
  assert (∃ n, Logger._traverse h self (_rsplit_vpath p).1 false = (Ok n, h))
    as [n Hn].
  { destruct (rsplit_vpath_cases p) as [[_ ->]|(dir & key & -> & Hk & ->)].
    - by eexists.
    - simpl. destruct (decide (dir = EmptyString)) as [->|Hdir]; [by eexists|].
      destruct (contains_dir _ _ _ _ Hk Hc) as [m Hm]. exists m.
      apply traverse_existing. by rewrite path_keys_nonempty. }
  unfold Logger.__getitem__, Logger._do_data_op.
  destruct (_rsplit_vpath p) as [dir key]. simpl in Hn. rewrite Hn.
  destruct (LogNode.data (node_at h n) !! key) as [lst|] eqn:Hk; simpl.
  - by rewrite set_data_id.
  - done.
Qed.

End reading.

(** C1, evaluated where the code departs from it.  After [log("v", 5)]
    on a newly built logger the root has a data key ["v"] and no child.
    [_traverse("v", create=False)] passes the [__contains__] test on the
    data key, and its loop then stores a new child under ["v"]: the
    children mapping of the root has changed.  [__getitem__("v/x")]
    changes it the same way before it raises [KeyError]. *)
Theorem traverse_without_creation_mutates :
  let h := table_with_data in
  let root := Logger._root fresh_logger in
  LogNode.children (node_at h root) !! "v" = None
  ∧ (∃ c h1, Logger._traverse h fresh_logger "v" false = (Ok c, h1)
             ∧ LogNode.children (node_at h1 root) !! "v" = Some c
             ∧ h1 ≠ h)
  ∧ (∃ c h1, Logger.__getitem__ h fresh_logger "v/x" = (Raise KeyError, h1)
             ∧ LogNode.children (node_at h1 root) !! "v" = Some c
             ∧ h1 ≠ h).
Proof.
  split; [reflexivity|]. split.
  - eexists _, _. split; [vm_compute; reflexivity|].
    split; [reflexivity | by vm_compute].
  - eexists _, _. split; [vm_compute; reflexivity|].
    split; [reflexivity | by vm_compute].
Qed.

(** C2, evaluated where the code departs from it.  After
    [make_child("child")] on a newly built logger, ["child"] names a
    sub-branch: [__contains__] holds, [__getitem__] finds no data key and
    raises, and [get] lets the [KeyError] through instead of returning
    the default.  The same happens for the empty path. *)
Theorem get_on_branch_raises :
  let h := table_with_child in
  Logger.__contains__ h fresh_logger "child" = true
  ∧ Logger.get h fresh_logger "child" VNone = (Raise KeyError, h)
  ∧ Logger.get fresh_table fresh_logger EmptyString VNone
    = (Raise KeyError, fresh_table).
Proof. vm_compute. done. Qed.

(** ** Structural export *)

Section parse.

Implicit Types (h : heap) (l c n x : loc) (key : string).
Implicit Types (m mc base : gmap string nested) (cs : gmap string loc).
Implicit Types (g : loc → result (gmap string nested)).

Lemma truthy_true {A} (m : gmap string A) : truthy m = true ↔ m ≠ ∅.
Proof.
  unfold truthy. rewrite negb_true_iff, Nat.eqb_neq.
  by rewrite map_size_empty_iff.
Qed.

Lemma truthy_false {A} (m : gmap string A) : truthy m = false ↔ m = ∅.
Proof.
  unfold truthy. rewrite negb_false_iff, Nat.eqb_eq.
  by rewrite map_size_empty_iff.
Qed.

Lemma truthy_empty {A} : truthy (∅ : gmap string A) = false.
Proof. by apply truthy_false. Qed.

Lemma parse_S fuel h l :
  LogNodeOps.parse (S fuel) h l
  = map_fold (parse_step (LogNodeOps.parse fuel h))
             (Ok (NList <$> LogNode.data (node_at h l)))
             (LogNode.children (node_at h l)).
Proof. done. Qed.

(** The loop of [parse]: it succeeds when every child parses, and then
    its result is described key by key by [export_lookup]. *)
Lemma fold_parse_step g base cs :
  match map_fold (parse_step g) (Ok base) cs with
  | Ok m =>
      (∀ key c, cs !! key = Some c → ∃ mc, g c = Ok mc)
      ∧ ∀ key, m !! key = export_lookup g base cs key
  | Raise e => ∃ key c, cs !! key = Some c ∧ g c = Raise e
  end.
Proof.
  apply (map_fold_weak_ind (λ r cs,
    match r with
    | Ok m =>
        (∀ key c, cs !! key = Some c → ∃ mc, g c = Ok mc)
        ∧ ∀ key, m !! key = export_lookup g base cs key
    | Raise e => ∃ key c, cs !! key = Some c ∧ g c = Raise e
    end)).
  - split; [by intros ?? ?%lookup_empty_Some|].
    intros key. unfold export_lookup. by rewrite lookup_empty.
  - intros i c cs' r Hi IH. unfold parse_step.
    destruct r as [m|e]; simpl.
    + destruct IH as [IHok IHl]. destruct (g c) as [mc|e] eqn:Hg; simpl.
      * split.
        -- intros key c'. rewrite lookup_insert. case_decide; [|by apply IHok].
           intros [= <-]. by eauto.
        -- intros key. unfold export_lookup. rewrite lookup_insert.
           case_decide as Hk; subst.
           ++ rewrite Hg. destruct (truthy mc).
              ** by rewrite lookup_insert_eq.
              ** rewrite IHl. unfold export_lookup. by rewrite Hi.
           ++ destruct (truthy mc).
              ** rewrite lookup_insert_ne by done. apply IHl.
              ** apply IHl.
      * exists i, c. by rewrite lookup_insert_eq.
    + destruct IH as (key & c' & Hc' & Hg). exists key, c'. split; [|done].
      rewrite lookup_insert_ne; [done|]. by intros ->; rewrite Hi in Hc'.
Qed.

Lemma parse_S_ok fuel h l m :
  LogNodeOps.parse (S fuel) h l = Ok m →
  (∀ key c, LogNode.children (node_at h l) !! key = Some c →
            ∃ mc, LogNodeOps.parse fuel h c = Ok mc)
  ∧ ∀ key, m !! key
           = export_lookup (LogNodeOps.parse fuel h)
               (NList <$> LogNode.data (node_at h l))
               (LogNode.children (node_at h l)) key.
Proof.
  rewrite parse_S. intros Hm.
  pose proof (fold_parse_step (LogNodeOps.parse fuel h)
                (NList <$> LogNode.data (node_at h l))
                (LogNode.children (node_at h l))) as Hf.
  by rewrite Hm in Hf.
Qed.

Lemma parse_S_total fuel h l :
  (∀ key c, LogNode.children (node_at h l) !! key = Some c →
            ∃ mc, LogNodeOps.parse fuel h c = Ok mc) →
  ∃ m, LogNodeOps.parse (S fuel) h l = Ok m.
Proof.
  intros Hcs. rewrite parse_S.
  pose proof (fold_parse_step (LogNodeOps.parse fuel h)
                (NList <$> LogNode.data (node_at h l))
                (LogNode.children (node_at h l))) as Hf.
  destruct (map_fold _ _ _) as [m|e]; [by eauto|].
  destruct Hf as (key & c & Hc & Hg).
  destruct (Hcs _ _ Hc) as [mc Hmc]. congruence.
Qed.

(** Two loops over the same children agree when the two functions agree
    on those children. *)
Lemma fold_parse_step_ext g g' (r : result (gmap string nested)) cs :
  (∀ key c, cs !! key = Some c → g c = g' c) →
  map_fold (parse_step g) r cs = map_fold (parse_step g') r cs.
Proof.
  intros Hg. rewrite !map_fold_foldr.
  assert (Forall (λ kc, g kc.2 = g' kc.2) (map_to_list cs)) as Hall.
  { apply Forall_forall. intros [key c] Hin%elem_of_map_to_list. eauto. }
  induction Hall as [|[key c] kcs Hkc _ IH]; simpl; [done|].
  rewrite IH. unfold parse_step. simpl in Hkc. by rewrite Hkc.
Qed.

(** More depth does not change a result. *)
Lemma parse_mono fuel h l m :
  LogNodeOps.parse fuel h l = Ok m → LogNodeOps.parse (S fuel) h l = Ok m.
Proof.
  revert l m. induction fuel as [|fuel IH]; intros l m; [done|].
  intros Hm. rewrite parse_S. rewrite <-Hm, parse_S.
  symmetry. apply fold_parse_step_ext. intros key c Hc.
  destruct (parse_S_ok _ _ _ _ Hm) as [Hok _].
  destruct (Hok _ _ Hc) as [mc Hmc]. by rewrite Hmc, (IH _ _ Hmc).
Qed.

Lemma parse_mono_le fuel fuel' h l m :
  fuel ≤ fuel' →
  LogNodeOps.parse fuel h l = Ok m → LogNodeOps.parse fuel' h l = Ok m.
Proof. induction 1; [done|]. intros. by apply parse_mono, IHle. Qed.

End parse.

(** ** Descendants and tree-shaped tables *)

Section trees.

Implicit Types (h : heap) (l c n x : loc) (key : string) (keys : list string).
Implicit Types (addr : loc → list string).

Lemma reach_refl h l : reach h l l.
Proof. by exists []. Qed.

Lemma reach_child h l key c x :
  LogNode.children (node_at h l) !! key = Some c → reach h c x → reach h l x.
Proof. intros Hc [keys Hd]. exists (key :: keys). simpl. by rewrite Hc. Qed.

Lemma reach_inv h l x :
  reach h l x →
  x = l ∨ ∃ key c, LogNode.children (node_at h l) !! key = Some c ∧ reach h c x.
Proof.
  intros [[|key keys] Hd]; simpl in Hd.
  - left. by injection Hd.
  - right. destruct (LogNode.children (node_at h l) !! key) as [c|] eqn:Hc; [|done].
    exists key, c. split; [done | by exists keys].
Qed.

Lemma reach_trans h l x y : reach h l x → reach h x y → reach h l y.
Proof.
  intros [k1 H1] [k2 H2]. exists (k1 ++ k2). rewrite descend_app, H1. done.
Qed.

Lemma reach_same_children h h' l x :
  (∀ y, LogNode.children (node_at h' y) = LogNode.children (node_at h y)) →
  reach h' l x ↔ reach h l x.
Proof.
  intros Hc. unfold reach.
  by setoid_rewrite (descend_same_children h h' l _ Hc).
Qed.

Lemma tree_shaped_child h addr l key c :
  tree_shaped h addr →
  LogNode.children (node_at h l) !! key = Some c →
  c ∈ dom h ∧ addr c = addr l ++ [key].
Proof.
  intros Ht. unfold node_at. destruct (h !! l) as [node|] eqn:Hl; simpl.
  - intros Hc. exact (Ht l node Hl key c Hc).
  - by rewrite lookup_empty.
Qed.

Lemma tree_shaped_intro h addr :
  (∀ l key c, LogNode.children (node_at h l) !! key = Some c →
              c ∈ dom h ∧ addr c = addr l ++ [key]) →
  tree_shaped h addr.
Proof.
  intros Hall l node Hl key c Hc. apply Hall.
  unfold node_at. by rewrite Hl.
Qed.

Lemma has_child_dom h l key c :
  LogNode.children (node_at h l) !! key = Some c → l ∈ dom h.
Proof.
  unfold node_at. destruct (h !! l) eqn:Hl; simpl.
  - intros _. by apply elem_of_dom.
  - by rewrite lookup_empty.
Qed.

Lemma descend_addr h addr l keys x :
  tree_shaped h addr →
  Logger.descend h l keys = Some x → addr x = addr l ++ keys.
Proof.
  intros Ht. revert l. induction keys as [|key keys IH]; intros l; simpl.
  - intros [= ->]. by rewrite app_nil_r.
  - destruct (LogNode.children (node_at h l) !! key) as [c|] eqn:Hc; [|done].
    intros Hd. rewrite (IH _ Hd).
    destruct (tree_shaped_child _ _ _ _ _ Ht Hc) as [_ ->].
    by rewrite <-app_assoc.
Qed.

Lemma reach_dom h addr l x :
  tree_shaped h addr → l ∈ dom h → reach h l x → x ∈ dom h.
Proof.
  intros Ht Hl [keys Hd]. revert l Hl Hd.
  induction keys as [|key keys IH]; intros l Hl; simpl.
  - by intros [= <-].
  - destruct (LogNode.children (node_at h l) !! key) as [c|] eqn:Hc; [|done].
    apply IH. by destruct (tree_shaped_child _ _ _ _ _ Ht Hc).
Qed.

(** In a tree-shaped table no node is below one of its children, and the
    subtrees of two different keys of a node are disjoint. *)
Lemma tree_no_cycle h addr l key c :
  tree_shaped h addr →
  LogNode.children (node_at h l) !! key = Some c → ¬ reach h c l.
Proof.
  intros Ht Hc [keys Hd].
  pose proof (descend_addr _ _ _ _ _ Ht Hd) as Ha.
  destruct (tree_shaped_child _ _ _ _ _ Ht Hc) as [_ Hac].
  rewrite Hac, <-app_assoc in Ha.
  apply (f_equal length) in Ha. rewrite !length_app in Ha. simpl in Ha. lia.
Qed.

Lemma tree_siblings_disjoint h addr l key1 key2 c1 c2 x :
  tree_shaped h addr →
  LogNode.children (node_at h l) !! key1 = Some c1 →
  LogNode.children (node_at h l) !! key2 = Some c2 →
  key1 ≠ key2 → reach h c1 x → ¬ reach h c2 x.
Proof.
  intros Ht H1 H2 Hne [k1 Hd1] [k2 Hd2].
  pose proof (descend_addr _ _ _ _ _ Ht Hd1) as Ha1.
  pose proof (descend_addr _ _ _ _ _ Ht Hd2) as Ha2.
  destruct (tree_shaped_child _ _ _ _ _ Ht H1) as [_ E1].
  destruct (tree_shaped_child _ _ _ _ _ Ht H2) as [_ E2].
  rewrite E1, <-app_assoc in Ha1. rewrite E2, <-app_assoc in Ha2.
  rewrite Ha1 in Ha2. apply app_inv_head in Ha2. simpl in Ha2. congruence.
Qed.

(** A tree-shaped table has a rank that decreases from a node to its
    children: the recursion of [parse] and [clear] is bounded. *)
Lemma tree_shaped_ranked h addr :
  tree_shaped h addr →
  ∃ rank : loc → nat,
    ∀ l key c, LogNode.children (node_at h l) !! key = Some c → rank c < rank l.
Proof.
  intros Ht.
  set (M := max_list ((λ x, length (addr x)) <$> elements (dom h))).
  exists (λ x, S M - length (addr x)). intros l key c Hc.
  destruct (tree_shaped_child _ _ _ _ _ Ht Hc) as [_ ->].
  assert (length (addr l) ≤ M).
  { apply max_list_elem_of_le, list_elem_of_fmap. exists l. split; [done|].
    apply elem_of_elements. by eapply has_child_dom. }
  rewrite length_app. simpl. lia.
Qed.

End trees.

(** ** [parse] as a relation *)

Section parses.

Implicit Types (h : heap) (l c n x : loc) (key : string).
Implicit Types (m mc : gmap string nested) (addr : loc → list string).

(** [parse] only looks at the node and its descendants. *)
Lemma parse_frame fuel h h' l :
  (∀ x, reach h l x → node_at h' x = node_at h x) →
  LogNodeOps.parse fuel h' l = LogNodeOps.parse fuel h l.
Proof.
  revert l. induction fuel as [|fuel IH]; intros l Hsame; [done|].
  rewrite !parse_S, (Hsame l (reach_refl h l)).
  apply fold_parse_step_ext. intros key c Hc. apply IH.
  intros x Hx. apply Hsame. by eapply reach_child.
Qed.

Lemma parse_total_ranked h (rank : loc → nat) :
  (∀ l key c, LogNode.children (node_at h l) !! key = Some c →
              rank c < rank l) →
  ∀ fuel l, rank l < fuel → ∃ m, LogNodeOps.parse fuel h l = Ok m.
Proof.
  intros Hrank. induction fuel as [|fuel IH]; intros l Hl; [lia|].
  apply parse_S_total. intros key c Hc. apply IH.
  specialize (Hrank _ _ _ Hc). lia.
Qed.

Lemma parses_of_parse fuel h l m :
  LogNodeOps.parse fuel h l = Ok m → parses h l m.
Proof. intros Hm. exists fuel. intros fuel' Hle. by eapply parse_mono_le. Qed.

Lemma parses_fun h l m m' : parses h l m → parses h l m' → m = m'.
Proof.
  intros [d1 H1] [d2 H2].
  specialize (H1 (d1 `max` d2) ltac:(lia)).
  specialize (H2 (d1 `max` d2) ltac:(lia)). congruence.
Qed.

(** On a tree-shaped table [parse] returns, given enough depth. *)
Lemma parses_total h addr l : tree_shaped h addr → ∃ m, parses h l m.
Proof.
  intros [rank Hrank]%tree_shaped_ranked.
  destruct (parse_total_ranked h rank Hrank (S (rank l)) l) as [m Hm]; [lia|].
  exists m. by eapply parses_of_parse.
Qed.

Lemma parses_frame h h' l m :
  (∀ x, reach h l x → node_at h' x = node_at h x) →
  parses h l m → parses h' l m.
Proof.
  intros Hsame [d Hd]. exists d. intros fuel Hle.
  rewrite (parse_frame _ _ _ _ Hsame). by apply Hd.
Qed.

Lemma parses_child h l m key c :
  parses h l m →
  LogNode.children (node_at h l) !! key = Some c → ∃ mc, parses h c mc.
Proof.
  intros [d Hd] Hc. specialize (Hd (S d) ltac:(lia)).
  destruct (parse_S_ok _ _ _ _ Hd) as [Hok _].
  destruct (Hok _ _ Hc) as [mc Hmc]. exists mc. by eapply parses_of_parse.
Qed.

(** The result of [parse], key by key: the export of the child bound to
    the key when it is not empty, the data list otherwise. *)
Lemma parses_lookup_child h l m key c mc :
  parses h l m →
  LogNode.children (node_at h l) !! key = Some c →
  parses h c mc →
  m !! key = if truthy mc then Some (NDict mc)
             else NList <$> LogNode.data (node_at h l) !! key.
Proof.
  intros [d Hd] Hc [dc Hdc].
  specialize (Hd (S (d `max` dc)) ltac:(lia)).
  specialize (Hdc (d `max` dc) ltac:(lia)).
  destruct (parse_S_ok _ _ _ _ Hd) as [_ Hl].
  rewrite Hl. unfold export_lookup. by rewrite Hc, Hdc, lookup_fmap.
Qed.

Lemma parses_lookup_no_child h l m key :
  parses h l m →
  LogNode.children (node_at h l) !! key = None →
  m !! key = NList <$> LogNode.data (node_at h l) !! key.
Proof.
  intros [d Hd] Hc. specialize (Hd (S d) ltac:(lia)).
  destruct (parse_S_ok _ _ _ _ Hd) as [_ Hl].
  rewrite Hl. unfold export_lookup. by rewrite Hc, lookup_fmap.
Qed.

(** A common depth for the children of a node. *)
Lemma children_common_depth h (cs : gmap string loc) :
  (∀ key c, cs !! key = Some c → ∃ mc, parses h c mc) →
  ∃ depth, ∀ key c, cs !! key = Some c →
                    ∃ mc, LogNodeOps.parse depth h c = Ok mc.
Proof.
  induction cs as [|key c cs Hkey IH] using map_ind.
  - intros _. exists 0. by intros ?? ?%lookup_empty_Some.
  - intros Hall. destruct IH as [d1 Hd1].
    { intros key' c' Hc'. apply (Hall key' c').
      rewrite lookup_insert_ne; [done|]. by intros ->; rewrite Hkey in Hc'. }
    destruct (Hall key c) as [mc [d2 Hd2]]; [by rewrite lookup_insert_eq|].
    exists (d1 `max` d2). intros key' c'. rewrite lookup_insert.
    case_decide.
    + intros [= <-]. exists mc. apply Hd2. lia.
    + intros Hc'. destruct (Hd1 _ _ Hc') as [mc' Hmc']. exists mc'.
      eapply parse_mono_le; [|done]. lia.
Qed.

Lemma parses_node h l :
  (∀ key c, LogNode.children (node_at h l) !! key = Some c →
            ∃ mc, parses h c mc) →
  ∃ m, parses h l m.
Proof.
  intros [d Hd]%children_common_depth.
  destruct (parse_S_total d h l Hd) as [m Hm].
  exists m. by eapply parses_of_parse.
Qed.

(** A node that was never written to exports nothing. *)
Lemma parses_blank h l : node_at h l = LogNode.empty → parses h l ∅.
Proof.
  intros Hl. apply (parses_of_parse 1). rewrite parse_S, Hl. simpl.
  by rewrite map_fold_empty, fmap_empty.
Qed.

End parses.

(** ** Keys bound both to data and to a child *)

(** C10.  Where a key is bound to a list in [data] and to a child in
    [children] of the same node, [parse] returns, and its result binds
    the key to the export of the child when that export is not empty
    (the list is then absent from the result), and to the list only
    when the export of the child is empty. *)
Theorem parse_collision_prefers_child
    (h : heap) (addr : loc → list string) (l c : loc) (key : string)
    (lst : list value) :
  tree_shaped h addr →
  LogNode.data (node_at h l) !! key = Some lst →
  LogNode.children (node_at h l) !! key = Some c →
  ∃ m mc,
    parses h l m ∧ parses h c mc
    ∧ (mc ≠ ∅ → m !! key = Some (NDict mc))
    ∧ (mc = ∅ → m !! key = Some (NList lst)).
Proof.
  intros Ht Hd Hc.
  destruct (parses_total h addr l Ht) as [m Hm].
  destruct (parses_total h addr c Ht) as [mc Hmc].
  exists m, mc. split; [done|]. split; [done|].
  rewrite (parses_lookup_child _ _ _ _ _ _ Hm Hc Hmc), Hd.
  split.
  - intros Hne%truthy_true. by rewrite Hne.
  - intros He%truthy_false. by rewrite He.
Qed.

Lemma parse_collision_prefers_child_witness :
  let h := table_with_collision in
  let root := Logger._root fresh_logger in
  tree_shaped h addr_of_collision
  ∧ LogNode.data (node_at h root) !! "v" = Some [VInt 5]
  ∧ LogNode.children (node_at h root) !! "v" = Some 2%positive
  ∧ ∃ m mc,
      parses h root m ∧ parses h 2%positive mc
      ∧ (mc ≠ ∅ → m !! "v" = Some (NDict mc))
      ∧ (mc = ∅ → m !! "v" = Some (NList [VInt 5])).
Proof.
  assert (tree_shaped table_with_collision addr_of_collision) as Ht.
  { apply (bool_decide_unpack _). vm_compute. exact I. }
  split; [exact Ht|]. split; [reflexivity|]. split; [reflexivity|].
  apply (parse_collision_prefers_child table_with_collision addr_of_collision
           (Logger._root fresh_logger) 2%positive "v" [VInt 5] Ht);
    reflexivity.
Defined.

(** ** Clearing *)

Section clear.

Implicit Types (h : heap) (l c n x : loc) (key : string) (keys : list string).
Implicit Types (cs : gmap string loc) (addr : loc → list string).

Local Arguments LogNodeOps.clear : simpl never.

Lemma clear_S fuel h l :
  LogNodeOps.clear (S fuel) h l
  = (h' ← map_fold (clear_step (LogNodeOps.clear fuel)) (Ok h)
                   (LogNode.children (node_at h l));
     Ok (set_data h' l ∅)).
Proof. done. Qed.

(** More depth does not change a result. *)
Lemma clear_mono fuel h l h' :
  LogNodeOps.clear fuel h l = Ok h' → LogNodeOps.clear (S fuel) h l = Ok h'.
Proof.
  revert h l h'. induction fuel as [|fuel IH]; intros h l h'; [done|].
  rewrite (clear_S (S fuel)), clear_S, !map_fold_foldr.
  generalize (map_to_list (LogNode.children (node_at h l))). intros kcs.
  assert (∀ hr, foldr (uncurry (clear_step (LogNodeOps.clear fuel))) (Ok h) kcs
                = Ok hr →
                foldr (uncurry (clear_step (LogNodeOps.clear (S fuel)))) (Ok h) kcs
                = Ok hr) as Hfold.
  { induction kcs as [|[key c] kcs IHk]; intros hr; simpl; [done|].
    unfold clear_step at 1 3.
    destruct (foldr _ _ kcs) as [h1|e] eqn:Hf; simpl; [|done].
    intros Hc. rewrite (IHk h1 eq_refl). simpl. by apply IH. }
  destruct (foldr _ _ kcs) as [hr|e] eqn:Hf; simpl; [|done].
  intros [= <-]. by rewrite (Hfold hr eq_refl).
Qed.

Lemma clear_mono_le fuel fuel' h l h' :
  fuel ≤ fuel' →
  LogNodeOps.clear fuel h l = Ok h' → LogNodeOps.clear fuel' h l = Ok h'.
Proof. induction 1; [done|]. intros. by apply clear_mono, IHle. Qed.

Lemma clears_of_clear fuel h l h' :
  LogNodeOps.clear fuel h l = Ok h' → clears h l h'.
Proof. intros Hc. exists fuel. intros fuel' Hle. by eapply clear_mono_le. Qed.

(** With a rank that decreases from a node to its children, [clear]
    returns within a depth above the rank of the node, and its result
    is as [cleared] says. *)
Lemma clear_ranked (rank : loc → nat) fuel :
  ∀ h l,
    (∀ x key c, LogNode.children (node_at h x) !! key = Some c →
                rank c < rank x) →
    rank l < fuel →
    ∃ h', LogNodeOps.clear fuel h l = Ok h' ∧ cleared h l h'.
Proof.
  induction fuel as [|fuel IH]; intros h l Hrank Hl; [lia|].
  rewrite clear_S.
  assert (∀ cs,
    (∀ key c, cs !! key = Some c → rank c < fuel) →
    ∃ hr, map_fold (clear_step (LogNodeOps.clear fuel)) (Ok h) cs = Ok hr
      ∧ (∀ x, LogNode.children (node_at hr x) = LogNode.children (node_at h x))
      ∧ (∀ x, (∃ key c, cs !! key = Some c ∧ reach h c x) →
              LogNode.data (node_at hr x) = ∅)
      ∧ (∀ x, (∃ key c, cs !! key = Some c ∧ reach h c x)
              ∨ LogNode.data (node_at hr x) = LogNode.data (node_at h x)))
    as Hfold.
  { intros cs.
    apply (map_fold_weak_ind (λ r cs,
      (∀ key c, cs !! key = Some c → rank c < fuel) →
      ∃ hr, r = Ok hr
        ∧ (∀ x, LogNode.children (node_at hr x) = LogNode.children (node_at h x))
        ∧ (∀ x, (∃ key c, cs !! key = Some c ∧ reach h c x) →
                LogNode.data (node_at hr x) = ∅)
        ∧ (∀ x, (∃ key c, cs !! key = Some c ∧ reach h c x)
                ∨ LogNode.data (node_at hr x) = LogNode.data (node_at h x)))).
    - intros _. exists h. split; [done|]. split; [done|]. split; [|by right].
      by intros x (key & c & ?%lookup_empty_Some & _).
    - intros i c cs' r Hi IHf Hlt.
      assert (∀ key c', cs' !! key = Some c' → <[i:=c]> cs' !! key = Some c')
        as Hweak.
      { intros key c' Hc'. rewrite lookup_insert_ne; [done|].
        by intros ->; rewrite Hi in Hc'. }
      destruct IHf as (hr & -> & Hch & Hemp & Hsame).
      { intros key c' Hc'. apply (Hlt key c'). by apply Hweak. }
      destruct (IH hr c) as (hr' & Hcl & Hch' & Hemp' & Hsame').
      { intros x key c'. rewrite Hch. apply Hrank. }
      { apply (Hlt i c). by rewrite lookup_insert_eq. }
      exists hr'. split; [done|].
      assert (∀ x, reach hr c x ↔ reach h c x) as Hreach
        by (intros x; by apply reach_same_children).
      split; [by intros x; rewrite Hch'|]. split.
      + intros x (key & c' & Hc' & Hx).
        destruct (Hsame' x) as [Hcx|Heq]; [by apply Hemp'|].
        rewrite lookup_insert in Hc'. case_decide.
        * simplify_eq. by apply Hemp', Hreach.
        * rewrite Heq. apply Hemp. by exists key, c'.
      + intros x. destruct (Hsame' x) as [Hcx%Hreach|Heq].
        * left. exists i, c. by rewrite lookup_insert_eq.
        * destruct (Hsame x) as [(key & c' & Hc' & Hx)|Heq'].
          -- left. exists key, c'. split; [by apply Hweak | done].
          -- right. by rewrite Heq. }
  destruct (Hfold (LogNode.children (node_at h l)))
    as (hr & -> & Hch & Hemp & Hsame).
  { intros key c Hc. specialize (Hrank _ _ _ Hc). lia. }
  simpl. eexists. split; [done|]. split; [|split].
  - intros x. by rewrite children_set_data.
  - intros x Hx. destruct (decide (l = x)) as [->|Hne];
      [by rewrite data_set_data_eq|].
    rewrite data_set_data_ne by done.
    apply reach_inv in Hx as [->|(key & c & Hc & Hx)]; [done|].
    apply Hemp. by exists key, c.
  - intros x. destruct (decide (l = x)) as [->|Hne]; [left; apply reach_refl|].
    rewrite data_set_data_ne by done.
    destruct (Hsame x) as [(key & c & Hc & Hx)|Heq]; [|by right].
    left. by eapply reach_child.
Qed.

(** On a tree-shaped table [clear] returns, given enough depth. *)
Lemma clears_total h addr l :
  tree_shaped h addr → ∃ h', clears h l h' ∧ cleared h l h'.
Proof.
  intros [rank Hrank]%tree_shaped_ranked.
  destruct (clear_ranked rank (S (rank l)) h l Hrank) as (h' & Hc & Hcl); [lia|].
  exists h'. split; [by eapply clears_of_clear | done].
Qed.

End clear.

(** C6.  On a tree-shaped table, take the logger on the node that [keys]
    lead to from the root of [parent]: [parent] itself when [keys] is
    empty, a child logger otherwise.  Its [clear] returns; it keeps the
    children mapping of every node; below the root of [parent] it
    empties the data of exactly the nodes whose path starts with [keys]
    (the cleared node and its descendants, child loggers among them)
    and leaves the data of the others (ancestors, siblings) as it was;
    and it leaves alone every node that is not a descendant of the
    cleared one. *)
Theorem clear_empties_subtree
    (h : heap) (addr : loc → list string) (parent : Logger.t)
    (keys : list string) (c : loc) :
  tree_shaped h addr →
  Logger.descend h (Logger._root parent) keys = Some c →
  ∃ h',
    (∃ depth, ∀ fuel, depth ≤ fuel →
              Logger.clear fuel h (Logger.mk c) = Ok h')
    ∧ (∀ x, LogNode.children (node_at h' x) = LogNode.children (node_at h x))
    ∧ (∀ q x, Logger.descend h (Logger._root parent) q = Some x →
              LogNode.data (node_at h' x)
              = if bool_decide (keys `prefix_of` q) then ∅
                else LogNode.data (node_at h x))
    ∧ (∀ x, reach h c x
            ∨ LogNode.data (node_at h' x) = LogNode.data (node_at h x)).
Proof.
  intros Ht Hc.
  destruct (clears_total h addr c Ht) as (h' & Hcl & Hch & Hemp & Hsame).
  exists h'. split; [exact Hcl|]. split; [exact Hch|]. split; [|exact Hsame].
  intros q x Hq. case_bool_decide as Hpre.
  - destruct Hpre as [r ->]. rewrite descend_app, Hc in Hq. simpl in Hq.
    apply Hemp. by exists r.
  - destruct (Hsame x) as [[r Hr]|Heq]; [|done].
    exfalso. apply Hpre. exists r.
    pose proof (descend_addr _ _ _ _ _ Ht Hq) as Hax.
    pose proof (descend_addr _ _ _ _ _ Ht Hr) as Hax'.
    pose proof (descend_addr _ _ _ _ _ Ht Hc) as Hac.
    rewrite Hac, <-app_assoc in Hax'. rewrite Hax in Hax'.
    by apply app_inv_head in Hax'.
Qed.

Lemma clear_empties_subtree_witness :
  let h := table_with_branches in
  tree_shaped h addr_of_branches
  ∧ Logger.descend h (Logger._root fresh_logger) ["a"] = Some 2%positive
  ∧ ∃ h',
      (∃ depth, ∀ fuel, depth ≤ fuel →
                Logger.clear fuel h (Logger.mk 2%positive) = Ok h')
      ∧ (∀ x, LogNode.children (node_at h' x) = LogNode.children (node_at h x))
      ∧ (∀ q x, Logger.descend h (Logger._root fresh_logger) q = Some x →
                LogNode.data (node_at h' x)
                = if bool_decide (["a"] `prefix_of` q) then ∅
                  else LogNode.data (node_at h x))
      ∧ (∀ x, reach h 2%positive x
              ∨ LogNode.data (node_at h' x) = LogNode.data (node_at h x)).
Proof.
  assert (tree_shaped table_with_branches addr_of_branches) as Ht.
  { apply (bool_decide_unpack _). vm_compute. exact I. }
  split; [exact Ht|]. split; [reflexivity|].
  apply (clear_empties_subtree table_with_branches addr_of_branches
           fresh_logger ["a"] 2%positive Ht).
  reflexivity.
Defined.

(** ** Logging and the structural export *)

Section log_parse.

Implicit Types (h : heap) (l c n x : loc) (key k : string).
Implicit Types (keys : list string) (vals : list value).
Implicit Types (m mc : gmap string nested) (addr : loc → list string).

Lemma tree_shaped_set_data h addr l d :
  tree_shaped h addr → tree_shaped (set_data h l d) addr.
Proof.
  intros Ht. apply tree_shaped_intro. intros x key y.
  rewrite children_set_data. intros Hc.
  destruct (tree_shaped_child _ _ _ _ _ Ht Hc) as [Hy Ha].
  split; [|done]. unfold set_data. rewrite dom_insert. set_solver.
Qed.

(** A new child keeps the table tree-shaped: the child is labelled with
    the label of its parent followed by the key. *)
Lemma setdefault_child_new_tree h addr l k :
  tree_shaped h addr →
  LogNode.children (node_at h l) !! k = None →
  tree_shaped (setdefault_child h l k).2
    (λ x, if decide (x = new_loc h l) then addr l ++ [k] else addr x).
Proof.
  intros Ht Hk. unfold setdefault_child. rewrite Hk. simpl.
  pose proof (new_loc_ne h l) as Hne. pose proof (new_loc_fresh h l) as Hfr.
  set (c := new_loc h l) in *.
  apply tree_shaped_intro. intros x key y. unfold set_children.
  rewrite (node_at_insert_ne h c l) by done.
  rewrite !dom_insert. rewrite !node_at_insert.
  destruct (decide (l = x)) as [<-|Hlx]; simpl.
  - rewrite lookup_insert. destruct (decide (k = key)) as [<-|Hkey].
    + intros [= <-]. split; [set_solver|].
      rewrite decide_True by done. by rewrite decide_False.
    + intros Hc. destruct (tree_shaped_child _ _ _ _ _ Ht Hc) as [Hy Ha].
      split; [set_solver|].
      rewrite decide_False by (by intros ->). by rewrite decide_False.
  - destruct (decide (c = x)) as [<-|Hcx]; simpl; [by rewrite lookup_empty|].
    intros Hc. destruct (tree_shaped_child _ _ _ _ _ Ht Hc) as [Hy Ha].
    split; [set_solver|].
    rewrite decide_False by (by intros ->). by rewrite decide_False.
Qed.

Lemma setdefault_child_new_frame h l k x :
  LogNode.children (node_at h l) !! k = None →
  x ≠ l → x ∈ dom h →
  node_at (setdefault_child h l k).2 x = node_at h x.
Proof.
  intros Hk Hxl Hx. unfold setdefault_child. rewrite Hk. simpl.
  unfold set_children. rewrite !node_at_insert_ne; [done| |done].
  intros <-. by apply (new_loc_fresh h l).
Qed.

Lemma setdefault_child_new_parent h l k :
  LogNode.children (node_at h l) !! k = None →
  LogNode.data (node_at (setdefault_child h l k).2 l) = LogNode.data (node_at h l)
  ∧ LogNode.children (node_at (setdefault_child h l k).2 l)
    = <[k := new_loc h l]> (LogNode.children (node_at h l))
  ∧ (setdefault_child h l k).1 = new_loc h l.
Proof.
  intros Hk. unfold setdefault_child. rewrite Hk. simpl.
  unfold set_children. rewrite node_at_insert_eq. simpl.
  by rewrite (node_at_insert_ne h (new_loc h l) l) by apply new_loc_ne.
Qed.

Lemma setdefault_child_new_dom h l k :
  LogNode.children (node_at h l) !! k = None →
  dom h ⊆ dom (setdefault_child h l k).2.
Proof.
  intros Hk. unfold setdefault_child. rewrite Hk. simpl.
  unfold set_children. rewrite !dom_insert. set_solver.
Qed.

(** The subtree below a child of [l] is untouched by a change that
    spares the allocated nodes off the subtree of another child. *)
Lemma parses_sibling h h' addr l k k' c c' mc :
  tree_shaped h addr →
  LogNode.children (node_at h l) !! k = Some c →
  LogNode.children (node_at h l) !! k' = Some c' →
  k ≠ k' →
  (∀ x, x ∈ dom h → ¬ reach h c x → node_at h' x = node_at h x) →
  parses h c' mc → parses h' c' mc.
Proof.
  intros Ht Hc Hc' Hne Hframe. apply parses_frame. intros x Hx.
  apply Hframe.
  - eapply reach_dom; [done| |done].
    by destruct (tree_shaped_child _ _ _ _ _ Ht Hc').
  - intros Hcx. by eapply (tree_siblings_disjoint h addr l k' k c' c x).
Qed.

(** Below one child of [l] something changed and the child now exports
    [mc'], not empty; nothing else allocated changed.  Then [l] exports
    what it did, with the key of the child bound to [mc']. *)
Lemma parses_update_child h h' addr l k c m mc' :
  tree_shaped h addr →
  LogNode.children (node_at h l) !! k = Some c →
  parses h l m →
  (∀ x, x ∈ dom h → ¬ reach h c x → node_at h' x = node_at h x) →
  parses h' c mc' → mc' ≠ ∅ →
  parses h' l (<[k := NDict mc']> m).
Proof.
  intros Ht Hc Hm Hframe Hc' Hne.
  assert (node_at h' l = node_at h l) as Hl.
  { apply Hframe; [by eapply has_child_dom | by eapply tree_no_cycle]. }
  assert (∀ key c0 mc0, key ≠ k →
            LogNode.children (node_at h l) !! key = Some c0 →
            parses h c0 mc0 → parses h' c0 mc0) as Hsib.
  { intros key c0 mc0 Hkey Hc0. by eapply (parses_sibling h h' addr l k key). }
  destruct (parses_node h' l) as [m' Hm'].
  { rewrite Hl. intros key c0 Hc0. destruct (decide (key = k)) as [->|Hkey].
    - simplify_eq. by eauto.
    - destruct (parses_child _ _ _ _ _ Hm Hc0) as [mc0 Hmc0]. by eauto. }
  replace (<[k := NDict mc']> m) with m'; [done|].
  apply map_eq. intros key. rewrite lookup_insert.
  destruct (decide (k = key)) as [<-|Hkey].
  - rewrite (parses_lookup_child h' l m' k c mc') by (by rewrite ?Hl).
    apply truthy_true in Hne. by rewrite Hne.
  - destruct (LogNode.children (node_at h l) !! key) as [c0|] eqn:Hc0.
    + destruct (parses_child _ _ _ _ _ Hm Hc0) as [mc0 Hmc0].
      rewrite (parses_lookup_child h' l m' key c0 mc0);
        [|done|by rewrite Hl|by eauto].
      by rewrite (parses_lookup_child h l m key c0 mc0), Hl.
    + rewrite (parses_lookup_no_child h' l m' key) by (by rewrite ?Hl).
      by rewrite (parses_lookup_no_child h l m key), Hl.
Qed.

(** A child that [setdefault] has just stored does not show in the
    export of its parent. *)
Lemma parses_setdefault_new h addr l k m :
  tree_shaped h addr →
  LogNode.children (node_at h l) !! k = None →
  parses h l m → parses (setdefault_child h l k).2 l m.
Proof.
  intros Ht Hk Hm.
  destruct (setdefault_child_new_parent h l k Hk) as (Hd & Hcs & Hc).
  pose proof (setdefault_child_new h l k Hk) as Hblank. rewrite Hc in Hblank.
  set (h1 := (setdefault_child h l k).2) in *. set (c := new_loc h l) in *.
  assert (∀ key c0 mc0, LogNode.children (node_at h l) !! key = Some c0 →
                        parses h c0 mc0 → parses h1 c0 mc0) as Hold.
  { intros key c0 mc0 Hc0. apply parses_frame. intros x Hx.
    apply setdefault_child_new_frame; [done| |].
    - intros ->. by eapply tree_no_cycle.
    - eapply reach_dom; [done| |done].
      by destruct (tree_shaped_child _ _ _ _ _ Ht Hc0). }
  destruct (parses_node h1 l) as [m1 Hm1].
  { rewrite Hcs. intros key c0. rewrite lookup_insert. case_decide.
    - intros [= <-]. exists ∅. by apply parses_blank.
    - intros Hc0. destruct (parses_child _ _ _ _ _ Hm Hc0) as [mc0 Hmc0].
      by eauto. }
  replace m with m1; [done|]. apply map_eq. intros key.
  destruct (decide (k = key)) as [<-|Hkey].
  - rewrite (parses_lookup_child h1 l m1 k c ∅);
      [|done|by rewrite Hcs, lookup_insert_eq|by apply parses_blank].
    rewrite truthy_empty, Hd.
    by rewrite (parses_lookup_no_child h l m k).
  - destruct (LogNode.children (node_at h l) !! key) as [c0|] eqn:Hc0.
    + destruct (parses_child _ _ _ _ _ Hm Hc0) as [mc0 Hmc0].
      rewrite (parses_lookup_child h1 l m1 key c0 mc0);
        [|done|by rewrite Hcs, lookup_insert_ne|by eauto].
      by rewrite (parses_lookup_child h l m key c0 mc0), Hd.
    + rewrite (parses_lookup_no_child h1 l m1 key);
        [|done|by rewrite Hcs, lookup_insert_ne].
      by rewrite (parses_lookup_no_child h l m key), Hd.
Qed.

Lemma reach_blank h l x : node_at h l = LogNode.empty → reach h l x → x = l.
Proof.
  intros Hl [->|(key & c & Hc & _)]%reach_inv; [done|].
  by rewrite Hl in Hc.
Qed.

(** [setdefault], whether the key was bound or not: the table stays
    tree-shaped, the parent exports what it did, the child exports what
    the parent showed under the key, and the allocated nodes off the
    subtree of the parent are untouched and off the subtree of the
    child. *)
Lemma setdefault_child_parses h addr l k m c h1 :
  tree_shaped h addr → parses h l m →
  setdefault_child h l k = (c, h1) →
  (∃ addr1, tree_shaped h1 addr1)
  ∧ LogNode.children (node_at h1 l) !! k = Some c
  ∧ parses h1 l m
  ∧ parses h1 c (match m !! k with Some (NDict m') => m' | _ => ∅ end)
  ∧ (∀ x, x ∈ dom h → ¬ reach h l x →
          node_at h1 x = node_at h x ∧ x ∈ dom h1 ∧ ¬ reach h1 c x).
Proof.
  intros Ht Hm Hsd.
  destruct (LogNode.children (node_at h l) !! k) as [c0|] eqn:Hk.
  - rewrite (setdefault_child_bound _ _ _ _ Hk) in Hsd. injection Hsd as <- <-.
    split; [by eauto|]. split; [done|]. split; [done|]. split.
    + destruct (parses_child _ _ _ _ _ Hm Hk) as [mc Hmc].
      rewrite (parses_lookup_child _ _ _ _ _ _ Hm Hk Hmc).
      destruct (truthy mc) eqn:Htr; [done|].
      apply truthy_false in Htr as ->.
      by destruct (LogNode.data (node_at h l) !! k).
    + intros x Hx Hlx. split; [done|]. split; [done|].
      intros Hcx. apply Hlx. by eapply reach_child.
  - pose proof (setdefault_child_new_tree h addr l k Ht Hk) as Ht1.
    pose proof (parses_setdefault_new h addr l k m Ht Hk Hm) as Hm1.
    destruct (setdefault_child_new_parent h l k Hk) as (Hd & Hcs & Hc).
    pose proof (setdefault_child_new h l k Hk) as Hblank.
    pose proof (setdefault_child_new_dom h l k Hk) as Hdom.
    rewrite Hsd in *. simpl in *. subst c.
    split; [by eauto|]. split; [by rewrite Hcs, lookup_insert_eq|].
    split; [done|]. split.
    + rewrite (parses_lookup_no_child _ _ _ _ Hm Hk).
      destruct (LogNode.data (node_at h l) !! k); by apply parses_blank.
    + intros x Hx Hlx. split; [|split].
      * rewrite <-(setdefault_child_new_frame h l k x Hk); [by rewrite Hsd| |done].
        intros ->. apply Hlx, reach_refl.
      * by apply Hdom.
      * intros ->%(reach_blank _ _ _ Hblank). by apply (new_loc_fresh h l).
Qed.

Lemma dict_at_empty keys : dict_at ∅ keys → keys = [].
Proof. destruct keys as [|k rest]; [done|]. simpl. by rewrite lookup_empty. Qed.

(** Adding values under a key of [l] itself. *)
Lemma parses_set_data h addr l m key vals :
  tree_shaped h addr → parses h l m → ¬ dict_at m [key] →
  parses (log_at h l [] key vals) l (spec_nest_insert [] key vals m).
Proof.
  intros Ht Hm Hnd. unfold log_at. simpl.
  set (d := LogNode.data (node_at h l)).
  set (h' := set_data h l _).
  assert (∀ key0 c0 mc0, LogNode.children (node_at h l) !! key0 = Some c0 →
                         parses h c0 mc0 → parses h' c0 mc0) as Hold.
  { intros key0 c0 mc0 Hc0. apply parses_frame. intros x Hx.
    unfold h', set_data. apply node_at_insert_ne.
    intros ->. by eapply tree_no_cycle. }
  assert (∀ key0, LogNode.children (node_at h' l) !! key0
                  = LogNode.children (node_at h l) !! key0) as Hcs
    by (by intros; unfold h'; rewrite children_set_data).
  assert (LogNode.data (node_at h' l)
          = <[key := default [] (d !! key) ++ vals]> d) as Hd
    by (by unfold h'; rewrite data_set_data_eq).
  destruct (parses_node h' l) as [m' Hm'].
  { intros key0 c0. rewrite Hcs. intros Hc0.
    destruct (parses_child _ _ _ _ _ Hm Hc0) as [mc0 Hmc0]. by eauto. }
  match goal with |- parses _ _ ?X => replace X with m'; [done|] end.
  apply map_eq. intros key0.
  assert (m' !! key0
          = match LogNode.children (node_at h l) !! key0 with
            | Some c0 =>
                match m !! key0 with
                | Some (NDict mc0) => Some (NDict mc0)
                | _ => NList <$> LogNode.data (node_at h' l) !! key0
                end
            | None => NList <$> LogNode.data (node_at h' l) !! key0
            end) as ->.
  { destruct (LogNode.children (node_at h l) !! key0) as [c0|] eqn:Hc0.
    - destruct (parses_child _ _ _ _ _ Hm Hc0) as [mc0 Hmc0].
      rewrite (parses_lookup_child h' l m' key0 c0 mc0);
        [|done|by rewrite Hcs|by eauto].
      rewrite (parses_lookup_child h l m key0 c0 mc0) by done.
      destruct (truthy mc0); [done|].
      by destruct (LogNode.data (node_at h l) !! key0).
    - by rewrite (parses_lookup_no_child h' l m' key0) by (by rewrite ?Hcs). }
  assert (m !! key0
          = match LogNode.children (node_at h l) !! key0 with
            | Some c0 =>
                match m !! key0 with
                | Some (NDict mc0) => Some (NDict mc0)
                | _ => NList <$> d !! key0
                end
            | None => NList <$> d !! key0
            end) as Hmk.
  { destruct (LogNode.children (node_at h l) !! key0) as [c0|] eqn:Hc0.
    - destruct (parses_child _ _ _ _ _ Hm Hc0) as [mc0 Hmc0].
      rewrite (parses_lookup_child h l m key0 c0 mc0) by done.
      destruct (truthy mc0); [done|]. fold d. by destruct (d !! key0).
    - by rewrite (parses_lookup_no_child h l m key0). }
  rewrite Hd, !lookup_insert. destruct (decide (key = key0)) as [<-|Hkey].
  - simpl in Hnd. revert Hmk Hnd.
    destruct (m !! key) as [[lst|mk]|]; [| by intros _ [] |];
      destruct (LogNode.children (node_at h l) !! key);
      destruct (d !! key); simpl; intros; by simplify_eq.
  - symmetry. exact Hmk.
Qed.

(** Logging below [l]: the export of [l] becomes what the specification
    says, provided the place of the logged list is not a mapping. *)
Lemma log_at_parses key vals keys :
  ∀ h addr l m,
    tree_shaped h addr → parses h l m → ¬ dict_at m (keys ++ [key]) →
    parses (log_at h l keys key vals) l (spec_nest_insert keys key vals m)
    ∧ (∃ addr', tree_shaped (log_at h l keys key vals) addr')
    ∧ (∀ x, x ∈ dom h → ¬ reach h l x →
            node_at (log_at h l keys key vals) x = node_at h x).
Proof.
  induction keys as [|k rest IH]; intros h addr l m Ht Hm Hnd.
  - split; [by eapply parses_set_data|]. split.
    + exists addr. by apply tree_shaped_set_data.
    + intros x _ Hx. unfold log_at, set_data. simpl.
      apply node_at_insert_ne. intros ->. apply Hx, reach_refl.
  - assert (log_at h l (k :: rest) key vals
            = log_at (setdefault_child h l k).2 (setdefault_child h l k).1
                rest key vals) as ->.
    { unfold log_at. simpl. by destruct (setdefault_child h l k). }
    destruct (setdefault_child h l k) as [c h1] eqn:Hsd. simpl.
    destruct (setdefault_child_parses _ _ _ _ _ _ _ Ht Hm Hsd)
      as ([addr1 Ht1] & Hc & Hm1 & Hmc & Hfr1).
    destruct (IH h1 addr1 c _ Ht1 Hmc) as (Hp & Ht' & Hfr).
    { intros Hd. apply Hnd. simpl.
      destruct (m !! k) as [[lst|mk]|]; [|done|];
        by apply dict_at_empty, app_nil in Hd as [_ ?]. }
    split; [|split; [done|]].
    + simpl. eapply parses_update_child; [done..| |done|].
      * intros x Hx Hcx. by apply Hfr.
      * destruct rest; simpl; apply insert_non_empty.
    + intros x Hx Hlx. destruct (Hfr1 x Hx Hlx) as (<- & Hx1 & Hcx).
      by apply Hfr.
Qed.

(** After an insertion the positions that hold a mapping are those that
    did, and the directories of the inserted path. *)
Lemma dict_at_nest_insert key vals keys :
  ∀ m ks, dict_at (spec_nest_insert keys key vals m) ks →
          dict_at m ks ∨ ks `prefix_of` keys.
Proof.
  induction keys as [|k rest IH]; intros m [|k' ks]; simpl;
    try (intros _; right; apply prefix_nil).
  - rewrite lookup_insert. case_decide; [done | by left].
  - rewrite lookup_insert. case_decide as Hk; [subst k'|by left].
    intros [Hd|Hp]%IH.
    + destruct (m !! k) as [[lst|mk]|]; [|by left|];
        apply dict_at_empty in Hd as ->; right; by apply prefix_cons, prefix_nil.
    + right. by apply prefix_cons.
Qed.

Lemma regular_segments p dir key :
  regular p → _rsplit_vpath p = (dir, key) →
  Str.split None p = path_keys dir ++ [key].
Proof.
  intros Hreg Hp. unfold regular in Hreg. rewrite Hp in Hreg.
  destruct (rsplit_vpath_cases p) as [[Hs E]|(d & k & -> & Hk' & E)].
  - rewrite E in Hp. injection Hp as <- <-. by rewrite split_no_sep.
  - rewrite E in Hp. injection Hp as <- <-.
    rewrite split_all_join, (split_no_sep None k) by done.
    unfold path_keys. case_decide as Hd'; [|done]. subst d.
    by specialize (Hreg eq_refl).
Qed.

Lemma log_one_log_at h (self : Logger.t) p (val : value) :
  log_one h self p val
  = log_at h (Logger._root self) (path_keys (_rsplit_vpath p).1)
      (_rsplit_vpath p).2 (logged val).
Proof. unfold log_one, log_at. by destruct (_rsplit_vpath p). Qed.

Lemma run_logs_snoc h (self : Logger.t) logs (kv : string * value) :
  run_logs h self (logs ++ [kv])
  = log_one (run_logs h self logs) self kv.1 kv.2.
Proof.
  unfold run_logs. rewrite foldl_app. cbn [foldl]. by rewrite log_path_value.
Qed.

Lemma log_mapping_run_logs h (self : Logger.t) logs :
  Logger.log h self [VDict logs] = (Ok tt, run_logs h self logs).
Proof.
  unfold Logger.log. rewrite log_vpaths_vals_spec. f_equal.
  unfold run_logs. revert h. induction logs as [|kv logs IH]; intros h; [done|].
  cbn [foldl]. by rewrite log_path_value, IH.
Qed.

Lemma spec_implied_snoc logs (kv : string * value) :
  spec_implied (logs ++ [kv]) = spec_implied_step (spec_implied logs) kv.
Proof. unfold spec_implied. by rewrite foldl_app. Qed.

Lemma removelast_prefix (ks : list string) : removelast ks `prefix_of` ks.
Proof.
  destruct (decide (ks = [])) as [->|Hne]; [done|].
  exists [List.last ks EmptyString]. by apply app_removelast_last.
Qed.

Lemma removelast_shorter (ks : list string) :
  ks ≠ [] → length (removelast ks) < length ks.
Proof.
  intros Hne. rewrite (app_removelast_last EmptyString Hne) at 2.
  rewrite length_app. simpl. lia.
Qed.

(** In the structure the specification implies, a mapping sits at the
    top and at the directories of the logged paths, nowhere else. *)
Lemma dict_at_implied logs ks :
  dict_at (spec_implied logs) ks →
  ks = [] ∨ ∃ q, q ∈ logs.*1 ∧ ks `prefix_of` removelast (Str.split None q).
Proof.
  revert ks. induction logs as [|kv logs IH] using rev_ind; intros ks.
  - intros ->%dict_at_empty. by left.
  - rewrite spec_implied_snoc. unfold spec_implied_step.
    intros [Hd|Hp]%dict_at_nest_insert.
    + destruct (IH _ Hd) as [->|(q & Hq & Hpre)]; [by left|].
      right. exists q. split; [|done]. rewrite fmap_app.
      apply elem_of_app. by left.
    + right. exists kv.1. split; [|done]. rewrite fmap_app.
      apply elem_of_app. right. by apply list_elem_of_singleton.
Qed.

Lemma collision_free_snoc logs (kv : string * value) :
  collision_free (logs ++ [kv]) →
  collision_free logs
  ∧ ∀ q, q ∈ logs.*1 →
         Str.split None kv.1 `prefix_of` Str.split None q →
         Str.split None kv.1 = Str.split None q.
Proof.
  unfold collision_free. rewrite fmap_app. simpl.
  rewrite Forall_app, Forall_singleton. intros [Hall Hkv]. split.
  - eapply Forall_impl; [exact Hall|]. simpl.
    intros p Hp. by apply Forall_app in Hp as [Hp _].
  - apply Forall_app in Hkv as [Hkv _]. intros q Hq.
    by apply (proj1 (Forall_forall _ _) Hkv).
Qed.

(** The round trip: after a sequence of logs on a logger whose root was
    blank, [parse] on the root returns the structure the specification
    implies, and the table is still tree-shaped. *)
Lemma run_logs_parses h addr (self : Logger.t) logs :
  tree_shaped h addr →
  node_at h (Logger._root self) = LogNode.empty →
  all_regular logs → collision_free logs →
  (∃ addr', tree_shaped (run_logs h self logs) addr')
  ∧ parses (run_logs h self logs) (Logger._root self) (spec_implied logs).
Proof.
  intros Ht Hroot. induction logs as [|kv logs IH] using rev_ind.
  - intros _ _. split; [by eauto | by apply parses_blank].
  - unfold all_regular at 1. rewrite Forall_app, Forall_singleton.
    intros [Hreg Hkv] [Hcf Hnew]%collision_free_snoc.
    destruct (IH Hreg Hcf) as ([addr' Ht'] & Hp).
    rewrite run_logs_snoc, log_one_log_at, spec_implied_snoc.
    unfold spec_implied_step.
    destruct (_rsplit_vpath kv.1) as [dir key] eqn:Hrs. simpl.
    pose proof (regular_segments _ _ _ Hkv Hrs) as Hseg.
    rewrite Hseg, removelast_last, last_last.
    destruct (log_at_parses key (logged kv.2) (path_keys dir)
                (run_logs h self logs) addr' (Logger._root self)
                (spec_implied logs) Ht' Hp) as (Hp' & Ht'' & _); [|done].
    rewrite <-Hseg. intros [Hnil|(q & Hq & Hpre)]%dict_at_implied.
    + by destruct (split_all_cons kv.1) as (? & ? & E); rewrite E in Hnil.
    + assert (Str.split None kv.1 `prefix_of` Str.split None q) as Hpre'
        by (etrans; [exact Hpre | apply removelast_prefix]).
      rewrite (Hnew q Hq Hpre') in Hpre.
      apply prefix_length in Hpre.
      assert (Str.split None q ≠ []) as Hne
        by (by destruct (split_all_cons q) as (? & ? & ->)).
      pose proof (removelast_shorter _ Hne). lia.
Qed.

(** An export is empty exactly when there is no data in the node or
    below it. *)
Lemma parse_empty_iff fuel :
  ∀ h l m, LogNodeOps.parse fuel h l = Ok m →
           m = ∅ ↔ ∀ x, reach h l x → LogNode.data (node_at h x) = ∅.
Proof.
  induction fuel as [|fuel IH]; intros h l m; [done|].
  intros [Hok Hl]%parse_S_ok. split.
  - intros -> x [->|(k & c & Hc & Hx)]%reach_inv.
    + apply map_empty. intros k. specialize (Hl k).
      rewrite lookup_empty in Hl. unfold export_lookup in Hl.
      rewrite lookup_fmap in Hl.
      destruct (LogNode.data (node_at h l) !! k); [|done].
      destruct (LogNode.children (node_at h l) !! k) as [c|]; [|done].
      by destruct (LogNodeOps.parse fuel h c) as [mc|]; [destruct (truthy mc)|].
    + destruct (Hok _ _ Hc) as [mc Hmc].
      apply (IH _ _ _ Hmc); [|done]. apply truthy_false.
      specialize (Hl k). rewrite lookup_empty in Hl.
      unfold export_lookup in Hl. rewrite Hc, Hmc in Hl.
      by destruct (truthy mc).
  - intros Hall. apply map_empty. intros k. rewrite Hl. unfold export_lookup.
    assert (NList <$> LogNode.data (node_at h l) !! k = None) as Hnone
      by (by rewrite (Hall l (reach_refl h l)), lookup_empty).
    rewrite lookup_fmap, Hnone.
    destruct (LogNode.children (node_at h l) !! k) as [c|] eqn:Hc; [|done].
    destruct (Hok _ _ Hc) as [mc Hmc]. rewrite Hmc.
    assert (mc = ∅) as ->; [|by rewrite truthy_empty].
    apply (IH _ _ _ Hmc). intros x Hx. apply Hall. by eapply reach_child.
Qed.

Lemma parses_empty_iff h l m :
  parses h l m →
  m = ∅ ↔ ∀ x, reach h l x → LogNode.data (node_at h x) = ∅.
Proof. intros [d Hd]. by apply (parse_empty_iff d), Hd. Qed.

End log_parse.

(** ** The structure the logged paths imply gives the logged values back *)

Section implied.

Implicit Types (m : gmap string nested) (keys ks : list string) (key k : string).
Implicit Types (vals : list value) (logs : list (string * value)).

Lemma list_at_empty keys key : list_at ∅ keys key = None.
Proof. destruct keys; simpl; by rewrite lookup_empty. Qed.

Lemma list_at_insert_same key vals keys :
  ∀ m, list_at (spec_nest_insert keys key vals m) keys key
       = Some (default [] (list_at m keys key) ++ vals).
Proof.
  induction keys as [|k0 rest IH]; intros m; simpl.
  - rewrite lookup_insert_eq. by destruct (m !! key) as [[l|m']|].
  - rewrite lookup_insert_eq, IH.
    destruct (m !! k0) as [[l|m']|]; by rewrite ?list_at_empty.
Qed.

Lemma list_at_insert_other key vals keys :
  ∀ m ks k,
    ¬ (keys ++ [key]) `prefix_of` (ks ++ [k]) →
    ¬ (ks ++ [k]) `prefix_of` (keys ++ [key]) →
    list_at (spec_nest_insert keys key vals m) ks k = list_at m ks k.
Proof.
  induction keys as [|k0 rest IH]; intros m [|k' r] k H1 H2; simpl in *.
  - rewrite lookup_insert_ne; [done|]. by intros ->.
  - rewrite lookup_insert_ne; [done|]. intros ->. apply H1.
    by apply prefix_cons, prefix_nil.
  - rewrite lookup_insert_ne; [done|]. intros ->. apply H2.
    by apply prefix_cons, prefix_nil.
  - destruct (decide (k0 = k')) as [->|Hne];
      [|by rewrite lookup_insert_ne].
    rewrite lookup_insert_eq, IH.
    + destruct (m !! k') as [[l|m']|]; by rewrite ?list_at_empty.
    + intros Hp. by apply H1, prefix_cons.
    + intros Hp. by apply H2, prefix_cons.
Qed.

Lemma list_at_insert_inv key vals keys :
  ∀ m ks k,
    is_Some (list_at (spec_nest_insert keys key vals m) ks k) →
    is_Some (list_at m ks k) ∨ ks ++ [k] = keys ++ [key].
Proof.
  induction keys as [|k0 rest IH]; intros m [|k' r] k; simpl.
  - rewrite lookup_insert. case_decide; [subst; by right | by left].
  - rewrite lookup_insert. case_decide; [by intros [? ?] | by left].
  - rewrite lookup_insert. case_decide; [by intros [? ?] | by left].
  - rewrite lookup_insert. case_decide as Hk; [subst k'|by left].
    intros [Hs|He]%IH.
    + left. destruct (m !! k0) as [[l|m']|]; [|done|];
        rewrite list_at_empty in Hs; by destruct Hs.
    + right. by rewrite He.
Qed.

(** A list sits only at a logged path. *)
Lemma list_at_implied logs ks k :
  is_Some (list_at (spec_implied logs) ks k) →
  ∃ q, q ∈ logs.*1 ∧ Str.split None q = ks ++ [k].
Proof.
  induction logs as [|kv logs IH] using rev_ind.
  - unfold spec_implied. simpl. rewrite list_at_empty. by intros [? ?].
  - rewrite spec_implied_snoc. unfold spec_implied_step.
    intros [Hs|He]%list_at_insert_inv.
    + destruct (IH Hs) as (q & Hq & Hsq). exists q. split; [|done].
      rewrite fmap_app. apply elem_of_app. by left.
    + exists kv.1. split.
      * rewrite fmap_app. apply elem_of_app. right.
        by apply list_elem_of_singleton.
      * rewrite He. apply app_removelast_last.
        by destruct (split_all_cons kv.1) as (? & ? & ->).
Qed.

Lemma values_at_snoc ks logs (kv : string * value) :
  values_at ks (logs ++ [kv])
  = values_at ks logs
    ++ if decide (Str.split None kv.1 = ks) then logged kv.2 else [].
Proof.
  unfold values_at. rewrite fmap_app, concat_app. simpl.
  by rewrite app_nil_r.
Qed.

Lemma values_at_none ks logs :
  (∀ q, q ∈ logs.*1 → Str.split None q ≠ ks) → values_at ks logs = [].
Proof.
  induction logs as [|kv logs IH]; [done|].
  intros Hall. unfold values_at in *. simpl.
  rewrite decide_False by (apply Hall; simpl; apply list_elem_of_here).
  simpl. apply IH. intros q Hq. apply Hall. simpl.
  by apply list_elem_of_further.
Qed.

Lemma collision_free_elim logs p q :
  collision_free logs → p ∈ logs.*1 → q ∈ logs.*1 →
  Str.split None p `prefix_of` Str.split None q →
  Str.split None p = Str.split None q.
Proof.
  intros Hcf Hp Hq.
  pose proof (proj1 (Forall_forall _ _) Hcf p Hp) as Hcf'.
  by apply (proj1 (Forall_forall _ _) Hcf' q Hq).
Qed.

(** Where no logged path runs through another, the structure the
    specification implies holds, at every logged path, the values
    logged there in logging order. *)
Lemma spec_implied_reproduces logs :
  collision_free logs → reproduces logs (spec_implied logs).
Proof.
  induction logs as [|kv logs IH] using rev_ind.
  - intros _ p Hp. by apply elem_of_nil in Hp.
  - intros Hcf p Hp.
    destruct (collision_free_snoc _ _ Hcf) as [Hcf' _]. specialize (IH Hcf').
    rewrite spec_implied_snoc, values_at_snoc. unfold spec_implied_step.
    destruct (decide (Str.split None kv.1 = Str.split None p)) as [Heq|Hne].
    + rewrite Heq, list_at_insert_same. f_equal. f_equal.
      destruct (list_at (spec_implied logs) _ _) as [l|] eqn:Hl.
      * destruct (list_at_implied logs _ _ (mk_is_Some _ _ Hl)) as (q & Hq & Hsq).
        rewrite <-segments_snoc_keys in Hsq.
        specialize (IH q Hq). rewrite Hsq, Hl in IH. by injection IH.
      * simpl. symmetry. apply values_at_none. intros q Hq Hsq.
        specialize (IH q Hq). rewrite Hsq, Hl in IH. discriminate.
    + rewrite app_nil_r.
      assert (p ∈ logs.*1) as Hp'.
      { rewrite fmap_app in Hp. apply elem_of_app in Hp as [?|Hp]; [done|].
        apply list_elem_of_singleton in Hp. by subst p. }
      assert (kv.1 ∈ (logs ++ [kv]).*1) as Hkv.
      { rewrite fmap_app. apply elem_of_app. right.
        by apply list_elem_of_singleton. }
      rewrite list_at_insert_other; [by apply IH| |].
      * rewrite <-!segments_snoc_keys. intros Hpre. apply Hne.
        by apply (collision_free_elim _ _ _ Hcf).
      * rewrite <-!segments_snoc_keys. intros Hpre. apply Hne. symmetry.
        by apply (collision_free_elim _ _ _ Hcf).
Qed.

End implied.

(** C5, as the code has it.  First part: on a tree-shaped table and a
    logger whose root was never written to, log a sequence of paths that
    are regular and do not run through one another, in one call with a
    mapping or in a call per path.  Then [as_dict] returns, and it
    returns the nested structure the logged paths imply, lists in
    logging order.  Second part: on a tree-shaped table [parse] returns;
    the export of a child is empty exactly when there is no data in the
    child or below it, such a child adds nothing to the export of its
    parent, and any other child is exported under its key. *)
Theorem structural_export :
  (∀ (h : heap) (addr : loc → list string) (self : Logger.t)
     (logs : list (string * value)),
     tree_shaped h addr →
     node_at h (Logger._root self) = LogNode.empty →
     all_regular logs → collision_free logs →
     Logger.log h self [VDict logs] = (Ok tt, run_logs h self logs)
     ∧ (∃ depth, ∀ fuel, depth ≤ fuel →
          Logger.as_dict fuel (run_logs h self logs) self
          = Ok (spec_implied logs))
     ∧ reproduces logs (spec_implied logs))
  ∧ (∀ (h : heap) (addr : loc → list string) (l c : loc) (key : string),
       tree_shaped h addr →
       LogNode.children (node_at h l) !! key = Some c →
       ∃ m mc,
         parses h l m ∧ parses h c mc
         ∧ (mc = ∅ ↔ ∀ x, reach h c x → LogNode.data (node_at h x) = ∅)
         ∧ (mc = ∅ → m !! key = NList <$> LogNode.data (node_at h l) !! key)
         ∧ (mc ≠ ∅ → m !! key = Some (NDict mc))).
Proof.
  split.
  - intros h addr self logs Ht Hroot Hreg Hcf.
    split; [apply log_mapping_run_logs|].
    destruct (run_logs_parses h addr self logs Ht Hroot Hreg Hcf) as [_ Hp].
    split; [exact Hp | by apply spec_implied_reproduces].
  - intros h addr l c key Ht Hc.
    destruct (parses_total h addr l Ht) as [m Hm].
    destruct (parses_total h addr c Ht) as [mc Hmc].
    exists m, mc. split; [done|]. split; [done|].
    split; [by apply parses_empty_iff|].
    rewrite (parses_lookup_child _ _ _ _ _ _ Hm Hc Hmc). split.
    + intros He%truthy_false. by rewrite He.
    + intros Hne%truthy_true. by rewrite Hne.
Qed.

(** The scenario of the specification:
    [log({"a/v": 1, "b/v": [2, 3]})], then
    [as_dict() == {"a": {"v": [1]}, "b": {"v": [2, 3]}}]. *)
Lemma structural_export_witness :
  tree_shaped fresh_table (λ _, [])
  ∧ node_at fresh_table (Logger._root fresh_logger) = LogNode.empty
  ∧ all_regular logs_of_scenario ∧ collision_free logs_of_scenario
  ∧ Logger.log fresh_table fresh_logger [VDict logs_of_scenario]
    = (Ok tt, table_with_branches)
  ∧ (∃ depth, ∀ fuel, depth ≤ fuel →
       Logger.as_dict fuel table_with_branches fresh_logger
       = Ok {[ "a" := NDict {[ "v" := NList [VInt 1] ]};
               "b" := NDict {[ "v" := NList [VInt 2; VInt 3] ]} ]})
  ∧ reproduces logs_of_scenario
      {[ "a" := NDict {[ "v" := NList [VInt 1] ]};
         "b" := NDict {[ "v" := NList [VInt 2; VInt 3] ]} ]}
  ∧ LogNode.children (node_at table_with_branches 1%positive) !! "a"
    = Some 2%positive
  ∧ ∃ m mc,
      parses table_with_branches 1%positive m
      ∧ parses table_with_branches 2%positive mc
      ∧ (mc = ∅ ↔ ∀ x, reach table_with_branches 2%positive x →
                       LogNode.data (node_at table_with_branches x) = ∅)
      ∧ (mc = ∅ → m !! "a"
                  = NList <$> LogNode.data (node_at table_with_branches 1%positive)
                              !! "a")
      ∧ (mc ≠ ∅ → m !! "a" = Some (NDict mc)).
Proof.
  assert (tree_shaped fresh_table (λ _, [])) as Ht
    by (apply (bool_decide_unpack _); vm_compute; exact I).
  assert (all_regular logs_of_scenario) as Hreg
    by (repeat constructor; intros H; vm_compute in H; discriminate).
  assert (collision_free logs_of_scenario) as Hcf.
  { repeat constructor; simpl; intros [k Hk]; by simplify_eq. }
  assert (tree_shaped table_with_branches addr_of_branches) as Htb
    by (apply (bool_decide_unpack _); vm_compute; exact I).
  split; [exact Ht|]. split; [reflexivity|]. split; [exact Hreg|].
  split; [exact Hcf|].
  destruct (proj1 structural_export fresh_table (λ _, []) fresh_logger
              logs_of_scenario Ht eq_refl Hreg Hcf) as (Hlog & Hdict & Hrep).
  split; [exact Hlog|]. split; [exact Hdict|]. split; [exact Hrep|].
  split; [reflexivity|].
  exact (proj2 structural_export table_with_branches addr_of_branches
           1%positive 2%positive "a" Htb eq_refl).
Defined.

(** The claim as the specification words it fails where one logged path
    is a directory of another: after [log("v", 5)] and [log("v/b", 2)]
    the export is [{"v": {"b": [2]}}], and the list logged under ["v"]
    is not in it. *)
Lemma export_loses_shadowed_list :
  run_logs fresh_table fresh_logger logs_with_collision = table_with_collision
  ∧ Logger.as_dict 2 table_with_collision fresh_logger
    = Ok {[ "v" := NDict {[ "b" := NList [VInt 2] ]} ]}
  ∧ ¬ reproduces logs_with_collision
        {[ "v" := NDict {[ "b" := NList [VInt 2] ]} ]}.
Proof.
  split; [reflexivity|]. split; [by vm_compute|].
  intros Hrep. specialize (Hrep "v"). simpl in Hrep.
  assert ("v" ∈ logs_with_collision.*1) as Hin by (simpl; set_solver).
  specialize (Hrep Hin). vm_compute in Hrep. discriminate.
Qed.

(** ** The operations of the logger keep the table tree-shaped *)

Section api_tree.

Implicit Types (h : heap) (self : Logger.t) (l c : loc) (p : string).
Implicit Types (addr : loc → list string).

Lemma empty_tree_shaped addr : tree_shaped ∅ addr.
Proof. intros l node Hl. by rewrite lookup_empty in Hl. Qed.

Lemma new_tree_shaped h addr :
  tree_shaped h addr → tree_shaped (Logger.new h).2 addr.
Proof.
  intros Ht. apply tree_shaped_intro. intros x key y. simpl.
  rewrite node_at_insert, dom_insert.
  case_decide; simpl; [by rewrite lookup_empty|].
  intros Hc. destruct (tree_shaped_child _ _ _ _ _ Ht Hc). set_solver.
Qed.

Lemma walk_tree_shaped keys :
  ∀ h addr l, tree_shaped h addr →
              ∃ addr', tree_shaped (Logger.walk h l keys).2 addr'.
Proof.
  induction keys as [|key keys IH]; intros h addr l Ht; simpl; [by eauto|].
  destruct (LogNode.children (node_at h l) !! key) as [c|] eqn:Hc.
  - rewrite (setdefault_child_bound _ _ _ _ Hc). by eapply IH.
  - pose proof (setdefault_child_new_tree h addr l key Ht Hc) as Ht1.
    destruct (setdefault_child h l key) as [c h1]. by eapply IH.
Qed.

Lemma traverse_tree_shaped h addr self p create :
  tree_shaped h addr →
  ∃ addr', tree_shaped (Logger._traverse h self p create).2 addr'.
Proof.
  intros Ht. unfold Logger._traverse. case_decide; [by eauto|].
  destruct (negb create && negb (Logger.__contains__ h self p)); [by eauto|].
  destruct (walk_tree_shaped (Str.split None p) h addr (Logger._root self) Ht)
    as [addr' Ht'].
  exists addr'. by destruct (Logger.walk _ _ _).
Qed.

Lemma make_child_tree_shaped h addr self p :
  tree_shaped h addr →
  ∃ addr', tree_shaped (Logger.make_child h self p).2 addr'.
Proof.
  intros Ht. unfold Logger.make_child.
  destruct (traverse_tree_shaped h addr self p true Ht) as [addr' Ht'].
  exists addr'. by destruct (Logger._traverse h self p true) as [[n|e] h1].
Qed.

Lemma do_data_op_tree_shaped {A} h addr self p
    (op : list value → list value * A) create :
  tree_shaped h addr →
  ∃ addr', tree_shaped (Logger._do_data_op h self p op create).2 addr'.
Proof.
  intros Ht. unfold Logger._do_data_op. destruct (_rsplit_vpath p) as [dir key].
  destruct (traverse_tree_shaped h addr self dir create Ht) as [addr' Ht'].
  exists addr'. destruct (Logger._traverse h self dir create) as [[n|e] h1];
    [|done].
  simpl in *. destruct create; simpl.
  - destruct (op _) as [lst' r]. by apply tree_shaped_set_data.
  - destruct (LogNode.data (node_at h1 n) !! key) as [lst|]; [|done].
    destruct (op lst) as [lst' r]. by apply tree_shaped_set_data.
Qed.

Lemma log_tree_shaped h addr self (args : list value) :
  tree_shaped h addr → ∃ addr', tree_shaped (Logger.log h self args).2 addr'.
Proof.
  assert (∀ items h addr, tree_shaped h addr →
            ∃ addr', tree_shaped (Logger._log_vpaths_vals h self items).2 addr')
    as Hitems.
  { induction items as [|[vpath val] items IH]; intros h0 addr0 Ht0; simpl;
      [by eauto|].
    destruct (do_data_op_tree_shaped h0 addr0 self vpath
                (if is_iterable val then Logger.list_extend val
                 else Logger.list_append val) true Ht0) as [addr1 Ht1].
    destruct (Logger._do_data_op _ _ _ _ _) as [[r|e] h1]; by eauto. }
  intros Ht. unfold Logger.log.
  destruct args as [|a0 [|a1 [|a2 rest]]]; [by eauto| | |by eauto].
  - destruct a0; by eauto.
  - destruct a0; by eauto.
Qed.

Lemma clear_dom fuel :
  ∀ h l h', LogNodeOps.clear fuel h l = Ok h' → dom h ⊆ dom h'.
Proof.
  induction fuel as [|fuel IH]; intros h l h'; [done|].
  rewrite clear_S, map_fold_foldr.
  generalize (map_to_list (LogNode.children (node_at h l))). intros kcs.
  assert (∀ hr, foldr (uncurry (clear_step (LogNodeOps.clear fuel))) (Ok h) kcs
                = Ok hr → dom h ⊆ dom hr) as Hfold.
  { induction kcs as [|[key c] kcs IHk]; intros hr; simpl.
    - by intros [= <-].
    - unfold clear_step at 1.
      destruct (foldr _ _ kcs) as [h1|e] eqn:Hf; simpl; [|done].
      intros Hc%IH. etrans; [by apply IHk | done]. }
  destruct (foldr _ _ kcs) as [hr|e] eqn:Hf; simpl; [|done].
  intros [= <-]. unfold set_data. rewrite dom_insert.
  specialize (Hfold hr eq_refl). set_solver.
Qed.

Lemma clear_tree_shaped fuel h addr self h' :
  tree_shaped h addr → Logger.clear fuel h self = Ok h' → tree_shaped h' addr.
Proof.
  intros Ht Hc. unfold Logger.clear in Hc.
  destruct (clears_total h addr (Logger._root self) Ht)
    as (h'' & [depth Hd] & Hch & _).
  specialize (Hd (depth `max` fuel) ltac:(lia)).
  rewrite (clear_mono_le fuel (depth `max` fuel) _ _ _ ltac:(lia) Hc) in Hd.
  injection Hd as <-.
  apply tree_shaped_intro. intros x key y. rewrite Hch. intros Hy.
  destruct (tree_shaped_child _ _ _ _ _ Ht Hy) as [Hdom Ha].
  split; [|done]. by apply (clear_dom _ _ _ _ Hc).
Qed.

(** Every table the operations of the logger build is tree-shaped. *)
Lemma built_tree_shaped h : built h → ∃ addr, tree_shaped h addr.
Proof.
  induction 1 as [|h _ [addr Ht]|h self p create _ [addr Ht]
                  |h self p _ [addr Ht]|h self p _ [addr Ht]
                  |h self p d _ [addr Ht]|h self args _ [addr Ht]
                  |fuel h self h' _ [addr Ht] Hc].
  - exists (λ _, []). apply empty_tree_shaped.
  - exists addr. by apply new_tree_shaped.
  - by eapply traverse_tree_shaped.
  - by eapply make_child_tree_shaped.
  - by eapply do_data_op_tree_shaped.
  - rewrite get_unchanged. by eauto.
  - by eapply log_tree_shaped.
  - exists addr. by eapply clear_tree_shaped.
Qed.

End api_tree.

(** ** The tests of the repository

    The cases of [tests/test_logger.py], evaluated on the model.  The
    fixture [logger] is a newly built logger, [child_logger] is
    [logger.make_child('child')]. *)

Example child_logger_fixture :
  Logger.make_child fresh_table fresh_logger "child"
  = (Ok fresh_child_logger, table_with_child).
Proof. by vm_compute. Qed.

Example test_making_child_creates_one_at_correct_location :
  ∃ child h1,
    Logger.make_child fresh_table fresh_logger "1/2/3" = (Ok child, h1)
    ∧ Logger._traverse h1 fresh_logger "1/2/3" false
      = (Ok (Logger._root child), h1).
Proof. eexists _, _. split; by vm_compute. Qed.

Example test_getitem_returns_correct_data :
  let h1 := set_data table_with_child (Logger._root fresh_child_logger)
              {[ "vals" := [VInt 1] ]} in
  Logger.__getitem__ h1 fresh_logger "child/vals" = (Ok [VInt 1], h1)
  ∧ Logger.__getitem__ h1 fresh_child_logger "vals" = (Ok [VInt 1], h1).
Proof. by vm_compute. Qed.

Example test_getitem_raises_keyerror_for_invalid_datakey :
  let h := table_with_child in
  Logger.__getitem__ h fresh_logger EmptyString = (Raise KeyError, h)
  ∧ Logger.__getitem__ h fresh_logger "child" = (Raise KeyError, h)
  ∧ Logger.__getitem__ h fresh_logger "child/" = (Raise KeyError, h)
  ∧ Logger.__getitem__ h fresh_logger "child/nonexistent"
    = (Raise KeyError, h).
Proof. by vm_compute. Qed.

Example test_get_returns_default_on_nonexisting_item :
  let h := table_with_child in
  Logger.get h fresh_logger "child/vals" VNone = (Ok VNone, h)
  ∧ Logger.get h fresh_child_logger "vals" VNone = (Ok VNone, h)
  ∧ Logger.get h fresh_logger "child/vals" (VList [VInt 2])
    = (Ok (VList [VInt 2]), h)
  ∧ Logger.get h fresh_child_logger "vals" (VList [VInt 3])
    = (Ok (VList [VInt 3]), h).
Proof. by vm_compute. Qed.

Example test_logging_single_value_appends_it_to_data :
  let h1 := (Logger.log fresh_table fresh_logger [VStr "vals"; VInt 1]).2 in
  let h2 := (Logger.log h1 fresh_logger [VStr "vals"; VInt 2]).2 in
  Logger.get h1 fresh_logger "vals" VNone = (Ok (VList [VInt 1]), h1)
  ∧ Logger.get h2 fresh_logger "vals" VNone
    = (Ok (VList [VInt 1; VInt 2]), h2).
Proof. by vm_compute. Qed.

Example test_logging_in_child_is_visible_in_parent :
  let h1 := (Logger.log table_with_child fresh_child_logger
               [VStr "vals"; VInt 1]).2 in
  Logger.get h1 fresh_logger "child/vals" VNone = (Ok (VList [VInt 1]), h1).
Proof. by vm_compute. Qed.

Example test_logging_in_parent_at_correct_location_is_visible_in_child :
  let h1 := (Logger.log table_with_child fresh_logger
               [VStr "child/vals"; VInt 1]).2 in
  Logger.get h1 fresh_child_logger "vals" VNone = (Ok (VList [VInt 1]), h1).
Proof. by vm_compute. Qed.

Example test_logging_multiple_values_extends_data :
  let h1 := (Logger.log fresh_table fresh_logger
               [VStr "vals"; VList [VInt 1; VInt 2; VInt 3]]).2 in
  let h2 := (Logger.log h1 fresh_logger
               [VStr "vals"; VList [VInt 4; VInt 5; VInt 6]]).2 in
  Logger.get h1 fresh_logger "vals" VNone
  = (Ok (VList [VInt 1; VInt 2; VInt 3]), h1)
  ∧ Logger.get h2 fresh_logger "vals" VNone
    = (Ok (VList [VInt 1; VInt 2; VInt 3; VInt 4; VInt 5; VInt 6]), h2).
Proof. by vm_compute. Qed.

Example test_as_dict :
  let h0 := table_with_child in
  let h1 := (Logger.log h0 fresh_logger [VStr "vals"; VInt 1]).2 in
  let h2 := (Logger.log h1 fresh_logger [VStr "child/vals"; VInt 2]).2 in
  Logger.as_dict 2 h0 fresh_logger = Ok ∅
  ∧ Logger.as_dict 2 h0 fresh_child_logger = Ok ∅
  ∧ Logger.as_dict 2 h1 fresh_logger = Ok {[ "vals" := NList [VInt 1] ]}
  ∧ Logger.as_dict 2 h1 fresh_child_logger = Ok ∅
  ∧ Logger.as_dict 2 h2 fresh_logger
    = Ok {[ "vals" := NList [VInt 1];
            "child" := NDict {[ "vals" := NList [VInt 2] ]} ]}
  ∧ Logger.as_dict 2 h2 fresh_child_logger
    = Ok {[ "vals" := NList [VInt 2] ]}.
Proof. by vm_compute. Qed.

Example test_clear_parent_removes_data_from_child :
  let h1 := (Logger.log table_with_child fresh_child_logger
               [VStr "vals"; VInt 1]).2 in
  ∃ h2, Logger.clear 2 h1 fresh_logger = Ok h2
        ∧ Logger.as_dict 2 h2 fresh_child_logger = Ok ∅.
Proof. eexists. split; by vm_compute. Qed.

Example test_clear_child_does_not_remove_data_from_parent :
  let h1 := (Logger.log table_with_child fresh_logger
               [VStr "vals"; VInt 1]).2 in
  ∃ h2, Logger.clear 2 h1 fresh_child_logger = Ok h2
        ∧ Logger.as_dict 2 h2 fresh_logger
          = Ok {[ "vals" := NList [VInt 1] ]}.
Proof. eexists. split; by vm_compute. Qed.

(** * Further properties of the code *)

(** ** Path splitting: where the cut falls *)

(** X1.  [_split_vpath] cuts at the first separator and [_rsplit_vpath]
    at the last: joining two strings and splitting again gives them
    back, provided the first one (for [_split_vpath]) or the second one
    (for [_rsplit_vpath]) holds no separator. *)
Theorem split_vpath_of_join (a b : string) :
  (Str.has_sep a = false → _split_vpath (Str.join2 a b) = (a, b))
  ∧ (Str.has_sep b = false → _rsplit_vpath (Str.join2 a b) = (a, b)).
Proof.
  split; intros Hs.
  - unfold _split_vpath. by rewrite split_one_join.
  - by apply rsplit_vpath_join.
Qed.

Lemma split_vpath_of_join_witness :
  _split_vpath (Str.join2 "foo" "bar/baz") = ("foo", "bar/baz")
  ∧ _rsplit_vpath (Str.join2 "foo/bar" "baz") = ("foo/bar", "baz").
Proof.
  split.
  - apply (split_vpath_of_join "foo" "bar/baz"). reflexivity.
  - apply (split_vpath_of_join "foo/bar" "baz"). reflexivity.
Defined.

(** X2.  The first component of [_split_vpath] and the second component
    of [_rsplit_vpath] never hold a separator. *)
Theorem split_vpath_bare_component (p : string) :
  Str.has_sep (_split_vpath p).1 = false
  ∧ Str.has_sep (_rsplit_vpath p).2 = false.
Proof.
  destruct (Str.has_sep p) eqn:Hp.
  - unfold _split_vpath, _rsplit_vpath.
    destruct (split_one_sep p Hp) as (a & b & -> & _ & Ha).
    destruct (rsplit_one_sep p Hp) as (a' & b' & -> & _ & Hb').
    done.
  - unfold _split_vpath, _rsplit_vpath.
    by rewrite split_no_sep, rsplit_no_sep.
Qed.

(** ** Traversal and reading: outcomes *)

Section outcomes.

Implicit Types (h : heap) (self : Logger.t) (l c n m : loc).
Implicit Types (p dir key : string) (keys : list string).

Lemma walk_app h l keys1 keys2 :
  Logger.walk h l (keys1 ++ keys2)
  = Logger.walk (Logger.walk h l keys1).2 (Logger.walk h l keys1).1 keys2.
Proof.
  revert h l. induction keys1 as [|key keys1 IH]; intros h l; simpl; [done|].
  destruct (setdefault_child h l key) as [c h1]. apply IH.
Qed.

(** The directory of a contained path leads to a node. *)
Lemma contains_dir_node h self p :
  Logger.__contains__ h self p = true →
  ∃ n, Logger.descend h (Logger._root self) (path_keys (_rsplit_vpath p).1)
       = Some n.
Proof.
  intros Hc.
  destruct (rsplit_vpath_cases p) as [[_ ->]|(dir & key & -> & Hk & ->)].
  - by eexists.
  - simpl. unfold path_keys. case_decide; [by eexists|].
    by eapply contains_dir.
Qed.

(** What [__getitem__] does once its directory leads to a node without
    creation. *)
Lemma getitem_at_node h self p n :
  Logger.descend h (Logger._root self) (path_keys (_rsplit_vpath p).1) = Some n →
  Logger.__getitem__ h self p
  = (match LogNode.data (node_at h n) !! (_rsplit_vpath p).2 with
     | Some lst => Ok lst
     | None => Raise KeyError
     end, h).
Proof.
  intros Hd. unfold Logger.__getitem__, Logger._do_data_op.
  destruct (_rsplit_vpath p) as [dir key]. simpl in *.
  rewrite (traverse_existing _ _ _ _ _ Hd). simpl.
  destruct (LogNode.data (node_at h n) !! key) as [lst|] eqn:Hk; [|done].
  by rewrite set_data_id.
Qed.

End outcomes.

(** X3.  [get] never changes the table and raises nothing but
    [KeyError].  On a path that is not contained it returns the default;
    on a contained path it returns the list bound to the data key in the
    node the directory leads to, and raises [KeyError] when that node
    has no such data key. *)
Theorem get_outcomes (h : heap) (self : Logger.t) (p : string) (d : value) :
  (Logger.get h self p d).2 = h
  ∧ (Logger.__contains__ h self p = false → Logger.get h self p d = (Ok d, h))
  ∧ (Logger.__contains__ h self p = true →
     ∃ n, Logger.descend h (Logger._root self)
            (path_keys (_rsplit_vpath p).1) = Some n
        ∧ Logger.get h self p d
          = (match LogNode.data (node_at h n) !! (_rsplit_vpath p).2 with
             | Some lst => Ok (VList lst)
             | None => Raise KeyError
             end, h)).
Proof.
  split; [apply get_unchanged|]. split; [apply get_absent_default|].
  intros Hc. destruct (contains_dir_node h self p Hc) as [n Hn].
  exists n. split; [done|]. unfold Logger.get.
  rewrite Hc, (getitem_at_node _ _ _ _ Hn).
  by destruct (LogNode.data (node_at h n) !! _).
Qed.

Lemma get_outcomes_witness :
  Logger.get table_with_child fresh_logger "nowhere" VNone
  = (Ok VNone, table_with_child)
  ∧ ∃ n, Logger.descend table_with_data (Logger._root fresh_logger)
           (path_keys (_rsplit_vpath "v").1) = Some n
       ∧ Logger.get table_with_data fresh_logger "v" VNone
         = (match LogNode.data (node_at table_with_data n)
                    !! (_rsplit_vpath "v").2 with
            | Some lst => Ok (VList lst)
            | None => Raise KeyError
            end, table_with_data).
Proof.
  split.
  - apply (get_outcomes table_with_child fresh_logger "nowhere" VNone).
    reflexivity.
  - apply (get_outcomes table_with_data fresh_logger "v" VNone).
    reflexivity.
Defined.

(** The two outcomes of [__getitem__]. *)
Lemma getitem_cases
    (h : heap) (self : Logger.t) (p : string)
    (r : result (list value)) (h1 : heap) :
  Logger.__getitem__ h self p = (r, h1) →
  match r with
  | Ok lst =>
      h1 = h
      ∧ ∃ n, Logger.descend h (Logger._root self)
               (path_keys (_rsplit_vpath p).1) = Some n
           ∧ LogNode.data (node_at h n) !! (_rsplit_vpath p).2 = Some lst
  | Raise e => e = KeyError
  end.
Proof.
  destruct (Logger.descend h (Logger._root self)
              (path_keys (_rsplit_vpath p).1)) as [n|] eqn:Hd.
  - rewrite (getitem_at_node _ _ _ _ Hd).
    destruct (LogNode.data (node_at h n) !! _) as [lst|] eqn:Hk;
      intros [= <- <-]; [|done].
    split; [done|]. by exists n.
  - unfold Logger.__getitem__, Logger._do_data_op.
    destruct (_rsplit_vpath p) as [dir key]. simpl in Hd.
    unfold Logger._traverse. unfold path_keys in Hd.
    case_decide as Hdir; [done|].
    destruct (negb false && negb (Logger.__contains__ h self dir));
      [by intros [= <- _]|].
    destruct (Logger.walk h (Logger._root self) (Str.split None dir))
      as [n h'] eqn:Hw.
    simpl. rewrite (walk_new _ _ _ _ _ Hd Hw), lookup_empty.
    by intros [= <- _].
Qed.


(** X4.  [__getitem__] raises nothing but [KeyError], and when it
    returns a list it has not changed the table: the list is the one
    bound to the data key in the node the directory leads to.  The
    child that a traversal without creation may store only ever comes
    with a [KeyError]. *)
Theorem getitem_outcomes
    (h : heap) (self : Logger.t) (p : string)
    (r : result (list value)) (h1 : heap) :
  Logger.__getitem__ h self p = (r, h1) →
  match r with
  | Ok lst =>
      h1 = h
      ∧ ∃ n, Logger.descend h (Logger._root self)
               (path_keys (_rsplit_vpath p).1) = Some n
           ∧ LogNode.data (node_at h n) !! (_rsplit_vpath p).2 = Some lst
  | Raise e => e = KeyError
  end.
Proof. apply getitem_cases. Qed.

Lemma getitem_outcomes_witness :
  Logger.__getitem__ table_with_data fresh_logger "v"
  = (Ok [VInt 5], table_with_data)
  ∧ (table_with_data = table_with_data
   ∧ ∃ n, Logger.descend table_with_data (Logger._root fresh_logger)
            (path_keys (_rsplit_vpath "v").1) = Some n
        ∧ LogNode.data (node_at table_with_data n) !! (_rsplit_vpath "v").2
          = Some [VInt 5])
  ∧ KeyError = KeyError.
Proof.
  split; [reflexivity|]. split.
  - exact (getitem_outcomes table_with_data fresh_logger "v"
             (Ok [VInt 5]) table_with_data eq_refl).
  - exact (getitem_outcomes table_with_data fresh_logger "v/x"
             (Raise KeyError)
             (Logger.__getitem__ table_with_data fresh_logger "v/x").2
             eq_refl).
Defined.

(** X5.  Without creation [_traverse] changes the table in exactly one
    case: the keys before the last lead to a node that binds the last
    key in [data] and not in [children].  Then it returns a new node
    and stores it as a child under that key; in every other case the
    table is left as it was. *)
Theorem traverse_no_create_exact (h : heap) (self : Logger.t) (p : string) :
  let dir_keys := removelast (Str.split None p) in
  let last_key := List.last (Str.split None p) EmptyString in
  let shadowed m :=
    Logger.descend h (Logger._root self) dir_keys = Some m
    ∧ LogNode.children (node_at h m) !! last_key = None
    ∧ is_Some (LogNode.data (node_at h m) !! last_key) in
  ((Logger._traverse h self p false).2 = h ∨ ∃ m, shadowed m)
  ∧ ∀ m, p ≠ EmptyString → shadowed m →
         ∃ c h1, Logger._traverse h self p false = (Ok c, h1)
                 ∧ (c ∉ dom h)
                 ∧ LogNode.children (node_at h1 m) !! last_key = Some c.
Proof.
  simpl. split.
  - destruct (Logger._traverse h self p false) as [r h1] eqn:Ht.
    by apply (traverse_no_create_cases h self p r h1).
  - intros m Hp (Hm & Hc & Hdata).
    unfold Logger._traverse, Logger.__contains__.
    rewrite !decide_False by done. rewrite Hm, Hc.
    rewrite (bool_decide_true _ Hdata). simpl.
    assert (Logger.walk h (Logger._root self) (Str.split None p)
            = setdefault_child h m
                (List.last (Str.split None p) EmptyString)) as ->.
    { transitivity (Logger.walk h (Logger._root self)
                      (removelast (Str.split None p)
                       ++ [List.last (Str.split None p) EmptyString])).
      - f_equal. apply segments_snoc_keys.
      - rewrite walk_app, (walk_descend _ _ _ _ Hm). simpl.
        by destruct (setdefault_child h m _). }
    unfold setdefault_child. rewrite Hc. simpl.
    eexists _, _. split; [done|]. split; [apply new_loc_fresh|].
    unfold set_children. rewrite node_at_insert_eq. simpl.
    by rewrite lookup_insert_eq.
Qed.

Lemma traverse_no_create_exact_witness :
  ∃ c h1, Logger._traverse table_with_data fresh_logger "v" false = (Ok c, h1)
          ∧ (c ∉ dom table_with_data)
          ∧ LogNode.children (node_at h1 (Logger._root fresh_logger))
              !! List.last (Str.split None "v") EmptyString = Some c.
Proof.
  apply (proj2 (traverse_no_create_exact table_with_data fresh_logger "v")
           (Logger._root fresh_logger)).
  - discriminate.
  - split; [reflexivity|]. split; [reflexivity|]. by eexists.
Defined.

(** X6.  After a traversal with creation the path is contained, and a
    traversal without creation returns the same node and changes
    nothing. *)
Theorem traverse_create_then_lookup (h : heap) (self : Logger.t) (p : string) :
  ∃ n h1,
    Logger._traverse h self p true = (Ok n, h1)
    ∧ Logger.__contains__ h1 self p = true
    ∧ Logger._traverse h1 self p false = (Ok n, h1).
Proof.
  rewrite traverse_create.
  destruct (Logger.walk h (Logger._root self) (path_keys p)) as [n h1] eqn:Hw.
  destruct (walk_spec _ _ _ _ _ Hw) as [Hd _].
  exists n, h1. split; [done|]. split.
  - by eapply contains_descend.
  - by apply traverse_existing.
Qed.

(** ** Logging: what it keeps *)

Section log_keeps.

Implicit Types (h : heap) (self : Logger.t) (l c n m x : loc).
Implicit Types (p q dir key k : string) (keys : list string).

(** [log_one] keeps every child of every node and every data key. *)
Lemma log_one_keeps h self p (val : value) x k :
  (∀ c, LogNode.children (node_at h x) !! k = Some c →
        LogNode.children (node_at (log_one h self p val) x) !! k = Some c)
  ∧ (is_Some (LogNode.data (node_at h x) !! k) →
     is_Some (LogNode.data (node_at (log_one h self p val) x) !! k)).
Proof.
  unfold log_one. destruct (_rsplit_vpath p) as [dir key].
  destruct (Logger.walk _ _ _) as [n h1] eqn:Hw.
  destruct (walk_spec _ _ _ _ _ Hw) as [_ Hext]. split.
  - intros c Hc. rewrite children_set_data. by eapply extends_child.
  - destruct (Hext x) as [Hdata _]. rewrite <-Hdata.
    destruct (decide (n = x)) as [->|Hne].
    + rewrite data_set_data_eq, lookup_insert. by case_decide.
    + by rewrite data_set_data_ne.
Qed.

Lemma contains_log_one h self p (val : value) q :
  Logger.__contains__ h self q = true →
  Logger.__contains__ (log_one h self p val) self q = true.
Proof.
  unfold Logger.__contains__. case_decide; [done|].
  destruct (Logger.descend h _ _) as [m|] eqn:Hm; [|done].
  rewrite (descend_log_one _ _ _ _ _ _ _ Hm).
  intros [Hc|Hd]%orb_true_iff.
  - apply bool_decide_eq_true in Hc as [c Hc].
    rewrite bool_decide_true; [done|].
    exists c. by apply log_one_keeps.
  - apply bool_decide_eq_true in Hd.
    rewrite (bool_decide_true (is_Some (LogNode.data _ !! _)));
      [apply orb_true_r|].
    by apply log_one_keeps.
Qed.

Lemma contains_logged h self p (val : value) :
  regular p → Logger.__contains__ (log_one h self p val) self p = true.
Proof.
  intros Hreg. destruct (_rsplit_vpath p) as [dir key] eqn:Hp.
  destruct (log_one_lookup h self p dir key val Hp) as (n & Hd & Hk).
  by eapply contains_found.
Qed.

End log_keeps.

(** X7.  Logging never makes a contained path absent: whatever is
    logged, and wherever, every path that was contained still is; and
    the logged path itself is contained afterwards when it is
    regular. *)
Theorem log_keeps_contained
    (h : heap) (self : Logger.t) (p : string) (val : value) (q : string) :
  Logger.__contains__ h self q = true →
  ∃ h1, Logger.log h self [VStr p; val] = (Ok tt, h1)
        ∧ Logger.__contains__ h1 self q = true
        ∧ (regular p → Logger.__contains__ h1 self p = true).
Proof.
  intros Hq. exists (log_one h self p val).
  split; [apply log_path_value|].
  split; [by apply contains_log_one | apply contains_logged].
Qed.

Lemma log_keeps_contained_witness :
  Logger.__contains__ table_with_data fresh_logger "v" = true
  ∧ ∃ h1, Logger.log table_with_data fresh_logger [VStr "v/b"; VInt 2]
          = (Ok tt, h1)
          ∧ Logger.__contains__ h1 fresh_logger "v" = true
          ∧ (regular "v/b" → Logger.__contains__ h1 fresh_logger "v/b" = true).
Proof.
  split; [reflexivity|].
  apply (log_keeps_contained table_with_data fresh_logger "v/b" (VInt 2) "v").
  reflexivity.
Defined.

(** X8.  Child loggers compose: the child made at [q] from the child
    made at [p] is the child made at [p/q] from the parent, node and
    table alike, for non-empty [p] and [q]. *)
Theorem make_child_compose (h : heap) (self : Logger.t) (p q : string) :
  p ≠ EmptyString → q ≠ EmptyString →
  ∃ c1 h1 c2 h2,
    Logger.make_child h self p = (Ok c1, h1)
    ∧ Logger.make_child h1 c1 q = (Ok c2, h2)
    ∧ Logger.make_child h self (Str.join2 p q) = (Ok c2, h2).
Proof.
  intros Hp Hq.
  destruct (make_child_spec h self p) as (n1 & h1 & Hm1 & Hw1).
  destruct (make_child_spec h1 (Logger.mk n1) q) as (n2 & h2 & Hm2 & Hw2).
  exists (Logger.mk n1), h1, (Logger.mk n2), h2.
  split; [done|]. split; [done|].
  destruct (make_child_spec h self (Str.join2 p q)) as (n & h' & -> & Hw).
  rewrite (path_keys_nonempty _ (join2_nonempty p q)), split_all_join in Hw.
  rewrite <-(path_keys_nonempty p Hp), <-(path_keys_nonempty q Hq) in Hw.
  rewrite walk_app, Hw1 in Hw. simpl in *. rewrite Hw2 in Hw.
  by injection Hw as <- <-.
Qed.

Lemma make_child_compose_witness :
  ∃ c1 h1 c2 h2,
    Logger.make_child fresh_table fresh_logger "a" = (Ok c1, h1)
    ∧ Logger.make_child h1 c1 "b/c" = (Ok c2, h2)
    ∧ Logger.make_child fresh_table fresh_logger (Str.join2 "a" "b/c")
      = (Ok c2, h2).
Proof.
  apply (make_child_compose fresh_table fresh_logger "a" "b/c");
    discriminate.
Defined.

(** X9.  On a tree-shaped table, logging under one path leaves the list
    of every path with another address as it was: [__getitem__] returns
    the same list before and after. *)
Theorem log_leaves_other_lists
    (h : heap) (addr : loc → list string) (self : Logger.t)
    (p q : string) (val : value) (lst : list value) :
  tree_shaped h addr →
  address p ≠ address q →
  (Logger.__getitem__ h self q).1 = Ok lst →
  ∃ h1, Logger.log h self [VStr p; val] = (Ok tt, h1)
        ∧ Logger.__getitem__ h1 self q = (Ok lst, h1).
Proof.
  intros Ht Hpq Hg. exists (log_one h self p val).
  split; [apply log_path_value|].
  destruct (Logger.__getitem__ h self q) as [r h0] eqn:Hq. simpl in Hg.
  subst r. apply getitem_cases in Hq as (_ & n2 & Hd2 & Hk2).
  unfold address in Hpq. unfold log_one.
  destruct (_rsplit_vpath p) as [dir1 k1]. simpl in Hpq.
  destruct (walk_tree_shaped (path_keys dir1) h addr (Logger._root self) Ht)
    as [addr' Ht'].
  destruct (Logger.walk h (Logger._root self) (path_keys dir1))
    as [n h'] eqn:Hw.
  destruct (walk_spec _ _ _ _ _ Hw) as [Hd1 Hext]. simpl in Ht'.
  pose proof (descend_extends _ _ _ _ _ Hext Hd2) as Hd2'.
  apply (getitem_found _ _ q (_rsplit_vpath q).1 (_rsplit_vpath q).2 n2).
  - by destruct (_rsplit_vpath q).
  - simpl. by rewrite descend_set_data.
  - simpl. destruct (Hext n2) as [Hdata _].
    destruct (decide (n = n2)) as [->|Hne].
    + rewrite data_set_data_eq, lookup_insert_ne, Hdata; [done|].
      intros Heq. apply Hpq. rewrite Heq. f_equal.
      pose proof (descend_addr _ _ _ _ _ Ht' Hd1) as Ha1.
      pose proof (descend_addr _ _ _ _ _ Ht' Hd2') as Ha2.
      rewrite Ha1 in Ha2. by apply app_inv_head in Ha2.
    + by rewrite data_set_data_ne, Hdata.
Qed.

Lemma log_leaves_other_lists_witness :
  tree_shaped table_with_branches addr_of_branches
  ∧ address "a/w" ≠ address "a/v"
  ∧ (Logger.__getitem__ table_with_branches fresh_logger "a/v").1
    = Ok [VInt 1]
  ∧ ∃ h1, Logger.log table_with_branches fresh_logger [VStr "a/w"; VInt 9]
          = (Ok tt, h1)
          ∧ Logger.__getitem__ h1 fresh_logger "a/v" = (Ok [VInt 1], h1).
Proof.
  assert (tree_shaped table_with_branches addr_of_branches) as Ht
    by (apply (bool_decide_unpack _); vm_compute; exact I).
  assert (address "a/w" ≠ address "a/v") as Hne by discriminate.
  split; [exact Ht|]. split; [exact Hne|]. split; [reflexivity|].
  apply (log_leaves_other_lists table_with_branches addr_of_branches
           fresh_logger "a/w" "a/v" (VInt 9) [VInt 1] Ht Hne).
  reflexivity.
Defined.

(** ** Child loggers and the export *)

Section child_export.

Implicit Types (h : heap) (self : Logger.t) (l c n m x : loc).
Implicit Types (p key k : string) (keys : list string).
Implicit Types (mc : gmap string nested) (addr : loc → list string).

(** Below one child of [l] something changed, but the child exports
    what it did; nothing else allocated changed.  Then [l] exports what
    it did. *)
Lemma parses_child_unchanged h h' addr l k c (m : gmap string nested) mc :
  tree_shaped h addr →
  LogNode.children (node_at h l) !! k = Some c →
  parses h l m →
  (∀ x, x ∈ dom h → ¬ reach h c x → node_at h' x = node_at h x) →
  parses h c mc → parses h' c mc →
  parses h' l m.
Proof.
  intros Ht Hc Hm Hframe Hmc Hmc'.
  assert (node_at h' l = node_at h l) as Hl.
  { apply Hframe; [by eapply has_child_dom | by eapply tree_no_cycle]. }
  assert (∀ key c0 mc0, LogNode.children (node_at h l) !! key = Some c0 →
                        parses h c0 mc0 → parses h' c0 mc0) as Hsib.
  { intros key c0 mc0 Hc0 Hp0. destruct (decide (key = k)) as [->|Hkey].
    - simplify_eq. by rewrite (parses_fun _ _ _ _ Hp0 Hmc).
    - by eapply (parses_sibling h h' addr l k key). }
  destruct (parses_node h' l) as [m' Hm'].
  { rewrite Hl. intros key c0 Hc0.
    destruct (parses_child _ _ _ _ _ Hm Hc0) as [mc0 Hmc0]. by eauto. }
  replace m with m'; [done|]. apply map_eq. intros key.
  destruct (LogNode.children (node_at h l) !! key) as [c0|] eqn:Hc0.
  - destruct (parses_child _ _ _ _ _ Hm Hc0) as [mc0 Hmc0].
    rewrite (parses_lookup_child h' l m' key c0 mc0);
      [|done|by rewrite Hl|by eauto].
    by rewrite (parses_lookup_child h l m key c0 mc0), Hl.
  - rewrite (parses_lookup_no_child h' l m' key) by (by rewrite ?Hl).
    by rewrite (parses_lookup_no_child h l m key), Hl.
Qed.

(** The loop of [_traverse] leaves the export of the node it starts
    from as it was, and the table tree-shaped. *)
Lemma walk_parses keys :
  ∀ h addr l (m : gmap string nested),
    tree_shaped h addr → parses h l m →
    parses (Logger.walk h l keys).2 l m
    ∧ (∃ addr', tree_shaped (Logger.walk h l keys).2 addr')
    ∧ (∀ x, x ∈ dom h → ¬ reach h l x →
            node_at (Logger.walk h l keys).2 x = node_at h x).
Proof.
  induction keys as [|k rest IH]; intros h addr l m Ht Hm; simpl.
  - split; [done|]. split; [by eauto | done].
  - destruct (setdefault_child h l k) as [c h1] eqn:Hsd.
    destruct (setdefault_child_parses _ _ _ _ _ _ _ Ht Hm Hsd)
      as ([addr1 Ht1] & Hc & Hm1 & Hmc & Hfr1).
    destruct (IH h1 addr1 c _ Ht1 Hmc) as (Hp & Ht' & Hfr).
    split; [|split; [done|]].
    + eapply parses_child_unchanged; [exact Ht1|exact Hc|exact Hm1| |exact Hmc|exact Hp].
      intros x Hx Hcx. by apply Hfr.
    + intros x Hx Hlx. destruct (Hfr1 x Hx Hlx) as (<- & Hx1 & Hcx).
      by apply Hfr.
Qed.

(** Where the keys did not lead to a node, the node the loop ends on was
    never written to. *)
Lemma walk_from_blank_node h l keys n h' :
  node_at h l = LogNode.empty →
  Logger.walk h l keys = (n, h') → node_at h' n = LogNode.empty.
Proof.
  revert h l. induction keys as [|key keys IH]; intros h l Hl; simpl.
  - by intros [= <- <-].
  - assert (LogNode.children (node_at h l) !! key = None) as Hc
      by (by rewrite Hl).
    pose proof (setdefault_child_new _ _ _ Hc) as Hnew.
    destruct (setdefault_child h l key) as [c h1]. by apply IH.
Qed.

Lemma walk_new_node h l keys n h' :
  Logger.descend h l keys = None →
  Logger.walk h l keys = (n, h') → node_at h' n = LogNode.empty.
Proof.
  revert h l. induction keys as [|key keys IH]; intros h l; simpl; [done|].
  destruct (LogNode.children (node_at h l) !! key) as [c|] eqn:Hc.
  - rewrite (setdefault_child_bound _ _ _ _ Hc). apply IH.
  - intros _. pose proof (setdefault_child_new _ _ _ Hc) as Hnew.
    destruct (setdefault_child h l key) as [c h1].
    by apply walk_from_blank_node.
Qed.

End child_export.

(** X10.  On a tree-shaped table, making a child logger does not change
    what [as_dict] returns on the parent; and a child made at a path
    that did not lead to a node exports the empty mapping. *)
Theorem make_child_keeps_export
    (h : heap) (addr : loc → list string) (self : Logger.t) (p : string) :
  tree_shaped h addr →
  ∃ child h1 m,
    Logger.make_child h self p = (Ok child, h1)
    ∧ (∃ depth, ∀ fuel, depth ≤ fuel → Logger.as_dict fuel h self = Ok m)
    ∧ (∃ depth, ∀ fuel, depth ≤ fuel → Logger.as_dict fuel h1 self = Ok m)
    ∧ (Logger.descend h (Logger._root self) (path_keys p) = None →
       ∃ depth, ∀ fuel, depth ≤ fuel → Logger.as_dict fuel h1 child = Ok ∅).
Proof.
  intros Ht.
  destruct (make_child_spec h self p) as (c & h1 & Hmk & Hw).
  destruct (parses_total h addr (Logger._root self) Ht) as [m Hm].
  destruct (walk_parses (path_keys p) h addr (Logger._root self) m Ht Hm)
    as (Hm1 & _ & _).
  rewrite Hw in Hm1. exists (Logger.mk c), h1, m.
  split; [done|]. split; [exact Hm|]. split; [exact Hm1|].
  intros Hd. apply parses_blank. by eapply walk_new_node.
Qed.

Lemma make_child_keeps_export_witness :
  tree_shaped table_with_data (λ _, [])
  ∧ ∃ child h1 m,
      Logger.make_child table_with_data fresh_logger "child" = (Ok child, h1)
      ∧ (∃ depth, ∀ fuel, depth ≤ fuel →
           Logger.as_dict fuel table_with_data fresh_logger = Ok m)
      ∧ (∃ depth, ∀ fuel, depth ≤ fuel →
           Logger.as_dict fuel h1 fresh_logger = Ok m)
      ∧ (Logger.descend table_with_data (Logger._root fresh_logger)
           (path_keys "child") = None →
         ∃ depth, ∀ fuel, depth ≤ fuel → Logger.as_dict fuel h1 child = Ok ∅).
Proof.
  assert (tree_shaped table_with_data (λ _, [])) as Ht
    by (apply (bool_decide_unpack _); vm_compute; exact I).
  split; [exact Ht|].
  exact (make_child_keeps_export table_with_data (λ _, []) fresh_logger
           "child" Ht).
Defined.

(** ** After [clear] *)

Section after_clear.

Implicit Types (h : heap) (self : Logger.t) (l c n m x : loc).
Implicit Types (p key k : string) (keys : list string).
Implicit Types (addr : loc → list string).

Local Arguments LogNodeOps.clear : simpl never.

(** Whatever depth [clear] returned with, its result is as [cleared]
    says. *)
Lemma clear_cleared fuel h addr l h' :
  tree_shaped h addr → LogNodeOps.clear fuel h l = Ok h' → cleared h l h'.
Proof.
  intros Ht Hc.
  destruct (clears_total h addr l Ht) as (h'' & [depth Hd] & Hcl).
  specialize (Hd (depth `max` fuel) ltac:(lia)).
  rewrite (clear_mono_le fuel (depth `max` fuel) _ _ _ ltac:(lia) Hc) in Hd.
  by injection Hd as <-.
Qed.

Lemma clear_root_dom fuel h l h' :
  LogNodeOps.clear fuel h l = Ok h' → l ∈ dom h'.
Proof.
  destruct fuel as [|fuel]; [done|]. rewrite clear_S.
  destruct (map_fold _ _ _) as [hr|e]; simpl; [|done].
  intros [= <-]. unfold set_data. rewrite dom_insert. set_solver.
Qed.

(** Where there is no data to empty and every node is allocated,
    [clear] returns the table it was given. *)
Lemma clear_noop fuel :
  ∀ h l h',
    LogNodeOps.clear fuel h l = Ok h' →
    (∀ x, reach h l x → x ∈ dom h ∧ LogNode.data (node_at h x) = ∅) →
    h' = h.
Proof.
  induction fuel as [|fuel IH]; intros h l h'; [done|].
  rewrite clear_S, map_fold_foldr. intros Hc Hall.
  assert (Forall (λ kc, LogNode.children (node_at h l) !! kc.1 = Some kc.2)
            (map_to_list (LogNode.children (node_at h l)))) as Hkcs.
  { apply Forall_forall. by intros [key c] Hin%elem_of_map_to_list. }
  revert Hc Hkcs.
  generalize (map_to_list (LogNode.children (node_at h l))). intros kcs Hc Hkcs.
  assert (∀ hr, foldr (uncurry (clear_step (LogNodeOps.clear fuel))) (Ok h) kcs
                = Ok hr → hr = h) as Hfold.
  { clear Hc. induction Hkcs as [|[key c] kcs Hkc _ IHk]; intros hr; simpl.
    - by intros [= <-].
    - unfold clear_step at 1.
      destruct (foldr _ _ kcs) as [h1|e] eqn:Hf; simpl; [|done].
      rewrite (IHk h1 eq_refl). intros Hc. apply (IH _ _ _ Hc).
      intros x Hx. apply Hall. by eapply reach_child. }
  destruct (foldr _ _ kcs) as [hr|e] eqn:Hf; simpl in Hc; [|done].
  injection Hc as <-. rewrite (Hfold hr eq_refl).
  destruct (Hall l (reach_refl h l)) as [Hl Hd].
  apply elem_of_dom in Hl as [nd Hnd].
  unfold set_data. apply insert_id. rewrite Hnd. f_equal.
  unfold node_at in *. rewrite Hnd in *. simpl in *.
  destruct nd as [d cs]. simpl in *. by subst d.
Qed.

(** After [clear] no node below the root holds data. *)
Lemma cleared_stored fuel h addr self h' p :
  tree_shaped h addr → Logger.clear fuel h self = Ok h' →
  stored h' self p = [].
Proof.
  intros Ht Hc. destruct (clear_cleared _ _ _ _ _ Ht Hc) as (Hch & Hemp & _).
  unfold stored. destruct (_rsplit_vpath p) as [dir key].
  rewrite (descend_same_children h h' _ _ Hch).
  destruct (Logger.descend h _ _) as [n|] eqn:Hn; [|done].
  rewrite (Hemp n) by (by eexists). by rewrite lookup_empty.
Qed.

End after_clear.

(** X11.  On a tree-shaped table, once [clear] has returned, [as_dict]
    returns the empty mapping on the cleared logger and on every logger
    whose root is below it. *)
Theorem clear_then_export_empty
    (h : heap) (addr : loc → list string) (self : Logger.t)
    (fuel : nat) (h' : heap) (keys : list string) (c : loc) :
  tree_shaped h addr →
  Logger.clear fuel h self = Ok h' →
  Logger.descend h (Logger._root self) keys = Some c →
  ∃ depth, ∀ fuel', depth ≤ fuel' →
           Logger.as_dict fuel' h' (Logger.mk c) = Ok ∅.
Proof.
  intros Ht Hc Hd.
  destruct (clear_cleared _ _ _ _ _ Ht Hc) as (Hch & Hemp & _).
  pose proof (clear_tree_shaped _ _ _ _ _ Ht Hc) as Ht'.
  destruct (parses_total h' addr c Ht') as [m Hm].
  assert (m = ∅) as ->; [|exact Hm].
  apply (parses_empty_iff _ _ _ Hm). intros x Hx.
  apply Hemp. apply (reach_trans _ _ c); [by eexists|].
  by apply (reach_same_children h h' c x Hch).
Qed.

Lemma clear_then_export_empty_witness :
  tree_shaped table_with_branches addr_of_branches
  ∧ (∃ h', Logger.clear 2 table_with_branches fresh_logger = Ok h'
           ∧ ∃ depth, ∀ fuel', depth ≤ fuel' →
                      Logger.as_dict fuel' h' (Logger.mk 2%positive) = Ok ∅).
Proof.
  assert (tree_shaped table_with_branches addr_of_branches) as Ht
    by (apply (bool_decide_unpack _); vm_compute; exact I).
  split; [exact Ht|]. eexists. split; [vm_compute; reflexivity|].
  eapply (clear_then_export_empty table_with_branches addr_of_branches
            fresh_logger 2 _ ["a"] 2%positive Ht); reflexivity.
Defined.

(** X12.  On a tree-shaped table, once [clear] has returned, the
    non-empty paths the logger contains are exactly those whose keys
    all lead through [children]: the hierarchy is still there, and no
    path is contained any more because of a data key. *)
Theorem contains_after_clear
    (h : heap) (addr : loc → list string) (self : Logger.t)
    (fuel : nat) (h' : heap) (p : string) :
  tree_shaped h addr →
  Logger.clear fuel h self = Ok h' →
  p ≠ EmptyString →
  Logger.__contains__ h' self p = true
  ↔ is_Some (Logger.descend h (Logger._root self) (Str.split None p)).
Proof.
  intros Ht Hc Hp.
  destruct (clear_cleared _ _ _ _ _ Ht Hc) as (Hch & Hemp & _).
  unfold Logger.__contains__. rewrite decide_False by done.
  rewrite (descend_same_children h h' _ _ Hch).
  assert (Logger.descend h (Logger._root self) (Str.split None p)
          = m ← Logger.descend h (Logger._root self)
                  (removelast (Str.split None p));
            LogNode.children (node_at h m)
              !! List.last (Str.split None p) EmptyString) as ->.
  { transitivity (Logger.descend h (Logger._root self)
                    (removelast (Str.split None p)
                     ++ [List.last (Str.split None p) EmptyString])).
    - f_equal. apply segments_snoc_keys.
    - rewrite descend_app.
      destruct (Logger.descend h _ (removelast _)) as [m|]; [|done].
      apply descend_singleton. }
  destruct (Logger.descend h _ (removelast _)) as [m|] eqn:Hm; simpl.
  - rewrite Hch, (Hemp m) by (by eexists).
    rewrite lookup_empty, (bool_decide_false (is_Some None)), orb_false_r
      by (by intros [? ?]).
    by rewrite bool_decide_eq_true.
  - split; [done | by intros [? ?]].
Qed.

Lemma contains_after_clear_witness :
  tree_shaped table_with_branches addr_of_branches
  ∧ ∃ h', Logger.clear 2 table_with_branches fresh_logger = Ok h'
          ∧ (Logger.__contains__ h' fresh_logger "a/v" = true
             ↔ is_Some (Logger.descend table_with_branches
                          (Logger._root fresh_logger)
                          (Str.split None "a/v"))).
Proof.
  assert (tree_shaped table_with_branches addr_of_branches) as Ht
    by (apply (bool_decide_unpack _); vm_compute; exact I).
  split; [exact Ht|]. eexists. split; [vm_compute; reflexivity|].
  eapply (contains_after_clear table_with_branches addr_of_branches
            fresh_logger 2 _ "a/v" Ht); [reflexivity | discriminate].
Defined.

(** X13.  [clear] is idempotent: on a tree-shaped table, once [clear]
    has returned a table, [clear] on that table returns the very same
    table. *)
Theorem clear_idempotent
    (h : heap) (addr : loc → list string) (self : Logger.t)
    (fuel : nat) (h' : heap) :
  tree_shaped h addr →
  Logger.clear fuel h self = Ok h' →
  ∃ depth, ∀ fuel', depth ≤ fuel' → Logger.clear fuel' h' self = Ok h'.
Proof.
  intros Ht Hc.
  destruct (clear_cleared _ _ _ _ _ Ht Hc) as (Hch & Hemp & _).
  pose proof (clear_tree_shaped _ _ _ _ _ Ht Hc) as Ht'.
  destruct (clears_total h' addr (Logger._root self) Ht')
    as (h'' & [depth Hd] & _).
  exists depth. intros fuel' Hle. unfold Logger.clear.
  rewrite (Hd fuel' Hle). f_equal.
  apply (clear_noop _ _ _ _ (Hd fuel' Hle)). intros x Hx. split.
  - eapply reach_dom; [exact Ht'| |exact Hx].
    by eapply clear_root_dom.
  - apply Hemp. by apply (reach_same_children h h' _ x Hch).
Qed.

Lemma clear_idempotent_witness :
  tree_shaped table_with_branches addr_of_branches
  ∧ ∃ h', Logger.clear 2 table_with_branches fresh_logger = Ok h'
          ∧ ∃ depth, ∀ fuel', depth ≤ fuel' →
                     Logger.clear fuel' h' fresh_logger = Ok h'.
Proof.
  assert (tree_shaped table_with_branches addr_of_branches) as Ht
    by (apply (bool_decide_unpack _); vm_compute; exact I).
  split; [exact Ht|]. eexists. split; [vm_compute; reflexivity|].
  eapply (clear_idempotent table_with_branches addr_of_branches
            fresh_logger 2 _ Ht). reflexivity.
Defined.

(** X14.  Lists start anew after [clear]: on a tree-shaped table, once
    [clear] has returned, logging a value under a regular path and
    reading the path back gives only what was just logged. *)
Theorem log_after_clear_restarts
    (h : heap) (addr : loc → list string) (self : Logger.t)
    (fuel : nat) (h' : heap) (p : string) (val d : value) :
  tree_shaped h addr →
  Logger.clear fuel h self = Ok h' →
  regular p →
  ∃ h1, Logger.log h' self [VStr p; val] = (Ok tt, h1)
        ∧ Logger.get h1 self p d
          = (Ok (VList (if is_iterable val then iter val else [val])), h1).
Proof.
  intros Ht Hc Hreg. exists (log_one h' self p val).
  split; [apply log_path_value|].
  rewrite (get_log_one _ _ _ _ _ Hreg).
  by rewrite (cleared_stored _ _ _ _ _ _ Ht Hc).
Qed.

Lemma log_after_clear_restarts_witness :
  tree_shaped table_with_branches addr_of_branches
  ∧ regular "b/v"
  ∧ ∃ h', Logger.clear 2 table_with_branches fresh_logger = Ok h'
          ∧ ∃ h1, Logger.log h' fresh_logger [VStr "b/v"; VInt 7] = (Ok tt, h1)
                  ∧ Logger.get h1 fresh_logger "b/v" VNone
                    = (Ok (VList [VInt 7]), h1).
Proof.
  assert (tree_shaped table_with_branches addr_of_branches) as Ht
    by (apply (bool_decide_unpack _); vm_compute; exact I).
  assert (regular "b/v") as Hreg by (intros H; vm_compute in H; discriminate).
  split; [exact Ht|]. split; [exact Hreg|].
  eexists. split; [vm_compute; reflexivity|].
  eapply (log_after_clear_restarts table_with_branches addr_of_branches
            fresh_logger 2 _ "b/v" (VInt 7) VNone Ht); [reflexivity|exact Hreg].
Defined.

(** ** Tables that are not trees *)

Section cycles.

Implicit Types (h : heap) (l c x : loc) (key : string).

Local Arguments LogNodeOps.clear : simpl never.
Local Arguments LogNodeOps.parse : simpl never.

(** A node above a cycle has a child above that cycle. *)
Lemma above_cycle_child h x :
  above_cycle h x →
  ∃ key c, LogNode.children (node_at h x) !! key = Some c ∧ above_cycle h c.
Proof.
  intros (l & key & c & Hxl & Hc & Hcl).
  destruct (reach_inv _ _ _ Hxl) as [->|(k1 & c1 & Hc1 & Hr1)].
  - exists key, c. split; [done|]. by exists x, key, c.
  - exists k1, c1. split; [done|]. by exists l, key, c.
Qed.

Lemma above_cycle_same_children h h' x :
  (∀ y, LogNode.children (node_at h' y) = LogNode.children (node_at h y)) →
  above_cycle h x → above_cycle h' x.
Proof.
  intros Hch (l & key & c & Hxl & Hc & Hcl). exists l, key, c.
  rewrite Hch. by rewrite !(reach_same_children h h' _ _ Hch).
Qed.

(** The only exception of [parse] and of [clear] is the one of the
    recursion limit. *)
Lemma parse_raise_kind fuel :
  ∀ h l e, LogNodeOps.parse fuel h l = Raise e → e = RecursionError.
Proof.
  induction fuel as [|fuel IH]; intros h l e; [by intros [= <-]|].
  rewrite parse_S. intros Hp.
  pose proof (fold_parse_step (LogNodeOps.parse fuel h)
                (NList <$> LogNode.data (node_at h l))
                (LogNode.children (node_at h l))) as Hf.
  rewrite Hp in Hf. destruct Hf as (key & c & _ & Hc). by eapply IH.
Qed.

Lemma clear_raise_kind fuel :
  ∀ h l e, LogNodeOps.clear fuel h l = Raise e → e = RecursionError.
Proof.
  induction fuel as [|fuel IH]; intros h l e; [by intros [= <-]|].
  rewrite clear_S, map_fold_foldr.
  generalize (map_to_list (LogNode.children (node_at h l))). intros kcs.
  assert (∀ e', foldr (uncurry (clear_step (LogNodeOps.clear fuel))) (Ok h) kcs
                = Raise e' → e' = RecursionError) as Hfold.
  { induction kcs as [|[key c] kcs IHk]; intros e'; simpl; [done|].
    unfold clear_step at 1.
    destruct (foldr _ _ kcs) as [h1|e1]; simpl.
    - apply IH.
    - intros [= <-]. by apply IHk. }
  destruct (foldr _ _ kcs) as [hr|e1]; simpl; [done|].
  intros [= <-]. by apply Hfold.
Qed.

(** [clear] leaves every [children] as it was, in any table. *)
Lemma clear_ok_children fuel :
  ∀ h l h', LogNodeOps.clear fuel h l = Ok h' →
            ∀ x, LogNode.children (node_at h' x)
                 = LogNode.children (node_at h x).
Proof.
  induction fuel as [|fuel IH]; intros h l h'; [done|].
  rewrite clear_S, map_fold_foldr.
  generalize (map_to_list (LogNode.children (node_at h l))). intros kcs.
  assert (∀ hr, foldr (uncurry (clear_step (LogNodeOps.clear fuel))) (Ok h) kcs
                = Ok hr →
                ∀ x, LogNode.children (node_at hr x)
                     = LogNode.children (node_at h x)) as Hfold.
  { induction kcs as [|[key c] kcs IHk]; intros hr; simpl.
    - by intros [= <-].
    - unfold clear_step at 1.
      destruct (foldr _ _ kcs) as [h1|e1]; simpl; [|done].
      intros Hc x. rewrite (IH _ _ _ Hc x). by apply IHk. }
  destruct (foldr _ _ kcs) as [hr|e1]; simpl; [|done].
  intros [= <-] x. rewrite children_set_data. by apply Hfold.
Qed.

Lemma parse_above_cycle fuel :
  ∀ h l, above_cycle h l → LogNodeOps.parse fuel h l = Raise RecursionError.
Proof.
  induction fuel as [|fuel IH]; intros h l Hl; [done|].
  destruct (LogNodeOps.parse (S fuel) h l) as [m|e] eqn:Hp.
  - destruct (above_cycle_child _ _ Hl) as (key & c & Hc & Hac).
    destruct (parse_S_ok _ _ _ _ Hp) as [Hok _].
    destruct (Hok key c Hc) as [mc Hmc]. by rewrite (IH h c Hac) in Hmc.
  - f_equal. by eapply parse_raise_kind.
Qed.

Lemma clear_above_cycle fuel :
  ∀ h l, above_cycle h l → LogNodeOps.clear fuel h l = Raise RecursionError.
Proof.
  induction fuel as [|fuel IH]; intros h l Hl; [done|].
  destruct (LogNodeOps.clear (S fuel) h l) as [h'|e] eqn:Hp.
  - exfalso. destruct (above_cycle_child _ _ Hl) as (key & c & Hc & Hac).
    revert Hp. rewrite clear_S, map_fold_foldr.
    apply elem_of_map_to_list in Hc. revert Hc.
    generalize (map_to_list (LogNode.children (node_at h l))). intros kcs Hin.
    assert (∀ hr, foldr (uncurry (clear_step (LogNodeOps.clear fuel)))
                    (Ok h) kcs ≠ Ok hr) as Hfold.
    { induction kcs as [|[k1 c1] kcs IHk]; [by apply elem_of_nil in Hin|].
      intros hr. simpl. unfold clear_step at 1.
      destruct (foldr _ _ kcs) as [h1|e1] eqn:Hf; simpl; [|done].
      apply elem_of_cons in Hin as [[= <- <-]|Hin].
      - rewrite IH; [done|]. apply (above_cycle_same_children h); [|done].
        clear -Hf IH. revert h1 Hf.
        induction kcs as [|[k2 c2] kcs IHk]; intros h1; simpl.
        + by intros [= <-].
        + unfold clear_step at 1.
          destruct (foldr _ _ kcs) as [h2|e2]; simpl; [|done].
          intros Hc x. rewrite (clear_ok_children _ _ _ _ Hc x).
          by apply IHk.
      - by destruct (IHk Hin h1). }
    destruct (foldr _ _ kcs) as [hr|e1] eqn:Hf; simpl; [|done].
    by destruct (Hfold hr).
  - f_equal. by eapply clear_raise_kind.
Qed.

End cycles.

(** X15.  When some node below the root of a logger is its own
    descendant, [as_dict] and [clear] raise [RecursionError] whatever
    the recursion limit is: neither keeps track of the nodes it has
    visited. *)
Theorem cyclic_table_recursion_error
    (h : heap) (self : Logger.t) (fuel : nat) :
  above_cycle h (Logger._root self) →
  Logger.as_dict fuel h self = Raise RecursionError
  ∧ Logger.clear fuel h self = Raise RecursionError.
Proof.
  intros Hc. split.
  - by apply parse_above_cycle.
  - by apply clear_above_cycle.
Qed.

Lemma cyclic_table_recursion_error_witness :
  above_cycle table_with_cycle 1%positive
  ∧ Logger.as_dict 1000 table_with_cycle (Logger.mk 1%positive)
    = Raise RecursionError
  ∧ Logger.clear 1000 table_with_cycle (Logger.mk 1%positive)
    = Raise RecursionError.
Proof.
  assert (above_cycle table_with_cycle 1%positive) as Hc.
  { exists 1%positive, "x", 1%positive.
    split; [by exists []|]. split; [reflexivity | by exists []]. }
  split; [exact Hc|].
  exact (cyclic_table_recursion_error table_with_cycle (Logger.mk 1%positive)
           1000 Hc).
Defined.

(** ** Loggers on separate parts of the table *)

Section separation.

Implicit Types (h : heap) (self other : Logger.t) (l c n x y o r : loc).
Implicit Types (p key k : string) (keys : list string).

(** The table [setdefault] leaves when the key was missing, node by
    node. *)
Lemma setdefault_child_node h l k y :
  LogNode.children (node_at h l) !! k = None →
  node_at (setdefault_child h l k).2 y
  = if decide (y = l)
    then LogNode.mk (LogNode.data (node_at h l))
           (<[k := new_loc h l]> (LogNode.children (node_at h l)))
    else if decide (y = new_loc h l) then LogNode.empty else node_at h y.
Proof.
  intros Hk. unfold setdefault_child. rewrite Hk. simpl.
  unfold set_children. rewrite !node_at_insert.
  pose proof (new_loc_ne h l).
  repeat case_decide; subst; done.
Qed.

(** What [setdefault] makes reachable was reachable or is new. *)
Lemma setdefault_child_reach h l k c h1 :
  setdefault_child h l k = (c, h1) →
  dom h ⊆ dom h1
  ∧ (reach h l c ∨ c ∉ dom h)
  ∧ ∀ y x, reach h1 y x → reach h y x ∨ x ∉ dom h.
Proof.
  destruct (LogNode.children (node_at h l) !! k) as [c0|] eqn:Hk.
  - rewrite (setdefault_child_bound _ _ _ _ Hk). intros [= <- <-].
    split; [done|]. split; [|by left].
    left. eapply reach_child; [done | apply reach_refl].
  - intros Hsd.
    assert (h1 = (setdefault_child h l k).2) as -> by (by rewrite Hsd).
    assert (c = new_loc h l) as ->.
    { revert Hsd. unfold setdefault_child. rewrite Hk. by intros [= <-]. }
    split; [by apply setdefault_child_new_dom|].
    split; [right; apply new_loc_fresh|].
    intros y x [keys Hd]. revert y Hd.
    induction keys as [|k' ks IH]; intros y; simpl.
    + intros [= <-]. left. apply reach_refl.
    + rewrite (setdefault_child_node _ _ _ _ Hk).
      case_decide as Hy; [subst y; simpl | case_decide as Hy2; [subst; simpl|]].
      * rewrite lookup_insert. case_decide as Hkk; [subst k'|].
        -- intros [Hr|Hn]%IH; [|by right]. right.
           rewrite (reach_blank h (new_loc h l) x
                      (node_at_fresh _ _ (new_loc_fresh h l)) Hr).
           apply new_loc_fresh.
        -- destruct (LogNode.children (node_at h l) !! k') as [c'|] eqn:Hc';
             [|done].
           intros [Hr|Hn]%IH; [left; by eapply reach_child | by right].
      * by rewrite lookup_empty.
      * destruct (LogNode.children (node_at h y) !! k') as [c'|] eqn:Hc';
          [|done].
        intros [Hr|Hn]%IH; [left; by eapply reach_child | by right].
Qed.

(** The loop of [_traverse] touches no allocated node that is not below
    the node it starts from, and makes nothing reachable but new
    nodes. *)
Lemma walk_reach keys :
  ∀ h l n h',
    Logger.walk h l keys = (n, h') →
    dom h ⊆ dom h'
    ∧ (∀ y x, reach h' y x → reach h y x ∨ x ∉ dom h)
    ∧ ∀ x, x ∈ dom h → ¬ reach h l x → node_at h' x = node_at h x.
Proof.
  induction keys as [|key keys IH]; intros h l n h'; simpl.
  - intros [= <- <-]. split; [done|]. split; [by left | done].
  - destruct (setdefault_child h l key) as [c h1] eqn:Hsd. intros Hw.
    destruct (setdefault_child_reach _ _ _ _ _ Hsd) as (Hdom1 & Hc & Hr1).
    destruct (IH _ _ _ _ Hw) as (Hdom2 & Hr2 & Hf2).
    split; [by etrans|]. split.
    + intros y x Hr. destruct (Hr2 y x Hr) as [H|H]; [by apply Hr1|].
      right. intros Hin. by apply H, Hdom1.
    + intros x Hx Hnr. rewrite (Hf2 x).
      * destruct (LogNode.children (node_at h l) !! key) as [c0|] eqn:Hk.
        -- rewrite (setdefault_child_bound _ _ _ _ Hk) in Hsd.
           by injection Hsd as <- <-.
        -- assert (h1 = (setdefault_child h l key).2) as ->
             by (by rewrite Hsd).
           rewrite (setdefault_child_node _ _ _ _ Hk).
           rewrite decide_False.
           ++ rewrite decide_False; [done|].
              intros ->. by apply (new_loc_fresh h l).
           ++ intros ->. apply Hnr, reach_refl.
      * by apply Hdom1.
      * intros Hcx. destruct (Hr1 c x Hcx) as [H|H]; [|done].
        destruct Hc as [Hc|Hc].
        -- apply Hnr. by apply (reach_trans _ _ c).
        -- rewrite (reach_blank h c x (node_at_fresh _ _ Hc) H) in Hx. done.
Qed.

Lemma log_one_outside h self p (val : value) :
  dom h ⊆ dom (log_one h self p val)
  ∧ (∀ y x, reach (log_one h self p val) y x → reach h y x ∨ x ∉ dom h)
  ∧ ∀ x, x ∈ dom h → ¬ reach h (Logger._root self) x →
         node_at (log_one h self p val) x = node_at h x.
Proof.
  unfold log_one. destruct (_rsplit_vpath p) as [dir key].
  destruct (Logger.walk h _ _) as [n h1] eqn:Hw.
  destruct (walk_reach _ _ _ _ _ Hw) as (Hdom & Hr & Hf).
  destruct (walk_spec _ _ _ _ _ Hw) as [Hd _].
  split; [|split].
  - intros z Hz. unfold set_data. rewrite dom_insert.
    apply elem_of_union. right. by apply Hdom.
  - intros y x Hyx. apply Hr.
    revert Hyx. apply reach_same_children.
    intros z. symmetry. apply children_set_data.
  - intros x Hx Hnr. unfold set_data. rewrite node_at_insert_ne.
    + by apply Hf.
    + intros ->. by destruct (Hr (Logger._root self) x (ex_intro _ _ Hd)).
Qed.

(** Where the nodes below [l] are as they were, the same keys lead to
    the same nodes. *)
Lemma descend_frame h h' keys :
  ∀ l, (∀ x, reach h l x → node_at h' x = node_at h x) →
       Logger.descend h' l keys = Logger.descend h l keys.
Proof.
  induction keys as [|key keys IH]; intros l Hf; simpl; [done|].
  rewrite (Hf l (reach_refl h l)).
  destruct (LogNode.children (node_at h l) !! key) as [c|] eqn:Hc; [|done].
  apply IH. intros x Hx. apply Hf. by eapply reach_child.
Qed.

Lemma log_one_separate h self p (val : value) o :
  separate h o (Logger._root self) →
  (∀ x, reach h o x → node_at (log_one h self p val) x = node_at h x)
  ∧ separate (log_one h self p val) o (Logger._root self).
Proof.
  intros Hsep.
  destruct (log_one_outside h self p val) as (Hdom & Hr & Hf).
  assert (∀ x, reach h o x → node_at (log_one h self p val) x = node_at h x)
    as Hsame.
  { intros x Hx. destruct (Hsep x Hx). by apply Hf. }
  split; [exact Hsame|].
  intros x [keys Hx]. rewrite (descend_frame _ _ _ _ Hsame) in Hx.
  destruct (Hsep x (ex_intro _ keys Hx)) as [Hd Hnr].
  split; [by apply Hdom|].
  intros Hrx. by destruct (Hr _ _ Hrx).
Qed.

Lemma run_logs_separate self o logs :
  ∀ h, separate h o (Logger._root self) →
       ∀ x, reach h o x → node_at (run_logs h self logs) x = node_at h x.
Proof.
  induction logs as [|[p val] logs IH]; intros h Hsep x Hx; [done|].
  unfold run_logs. cbn [foldl]. rewrite log_path_value. cbn [snd fst].
  destruct (log_one_separate h self p val o Hsep) as [Hsame Hsep'].
  fold (run_logs (log_one h self p val) self logs).
  rewrite (IH _ Hsep' x).
  - by apply Hsame.
  - destruct Hx as [keys Hx]. exists keys.
    by rewrite (descend_frame _ _ _ _ Hsame).
Qed.

(** Whatever its arguments, [log] leaves the nodes of a separate logger
    as they were. *)
Lemma log_separate h self (args : list value) o :
  separate h o (Logger._root self) →
  ∀ x, reach h o x → node_at (Logger.log h self args).2 x = node_at h x.
Proof.
  intros Hsep x Hx.
  destruct args as [|a0 [|a1 [|a2 args]]]; [done| | |done].
  - destruct a0; try done.
    rewrite log_mapping_run_logs. by apply (run_logs_separate self o).
  - destruct a0; try done.
    rewrite log_path_value. by apply (log_one_separate h self _ a1 o Hsep).
Qed.

Lemma clear_separate fuel h addr self h' o :
  tree_shaped h addr → Logger.clear fuel h self = Ok h' →
  separate h o (Logger._root self) →
  ∀ x, reach h o x → node_at h' x = node_at h x.
Proof.
  intros Ht Hc Hsep x Hx.
  destruct (clear_cleared _ _ _ _ _ Ht Hc) as (Hch & _ & Hdata).
  rewrite <- (node_eta (node_at h' x)), <- (node_eta (node_at h x)).
  rewrite Hch. f_equal.
  destruct (Hdata x) as [Hr|Hd]; [|done]. by destruct (Hsep x Hx).
Qed.

(** In a tree-shaped table, two nodes whose keys part at some key are
    separate. *)
Lemma diverging_separate h addr l keys k1 keys1 k2 keys2 r1 r2 :
  tree_shaped h addr →
  Logger.descend h l (keys ++ k1 :: keys1) = Some r1 →
  Logger.descend h l (keys ++ k2 :: keys2) = Some r2 →
  k1 ≠ k2 →
  separate h r2 r1.
Proof.
  intros Ht H1 H2 Hk. rewrite descend_app in H1, H2.
  destruct (Logger.descend h l keys) as [n|]; [|done].
  simpl in H1, H2.
  destruct (LogNode.children (node_at h n) !! k1) as [c1|] eqn:Hc1; [|done].
  destruct (LogNode.children (node_at h n) !! k2) as [c2|] eqn:Hc2; [|done].
  intros x Hx.
  assert (reach h c2 x) as Hc2x
    by (apply (reach_trans _ _ r2); [by eexists | done]).
  split.
  - eapply reach_dom; [done| |exact Hc2x].
    by destruct (tree_shaped_child _ _ _ _ _ Ht Hc2).
  - intros Hr1. eapply (tree_siblings_disjoint h addr n k1 k2 c1 c2 x); try done.
    apply (reach_trans _ _ r1); [by eexists | done].
Qed.

End separation.

(** X16.  [log] through one logger, whatever its arguments, leaves
    [as_dict] of another logger as it was, at every recursion limit,
    when the nodes below the root of the other logger are allocated and
    none of them is below the root of the logging one. *)
Theorem log_leaves_separate_export
    (h : heap) (self other : Logger.t) (args : list value) (fuel : nat) :
  separate h (Logger._root other) (Logger._root self) →
  Logger.as_dict fuel (Logger.log h self args).2 other
  = Logger.as_dict fuel h other.
Proof.
  intros Hsep. unfold Logger.as_dict. apply parse_frame.
  by apply log_separate.
Qed.

Lemma log_leaves_separate_export_witness :
  separate table_with_branches 3%positive 2%positive
  ∧ Logger.as_dict 5
      (Logger.log table_with_branches (Logger.mk 2%positive)
         [VStr "w"; VInt 9]).2 (Logger.mk 3%positive)
    = Logger.as_dict 5 table_with_branches (Logger.mk 3%positive).
Proof.
  assert (separate table_with_branches 3%positive 2%positive) as Hsep.
  { apply (diverging_separate table_with_branches addr_of_branches
             1%positive [] "a" [] "b" []).
    - apply (bool_decide_unpack _). vm_compute. exact I.
    - reflexivity.
    - reflexivity.
    - discriminate. }
  split; [exact Hsep|].
  exact (log_leaves_separate_export table_with_branches (Logger.mk 2%positive)
           (Logger.mk 3%positive) [VStr "w"; VInt 9] 5 Hsep).
Defined.

(** X17.  In a tree-shaped table, two loggers whose roots lie at paths
    that part at some key are independent: neither [log] nor [clear]
    through the one changes what [as_dict] of the other returns. *)
Theorem diverging_loggers_independent
    (h : heap) (addr : loc → list string) (l : loc)
    (keys : list string) (k1 : string) (keys1 : list string)
    (k2 : string) (keys2 : list string) (r1 r2 : loc) :
  tree_shaped h addr →
  Logger.descend h l (keys ++ k1 :: keys1) = Some r1 →
  Logger.descend h l (keys ++ k2 :: keys2) = Some r2 →
  k1 ≠ k2 →
  (∀ args fuel,
     Logger.as_dict fuel (Logger.log h (Logger.mk r1) args).2 (Logger.mk r2)
     = Logger.as_dict fuel h (Logger.mk r2))
  ∧ (∀ fuel h',
       Logger.clear fuel h (Logger.mk r1) = Ok h' →
       ∀ fuel', Logger.as_dict fuel' h' (Logger.mk r2)
                = Logger.as_dict fuel' h (Logger.mk r2)).
Proof.
  intros Ht H1 H2 Hk.
  pose proof (diverging_separate _ _ _ _ _ _ _ _ _ _ Ht H1 H2 Hk) as Hsep.
  split.
  - intros args fuel. unfold Logger.as_dict. apply parse_frame.
    by apply (log_separate h (Logger.mk r1) args r2).
  - intros fuel h' Hc fuel'. unfold Logger.as_dict. apply parse_frame.
    by apply (clear_separate fuel h addr (Logger.mk r1) h' r2).
Qed.

Lemma diverging_loggers_independent_witness :
  tree_shaped table_with_branches addr_of_branches
  ∧ (∀ args fuel,
       Logger.as_dict fuel
         (Logger.log table_with_branches (Logger.mk 2%positive) args).2
         (Logger.mk 3%positive)
       = Logger.as_dict fuel table_with_branches (Logger.mk 3%positive))
  ∧ (∀ fuel h',
       Logger.clear fuel table_with_branches (Logger.mk 2%positive) = Ok h' →
       ∀ fuel', Logger.as_dict fuel' h' (Logger.mk 3%positive)
                = Logger.as_dict fuel' table_with_branches
                    (Logger.mk 3%positive)).
Proof.
  assert (tree_shaped table_with_branches addr_of_branches) as Ht
    by (apply (bool_decide_unpack _); vm_compute; exact I).
  split; [exact Ht|].
  apply (diverging_loggers_independent table_with_branches addr_of_branches
           1%positive [] "a" [] "b" [] 2%positive 3%positive Ht);
    [reflexivity | reflexivity | discriminate].
Defined.

(** ** A separator at the head of a path *)

(** X18.  A separator before a bare key is dropped by the operations on
    data and kept by the membership test: [log] and [__getitem__] treat
    ["/key"] as ["key"], a list of the root, while [__contains__] looks
    for a child of the root under the empty key, so that [get] returns
    its default whenever the root has no such child. *)
Theorem leading_separator
    (h : heap) (self : Logger.t) (key : string) (val d : value) :
  Str.has_sep key = false →
  Logger.log h self [VStr (Str.join2 EmptyString key); val]
  = Logger.log h self [VStr key; val]
  ∧ Logger.__getitem__ h self (Str.join2 EmptyString key)
    = Logger.__getitem__ h self key
  ∧ (LogNode.children (node_at h (Logger._root self)) !! EmptyString = None →
     Logger.get h self (Str.join2 EmptyString key) d = (Ok d, h)).
Proof.
  intros Hk.
  pose proof (rsplit_vpath_join EmptyString key Hk) as Hj.
  pose proof (rsplit_vpath_no_sep key Hk) as Hn.
  split; [|split].
  - rewrite !log_path_value. unfold log_one. by rewrite Hj, Hn.
  - unfold Logger.__getitem__, Logger._do_data_op. by rewrite Hj, Hn.
  - intros Hc. unfold Logger.get, Logger.__contains__.
    rewrite decide_False by apply join2_nonempty.
    rewrite split_all_join, (split_no_sep None key Hk).
    change (Str.split None EmptyString) with [EmptyString].
    simpl. by rewrite Hc.
Qed.

Lemma leading_separator_witness :
  Str.has_sep "v" = false
  ∧ Logger.log table_with_data fresh_logger [VStr "/v"; VInt 6]
    = Logger.log table_with_data fresh_logger [VStr "v"; VInt 6]
  ∧ Logger.__getitem__ table_with_data fresh_logger "/v"
    = Logger.__getitem__ table_with_data fresh_logger "v"
  ∧ (LogNode.children (node_at table_with_data (Logger._root fresh_logger))
       !! EmptyString = None →
     Logger.get table_with_data fresh_logger "/v" VNone
     = (Ok VNone, table_with_data)).
Proof.
  split; [reflexivity|].
  apply (leading_separator table_with_data fresh_logger "v" (VInt 6) VNone).
  reflexivity.
Defined.

(** ** Logging a mapping *)

(** X19.  Logging a mapping is logging its items one after the other, in
    the order of the mapping: a mapping of one item is the call with a
    path and a value, and a mapping in two parts is two calls. *)
Theorem log_mapping_in_parts
    (h : heap) (self : Logger.t) (items1 items2 : list (string * value)) :
  Logger.log h self [VDict (items1 ++ items2)]
  = Logger.log (Logger.log h self [VDict items1]).2 self [VDict items2]
  ∧ ∀ p val, Logger.log h self [VDict [(p, val)]]
             = Logger.log h self [VStr p; val].
Proof.
  split; [|done].
  rewrite !log_mapping_run_logs. cbn [snd]. f_equal.
  unfold run_logs. apply foldl_app.
Qed.

(** ** The tables the operations build *)

(** X20.  On every table the operations of the logger build from the
    empty one, on any handles and in any order, [as_dict] and [clear]
    return on every logger once the recursion limit is large enough. *)
Theorem as_dict_and_clear_return (h : heap) (self : Logger.t) :
  built h →
  (∃ m depth, ∀ fuel, depth ≤ fuel → Logger.as_dict fuel h self = Ok m)
  ∧ (∃ h' depth, ∀ fuel, depth ≤ fuel → Logger.clear fuel h self = Ok h').
Proof.
  intros [addr Ht]%built_tree_shaped. split.
  - destruct (parses_total h addr (Logger._root self) Ht) as [m [depth Hm]].
    by exists m, depth.
  - destruct (clears_total h addr (Logger._root self) Ht)
      as (h' & [depth Hc] & _).
    by exists h', depth.
Qed.

Lemma as_dict_and_clear_return_witness :
  built table_with_data
  ∧ (∃ m depth, ∀ fuel, depth ≤ fuel →
                Logger.as_dict fuel table_with_data fresh_logger = Ok m)
  ∧ (∃ h' depth, ∀ fuel, depth ≤ fuel →
                 Logger.clear fuel table_with_data fresh_logger = Ok h').
Proof.
  assert (built table_with_data) as Hb.
  { apply (built_log fresh_table fresh_logger [VStr "v"; VInt 5]).
    apply (built_new ∅). apply built_empty. }
  split; [exact Hb|].
  exact (as_dict_and_clear_return table_with_data fresh_logger Hb).
Defined.
